(** * gocachelogstat: the log parser and the percentile reporter

    A shallow embedding of [src/main.go] (module [Simple]) and of its
    delta-tracking variant [src/unnamed/part_000] (module [Extended]).

    - Go's [int64] and [int] are [Z] with the two's-complement wrap-around
      written out ([wrap64]); [int] is taken to be 64 bits wide, as on the
      amd64 and arm64 ports.
    - Go strings and byte slices are [string] (a list of bytes).
    - [map[string]*entry] is a [gmap string addr]; the entries themselves
      live in a [heap : list entry], an address being an index into it and
      [new(entry)] appending a zeroed entry.  Several action entries may
      hold the address of one data entry, as in the source.
    - [log.Fatalf] ends the run with [Fatal]; a run-time panic (index out
      of range, nil dereference) ends it with [Panic]. *)

From Stdlib Require Import ZArith QArith Ascii String.
From stdpp Require Import base gmap list strings sorting.

Local Open Scope string_scope.
Local Open Scope list_scope.
Local Open Scope Z_scope.

(** ** Machine integers *)

Definition maxInt64 : Z := 2 ^ 63 - 1.
Definition minInt64 : Z := - 2 ^ 63.

(** Two's-complement wrap-around of a 64-bit signed integer. *)
Definition wrap64 (z : Z) : Z := (z + 2 ^ 63) mod 2 ^ 64 - 2 ^ 63.

Definition add64 (a b : Z) : Z := wrap64 (a + b).
Definition sub64 (a b : Z) : Z := wrap64 (a - b).
Definition mul64 (a b : Z) : Z := wrap64 (a * b).

(** [int(x)] for [x : int64] where [int] is 64 bits wide. *)
Definition int_of_int64 (x : Z) : Z := wrap64 x.

Definition in_int64 (z : Z) : Prop := minInt64 <= z <= maxInt64.

(** ** The library functions the program calls *)

(** [strconv.ParseInt(s, 10, 64)]: an optional sign, then one or more
    decimal digits; [None] stands for a non-nil [err] (syntax or range). *)

Definition digit_val (c : ascii) : option Z :=
  let n := Z.of_N (N_of_ascii c) in
  if (48 <=? n) && (n <=? 57) then Some (n - 48) else None.

Fixpoint parse_digits (s : string) (acc : Z) : option Z :=
  match s with
  | EmptyString => Some acc
  | String c r =>
      match digit_val c with
      | Some d => parse_digits r (10 * acc + d)
      | None => None
      end
  end.

(** [strconv.ParseUint(s, 10, 64)] before its range check. *)
Definition parse_unsigned (s : string) : option Z :=
  match s with
  | EmptyString => None
  | _ => parse_digits s 0
  end.

Definition ParseInt (s : string) : option Z :=
  match s with
  | EmptyString => None
  | String c r =>
      if Ascii.eqb c "+" then
        match parse_unsigned r with
        | Some un => if un <? 2 ^ 63 then Some un else None
        | None => None
        end
      else if Ascii.eqb c "-" then
        match parse_unsigned r with
        | Some un => if un <=? 2 ^ 63 then Some (- un) else None
        | None => None
        end
      else
        match parse_unsigned s with
        | Some un => if un <? 2 ^ 63 then Some un else None
        | None => None
        end
  end.

(** [bytes.Split(data, []byte("\n"))]: the segments between line feeds,
    one more than there are line feeds. *)

Definition LF : ascii := ascii_of_nat 10.

Fixpoint split_lines (data : string) (cur : string) : list string :=
  match data with
  | EmptyString => [cur]
  | String c r =>
      if Ascii.eqb c LF then cur :: split_lines r EmptyString
      else split_lines r (cur +:+ String c EmptyString)
  end.

Definition Split (data : string) : list string := split_lines data EmptyString.

(** [strings.Fields]: the maximal runs of non-space bytes.  A space is one
    of the six ASCII spaces or the UTF-8 encoding of a code point with the
    Unicode White_Space property ([unicode.IsSpace]); [space_width] is the
    number of bytes of the space that starts the string, 0 if none does.
    Every such encoding starts with a lead byte, so matching on the bytes
    agrees with decoding rune by rune. *)

Definition byte_of (c : ascii) : Z := Z.of_N (N_of_ascii c).

Definition asciiSpace (c : ascii) : bool :=
  let n := byte_of c in
  ((9 <=? n) && (n <=? 13)) || (n =? 32).

Definition space_width (s : string) : nat :=
  match s with
  | EmptyString => 0%nat
  | String c0 r0 =>
      if asciiSpace c0 then 1%nat
      else
        match r0 with
        | EmptyString => 0%nat
        | String c1 r1 =>
            let b0 := byte_of c0 in
            let b1 := byte_of c1 in
            if (b0 =? 194) && ((b1 =? 133) || (b1 =? 160)) then 2%nat
            else
              match r1 with
              | EmptyString => 0%nat
              | String c2 _ =>
                  let b2 := byte_of c2 in
                  if (b0 =? 225) && (b1 =? 154) && (b2 =? 128) then 3%nat
                  else if (b0 =? 226) && (b1 =? 128)
                          && (((128 <=? b2) && (b2 <=? 138))
                              || (b2 =? 168) || (b2 =? 169) || (b2 =? 175))
                  then 3%nat
                  else if (b0 =? 226) && (b1 =? 129) && (b2 =? 159) then 3%nat
                  else if (b0 =? 227) && (b1 =? 128) && (b2 =? 128) then 3%nat
                  else 0%nat
              end
        end
  end.

Definition flush (cur : string) (rest : list string) : list string :=
  match cur with
  | EmptyString => rest
  | _ => cur :: rest
  end.

(** [skip] counts the bytes of a multi-byte space still to be dropped. *)
Fixpoint fields_from (s : string) (skip : nat) (cur : string) : list string :=
  match s with
  | EmptyString => flush cur []
  | String c r =>
      match skip with
      | S k => fields_from r k cur
      | O =>
          match space_width s with
          | O => fields_from r 0 (cur +:+ String c EmptyString)
          | S k => flush cur (fields_from r k EmptyString)
          end
      end
  end.

Definition Fields (s : string) : list string := fields_from s 0 EmptyString.

(** [sort.Ints]: the ascending rearrangement of the slice. *)
Definition sortInts (l : list Z) : list Z := merge_sort Z.le l.

(** ** Outcomes of a run *)

(** The three [log.Fatalf] calls of the scan, each with the offending line. *)
Inductive fatal : Type :=
  | InvalidLine (line : string)
  | InvalidTime (line : string)
  | InvalidSize (line : string).

Inductive result (A : Type) : Type :=
  | Ok (a : A)
  | Fatal (e : fatal)
  | Panic.
Arguments Ok {A} a.
Arguments Fatal {A} e.
Arguments Panic {A}.

Global Instance result_ret : MRet result := λ A a, Ok a.
Global Instance result_bind : MBind result := λ A B k m,
  match m with
  | Ok a => k a
  | Fatal e => Fatal e
  | Panic => Panic
  end.

Global Instance result_fmap : FMap result := λ A B f m,
  match m with
  | Ok a => Ok (f a)
  | Fatal e => Fatal e
  | Panic => Panic
  end.

(** A pointer is an address in the heap, or nil. *)
Abbreviation addr := nat (only parsing).

(** [f[i]] on a slice: out of range panics. *)
Definition index {A : Type} (f : list A) (i : nat) : result A :=
  match f !! i with
  | Some x => Ok x
  | None => Panic
  end.

(** The address held by a pointer that is dereferenced: nil panics. *)
Definition nonnil (p : option addr) : result addr :=
  match p with
  | Some a => Ok a
  | None => Panic
  end.

(** The loop of [main] over the lines. *)
Fixpoint scan {S : Type} (step : S → string → result S) (s : S)
    (lines : list string) : result S :=
  match lines with
  | [] => Ok s
  | line :: rest => s' ← step s line; scan step s' rest
  end.

Definition action_key (k : string) : string := k +:+ "-a".
Definition data_key (k : string) : string := k +:+ "-d".

(** ** The parser of [src/main.go] *)

Module Simple.

Record entry : Type := Entry {
  created : Z;
  size : Z;
  reused : bool;
  data : option addr }.

(** The local variables of [main] that the loop updates, and the heap. *)
Record state : Type := State {
  totalA : Z;
  totalReusedA : Z;
  totalD : Z;
  totalReusedD : Z;
  reuseA : list Z;
  reuseD : list Z;
  firstTime : Z;
  lastTime : Z;
  cache : gmap string addr;
  heap : list entry }.

Definition init : state :=
  State 0 0 0 0 [] [] 0 0 ∅ [].

Definition set_times (s : state) (first last : Z) : state :=
  State (totalA s) (totalReusedA s) (totalD s) (totalReusedD s)
        (reuseA s) (reuseD s) first last (cache s) (heap s).

(** [e := new(entry); ...; cache[k] = e]: the new entry gets the next
    address. *)
Definition insert_new (s : state) (k : string) (e : entry) : state :=
  State (totalA s) (totalReusedA s) (totalD s) (totalReusedD s)
        (reuseA s) (reuseD s) (firstTime s) (lastTime s)
        (<[k := length (heap s)]> (cache s)) (heap s ++ [e]).

Definition add_totalA (s : state) (n : Z) : state :=
  State (add64 (totalA s) n) (totalReusedA s) (totalD s) (totalReusedD s)
        (reuseA s) (reuseD s) (firstTime s) (lastTime s) (cache s) (heap s).

Definition add_totalD (s : state) (n : Z) : state :=
  State (totalA s) (totalReusedA s) (add64 (totalD s) n) (totalReusedD s)
        (reuseA s) (reuseD s) (firstTime s) (lastTime s) (cache s) (heap s).

Definition add_totalReusedA (s : state) (n : Z) : state :=
  State (totalA s) (add64 (totalReusedA s) n) (totalD s) (totalReusedD s)
        (reuseA s) (reuseD s) (firstTime s) (lastTime s) (cache s) (heap s).

Definition add_totalReusedD (s : state) (n : Z) : state :=
  State (totalA s) (totalReusedA s) (totalD s) (add64 (totalReusedD s) n)
        (reuseA s) (reuseD s) (firstTime s) (lastTime s) (cache s) (heap s).

Definition store (s : state) (p : addr) (e : entry) : state :=
  State (totalA s) (totalReusedA s) (totalD s) (totalReusedD s)
        (reuseA s) (reuseD s) (firstTime s) (lastTime s)
        (cache s) (<[p := e]> (heap s)).

Definition append_samples (s : state) (a d : Z) : state :=
  State (totalA s) (totalReusedA s) (totalD s) (totalReusedD s)
        (reuseA s ++ [a]) (reuseD s ++ [d]) (firstTime s) (lastTime s)
        (cache s) (heap s).

Definition mark_reused (e : entry) : entry :=
  Entry (created e) (size e) true (data e).

(** [case "put"], lines 78-98. *)
Definition put (s : state) (line : string) (f : list string) (t : Z)
    : result state :=
  f4 ← index f 4;
  match ParseInt f4 with
  | None => Fatal (InvalidSize line)
  | Some sz =>
      f3 ← index f 3;
      let '(s, e1) :=
        match cache s !! data_key f3 with
        | Some p => (s, p)
        | None =>
            (add_totalD (insert_new s (data_key f3) (Entry t sz false None)) sz,
             length (heap s))
        end in
      f2 ← index f 2;
      match cache s !! action_key f2 return result state with
      | Some _ => Ok s
      | None =>
          Ok (add_totalA
                (insert_new s (action_key f2) (Entry t 154 false (Some e1)))
                154)
      end
  end.

(** [case "get", "miss"], lines 101-114.  Every field is read from the
    heap at the point where the source reads it. *)
Definition get (s : state) (f : list string) (t : Z) : result state :=
  f2 ← index f 2;
  match cache s !! action_key f2 return result state with
  | None => Ok s
  | Some p =>
      e ← index (heap s) p;
      let s := if reused e then s
               else add_totalReusedA (store s p (mark_reused e)) (size e) in
      e ← index (heap s) p;
      d ← nonnil (data e);
      ed ← index (heap s) d;
      let s := if reused ed then s
               else add_totalReusedD (store s d (mark_reused ed)) (size ed) in
      e ← index (heap s) p;
      d ← nonnil (data e);
      ed ← index (heap s) d;
      Ok (append_samples s (int_of_int64 (sub64 t (created e)))
                           (int_of_int64 (sub64 t (created ed))))
  end.

(** The body of the loop, lines 61-115. *)
Definition process_line (s : state) (line : string) : result state :=
  let f := Fields line in
  if bool_decide (length f = 0%nat) then Ok s
  else if bool_decide (length f < 3)%nat then Fatal (InvalidLine line)
  else
    f1 ← index f 1;
    if String.eqb f1 "put" && negb (bool_decide (length f = 5%nat))
    then Fatal (InvalidLine line)
    else
      f0 ← index f 0;
      match ParseInt f0 with
      | None => Fatal (InvalidTime line)
      | Some t =>
          let s := set_times s (if firstTime s =? 0 then t else firstTime s) t in
          if String.eqb f1 "put" then put s line f t
          else if String.eqb f1 "get" || String.eqb f1 "miss" then get s f t
          else Ok s
      end.

Definition run (lines : list string) : result state :=
  scan process_line init lines.

End Simple.

(** ** The parser of [src/unnamed/part_000], which also samples the time
    since the previous reuse *)

Module Extended.

Record entry : Type := Entry {
  created : Z;
  lastReused : Z;
  size : Z;
  reused : bool;
  data : option addr }.

Record state : Type := State {
  totalA : Z;
  totalReusedA : Z;
  totalD : Z;
  totalReusedD : Z;
  reuseA : list Z;
  reuseD : list Z;
  reuseDeltaA : list Z;
  reuseDeltaD : list Z;
  firstTime : Z;
  lastTime : Z;
  cache : gmap string addr;
  heap : list entry }.

Definition init : state :=
  State 0 0 0 0 [] [] [] [] 0 0 ∅ [].

Definition set_times (s : state) (first last : Z) : state :=
  State (totalA s) (totalReusedA s) (totalD s) (totalReusedD s)
        (reuseA s) (reuseD s) (reuseDeltaA s) (reuseDeltaD s)
        first last (cache s) (heap s).

Definition insert_new (s : state) (k : string) (e : entry) : state :=
  State (totalA s) (totalReusedA s) (totalD s) (totalReusedD s)
        (reuseA s) (reuseD s) (reuseDeltaA s) (reuseDeltaD s)
        (firstTime s) (lastTime s)
        (<[k := length (heap s)]> (cache s)) (heap s ++ [e]).

Definition add_totalA (s : state) (n : Z) : state :=
  State (add64 (totalA s) n) (totalReusedA s) (totalD s) (totalReusedD s)
        (reuseA s) (reuseD s) (reuseDeltaA s) (reuseDeltaD s)
        (firstTime s) (lastTime s) (cache s) (heap s).

Definition add_totalD (s : state) (n : Z) : state :=
  State (totalA s) (totalReusedA s) (add64 (totalD s) n) (totalReusedD s)
        (reuseA s) (reuseD s) (reuseDeltaA s) (reuseDeltaD s)
        (firstTime s) (lastTime s) (cache s) (heap s).

Definition add_totalReusedA (s : state) (n : Z) : state :=
  State (totalA s) (add64 (totalReusedA s) n) (totalD s) (totalReusedD s)
        (reuseA s) (reuseD s) (reuseDeltaA s) (reuseDeltaD s)
        (firstTime s) (lastTime s) (cache s) (heap s).

Definition add_totalReusedD (s : state) (n : Z) : state :=
  State (totalA s) (totalReusedA s) (totalD s) (add64 (totalReusedD s) n)
        (reuseA s) (reuseD s) (reuseDeltaA s) (reuseDeltaD s)
        (firstTime s) (lastTime s) (cache s) (heap s).

Definition store (s : state) (p : addr) (e : entry) : state :=
  State (totalA s) (totalReusedA s) (totalD s) (totalReusedD s)
        (reuseA s) (reuseD s) (reuseDeltaA s) (reuseDeltaD s)
        (firstTime s) (lastTime s) (cache s) (<[p := e]> (heap s)).

Definition append_samples (s : state) (a d : Z) : state :=
  State (totalA s) (totalReusedA s) (totalD s) (totalReusedD s)
        (reuseA s ++ [a]) (reuseD s ++ [d]) (reuseDeltaA s) (reuseDeltaD s)
        (firstTime s) (lastTime s) (cache s) (heap s).

Definition append_deltas (s : state) (a d : Z) : state :=
  State (totalA s) (totalReusedA s) (totalD s) (totalReusedD s)
        (reuseA s) (reuseD s) (reuseDeltaA s ++ [a]) (reuseDeltaD s ++ [d])
        (firstTime s) (lastTime s) (cache s) (heap s).

Definition set_lastReused (e : entry) (t : Z) : entry :=
  Entry (created e) t (size e) (reused e) (data e).

(** [case "put"], lines 78-98: as in [src/main.go]; [lastReused] starts
    at zero. *)
Definition put (s : state) (line : string) (f : list string) (t : Z)
    : result state :=
  f4 ← index f 4;
  match ParseInt f4 with
  | None => Fatal (InvalidSize line)
  | Some sz =>
      f3 ← index f 3;
      let '(s, e1) :=
        match cache s !! data_key f3 with
        | Some p => (s, p)
        | None =>
            (add_totalD (insert_new s (data_key f3) (Entry t 0 sz false None)) sz,
             length (heap s))
        end in
      f2 ← index f 2;
      match cache s !! action_key f2 return result state with
      | Some _ => Ok s
      | None =>
          Ok (add_totalA
                (insert_new s (action_key f2) (Entry t 0 154 false (Some e1)))
                154)
      end
  end.

(** [case "get", "miss"], lines 101-119. *)
Definition get (s : state) (f : list string) (t : Z) : result state :=
  f2 ← index f 2;
  match cache s !! action_key f2 return result state with
  | None => Ok s
  | Some p =>
      e ← index (heap s) p;
      let s := if lastReused e =? 0
               then store (add_totalReusedA s (size e)) p
                          (set_lastReused e (created e))
               else s in
      e ← index (heap s) p;
      d ← nonnil (data e);
      ed ← index (heap s) d;
      let s := if lastReused ed =? 0
               then store (add_totalReusedD s (size ed)) d
                          (set_lastReused ed (created ed))
               else s in
      e ← index (heap s) p;
      d ← nonnil (data e);
      ed ← index (heap s) d;
      let s := append_samples s (int_of_int64 (sub64 t (created e)))
                                (int_of_int64 (sub64 t (created ed))) in
      let s := append_deltas s (int_of_int64 (sub64 t (lastReused e)))
                               (int_of_int64 (sub64 t (lastReused ed))) in
      let s := store s p (set_lastReused e t) in
      e ← index (heap s) p;
      d ← nonnil (data e);
      ed ← index (heap s) d;
      Ok (store s d (set_lastReused ed t))
  end.

(** The body of the loop, lines 61-120. *)
Definition process_line (s : state) (line : string) : result state :=
  let f := Fields line in
  if bool_decide (length f = 0%nat) then Ok s
  else if bool_decide (length f < 3)%nat then Fatal (InvalidLine line)
  else
    f1 ← index f 1;
    if String.eqb f1 "put" && negb (bool_decide (length f = 5%nat))
    then Fatal (InvalidLine line)
    else
      f0 ← index f 0;
      match ParseInt f0 with
      | None => Fatal (InvalidTime line)
      | Some t =>
          let s := set_times s (if firstTime s =? 0 then t else firstTime s) t in
          if String.eqb f1 "put" then put s line f t
          else if String.eqb f1 "get" || String.eqb f1 "miss" then get s f t
          else Ok s
      end.

Definition run (lines : list string) : result state :=
  scan process_line init lines.

End Extended.

(** ** The report *)

(** [float64(v)/86400], kept as the exact quotient. *)
Definition days (v : Z) : Q := v # 86400.

(** What one [Printf] call writes, without the layout of its format. *)
Inductive item : Type :=
  | Banner
  | Fence
  | CacheAge (d : Q)
  | CacheLine (name : string) (total totalReused : Z)
  | NoReuse
  | PercentilesHeader
  | DeltaPercentilesHeader
  | Percentile (p : Q) (d : Q)
  | Max (d : Q).

(** A computation that prints: the items written so far and how it went on. *)
Definition printer (A : Type) : Type := list item * result A.

Global Instance printer_ret : MRet printer := λ A a, ([], Ok a).
Global Instance printer_bind : MBind printer := λ A B k m,
  match m with
  | (o, Ok a) => let '(o', r) := k a in ((o ++ o')%list, r)
  | (o, Fatal e) => (o, Fatal e)
  | (o, Panic) => (o, Panic)
  end.

Definition Printf (i : item) : printer unit := ([i], Ok tt).
Definition lift {A : Type} (r : result A) : printer A := ([], r).

(** [reuse[j]] for an [int] index: negative or too large panics. *)
Definition at_index (reuse : list Z) (j : Z) : result Z :=
  if j <? 0 then Panic else index reuse (Z.to_nat j).

(** [len(reuse)] as an [int]. *)
Definition len (reuse : list Z) : Z := Z.of_nat (length reuse).

(** [reuse[len(reuse)*num/den]] printed as the percentile [p]; the product
    wraps and [/] truncates towards zero. *)
Definition print_percentile (p : Q) (reuse : list Z) (n num den : Z)
    : printer unit :=
  v ← lift (at_index reuse (Z.quot (mul64 n num) den));
  Printf (Percentile p (days v)).

(** [for i := 10; i <= 90; i += 10 { ... }], [fuel] bounding the number of
    iterations left. *)
Fixpoint percentile_loop (fuel : nat) (i : Z) (reuse : list Z) (n : Z)
    : printer unit :=
  match fuel with
  | O => mret tt
  | S fuel' =>
      if i <=? 90 then
        _ ← print_percentile (inject_Z i) reuse n i 100;
        percentile_loop fuel' (add64 i 10) reuse n
      else mret tt
  end.

(** The percentile lines of one sample slice: the loop indexes by the
    length of the slice it prints, the four lines after it by [n]. *)
Definition print_percentiles (reuse : list Z) (n : Z) : printer unit :=
  _ ← percentile_loop 10 10 reuse (len reuse);
  _ ← print_percentile 95 reuse n 95 100;
  _ ← print_percentile 99 reuse n 99 100;
  _ ← print_percentile (999 # 10) reuse n 999 1000;
  v ← lift (at_index reuse (sub64 n 1));
  Printf (Max (days v)).

Module SimpleReport.

(** [printCache] of [src/main.go], lines 130-145. *)
Definition printCache (name : string) (total totalReused : Z)
    (reuse : list Z) : printer unit :=
  _ ← Printf (CacheLine name total totalReused);
  if len reuse =? 0 then Printf NoReuse
  else
    _ ← Printf PercentilesHeader;
    print_percentiles reuse (len reuse).

(** [main] from the bytes of log.txt on, lines 55-127.  The deferred
    [Printf] runs when [main] returns or panics, not on [log.Fatalf]. *)
Definition main (data : string) : printer unit :=
  match Simple.run (Split data) with
  | Fatal e => ([], Fatal e)
  | Panic => ([], Panic)
  | Ok s =>
      let reuseA := sortInts (Simple.reuseA s) in
      let reuseD := sortInts (Simple.reuseD s) in
      let '(o, r) :=
        _ ← Printf Banner;
        _ ← Printf Fence;
        _ ← Printf (CacheAge
               (days (sub64 (Simple.lastTime s) (Simple.firstTime s))));
        _ ← printCache "action" (Simple.totalA s) (Simple.totalReusedA s) reuseA;
        printCache "data" (Simple.totalD s) (Simple.totalReusedD s) reuseD in
      ((o ++ [Fence])%list, r)
  end.

End SimpleReport.

Module ExtendedReport.

(** [printCache] of [src/unnamed/part_000], lines 137-161: the delta loop
    indexes by [len(reuseDelta)], the four lines after it by [len(reuse)]. *)
Definition printCache (name : string) (total totalReused : Z)
    (reuse reuseDelta : list Z) : printer unit :=
  _ ← Printf (CacheLine name total totalReused);
  if len reuse =? 0 then Printf NoReuse
  else
    _ ← Printf PercentilesHeader;
    _ ← print_percentiles reuse (len reuse);
    _ ← Printf DeltaPercentilesHeader;
    print_percentiles reuseDelta (len reuse).

(** [main], lines 55-134; it prints with [log.Printf]. *)
Definition main (data : string) : printer unit :=
  match Extended.run (Split data) with
  | Fatal e => ([], Fatal e)
  | Panic => ([], Panic)
  | Ok s =>
      let reuseA := sortInts (Extended.reuseA s) in
      let reuseD := sortInts (Extended.reuseD s) in
      let reuseDeltaA := sortInts (Extended.reuseDeltaA s) in
      let reuseDeltaD := sortInts (Extended.reuseDeltaD s) in
      let '(o, r) :=
        _ ← Printf Banner;
        _ ← Printf Fence;
        _ ← Printf (CacheAge
               (days (sub64 (Extended.lastTime s) (Extended.firstTime s))));
        _ ← printCache "action" (Extended.totalA s) (Extended.totalReusedA s)
              reuseA reuseDeltaA;
        printCache "data" (Extended.totalD s) (Extended.totalReusedD s)
          reuseD reuseDeltaD in
      ((o ++ [Fence])%list, r)
  end.

End ExtendedReport.

(** * Auxiliary definitions *)

(** ** Lines as events

    What the validation at lines 62-81 makes of a line, apart from any
    state: the run ends, or the line is blank, a put, a get or miss, or of
    another kind. *)

Inductive event : Type :=
  | Blank
  | Put (t : Z) (a d : string) (sz : Z)
  | Reuse (t : Z) (a : string)
  | Ignored (t : Z).

Definition parse_line (line : string) : fatal + event :=
  match Fields line with
  | [] => inr Blank
  | [_] | [_; _] => inl (InvalidLine line)
  | f0 :: f1 :: f2 :: rest =>
      if String.eqb f1 "put" then
        match rest with
        | [f3; f4] =>
            match ParseInt f0, ParseInt f4 with
            | None, _ => inl (InvalidTime line)
            | Some t, None => inl (InvalidSize line)
            | Some t, Some sz => inr (Put t f2 f3 sz)
            end
        | _ => inl (InvalidLine line)
        end
      else
        match ParseInt f0 with
        | None => inl (InvalidTime line)
        | Some t =>
            if String.eqb f1 "get" || String.eqb f1 "miss"
            then inr (Reuse t f2) else inr (Ignored t)
        end
  end.

(** The timestamp of a line that has fields. *)
Definition line_time (line : string) : option Z :=
  match Fields line with
  | [] => None
  | f0 :: _ => ParseInt f0
  end.

(** The timestamps of the lines that have fields, in file order. *)
Definition timestamps (lines : list string) : list Z := omap line_time lines.

(** A line that breaks one of the four validation rules. *)
Definition malformed (line : string) : bool :=
  let f := Fields line in
  negb (bool_decide (f = []))
  && (bool_decide (length f < 3)%nat
      || (bool_decide (f !! 1%nat = Some "put")
          && negb (bool_decide (length f = 5%nat)))
      || bool_decide (f !! 0%nat ≫= ParseInt = None)
      || (bool_decide (f !! 1%nat = Some "put")
          && bool_decide (f !! 4%nat ≫= ParseInt = None))).

(** The last byte tells the two roles of a registry key apart. *)
Fixpoint last_byte (s : string) : option ascii :=
  match s with
  | EmptyString => None
  | String c r =>
      match r with
      | EmptyString => Some c
      | _ => last_byte r
      end
  end.


Definition event_time (ev : event) : option Z :=
  match ev with
  | Blank => None
  | Put t _ _ _ | Reuse t _ | Ignored t => Some t
  end.

(** The events of a log, or the fatal error of its first invalid line. *)
Fixpoint parse_lines (lines : list string) : fatal + list event :=
  match lines with
  | [] => inr []
  | line :: rest =>
      match parse_line line with
      | inl e => inl e
      | inr ev =>
          match parse_lines rest with
          | inl e => inl e
          | inr evs => inr (ev :: evs)
          end
      end
  end.

Definition sumZ (l : list Z) : Z := foldr Z.add 0 l.

(** The first timestamp that is not zero, zero if there is none. *)
Definition first_nonzero (ts : list Z) : Z :=
  default 0 (head (filter (λ t, t ≠ 0) ts)).

(** The line a fatal message quotes. *)
Definition fatal_line (e : fatal) : string :=
  match e with
  | InvalidLine line | InvalidTime line | InvalidSize line => line
  end.

(** ** The parser of [src/main.go] on events *)

Module SimpleView.
Import Simple.

(** Lines 72-75. *)
Definition tick (s : state) (t : Z) : state :=
  set_times s (if firstTime s =? 0 then t else firstTime s) t.

(** What a put with a well-formed size does, lines 82-98. *)
Definition put_entries (s : state) (t : Z) (a d : string) (sz : Z) : state :=
  let s1 :=
    match cache s !! data_key d with
    | Some _ => s
    | None => add_totalD (insert_new s (data_key d) (Entry t sz false None)) sz
    end in
  let e1 := default (length (heap s)) (cache s !! data_key d) in
  match cache s1 !! action_key a with
  | Some _ => s1
  | None =>
      add_totalA (insert_new s1 (action_key a) (Entry t 154 false (Some e1))) 154
  end.

(** The step on an event, through [get] of the source, which reads
    field 2 only. *)
Definition exec (s : state) (ev : event) : result state :=
  match ev with
  | Blank => Ok s
  | Put t a d sz => Ok (put_entries (tick s t) t a d sz)
  | Reuse t a => get (tick s t) [""; ""; a] t
  | Ignored t => Ok (tick s t)
  end.

(** What a get or miss on a known action key does when the action entry
    [e] at [p] and its data entry [ed] at [d] are distinct entries. *)
Definition reuse_entries (s : state) (t : Z) (p : addr) (e : entry)
    (d : addr) (ed : entry) : state :=
  let s1 := if reused e then s
            else add_totalReusedA (store s p (mark_reused e)) (size e) in
  let s2 := if reused ed then s1
            else add_totalReusedD (store s1 d (mark_reused ed)) (size ed) in
  append_samples s2 (int_of_int64 (sub64 t (created e)))
                    (int_of_int64 (sub64 t (created ed))).

(** *** The shape of the registry

    Every key of the registry holds the address of an entry; an action
    key holds an entry whose [data] is the address of a data entry, a data
    key an entry without [data]. *)

Definition wf_mem (c : gmap string addr) (h : list entry) : Prop :=
  ∀ k p, c !! k = Some p →
    ∃ e, h !! p = Some e
      ∧ (∀ a, k = action_key a →
           ∃ d ed, data e = Some d ∧ h !! d = Some ed ∧ data ed = None)
      ∧ (∀ d, k = data_key d → data e = None).

Definition wf (s : state) : Prop := wf_mem (cache s) (heap s).

(** An entry only ever changes by being marked reused. *)
Definition entry_le (e e' : entry) : Prop :=
  created e' = created e ∧ size e' = size e ∧ data e' = data e
  ∧ (reused e = true → reused e' = true).

Definition heap_le (h h' : list entry) : Prop :=
  ∀ p e, h !! p = Some e → ∃ e', h' !! p = Some e' ∧ entry_le e e'.

Definition cache_le (c c' : gmap string addr) : Prop :=
  ∀ k p, c !! k = Some p → c' !! k = Some p.

(** The step as a total function: what [process_line] does on an event
    when the registry is well shaped. *)
Definition reuse_known (s : state) (t : Z) (p : addr) : state :=
  match heap s !! p with
  | Some e =>
      match data e with
      | Some d =>
          match heap s !! d with
          | Some ed => reuse_entries s t p e d ed
          | None => s
          end
      | None => s
      end
  | None => s
  end.

Definition next (s : state) (ev : event) : state :=
  match ev with
  | Blank => s
  | Put t a d sz => put_entries (tick s t) t a d sz
  | Reuse t a =>
      match cache s !! action_key a with
      | Some p => reuse_known (tick s t) t p
      | None => tick s t
      end
  | Ignored t => tick s t
  end.

(** The bytes credited as reused: the sizes of the entries of one role
    that are marked reused.  An action entry is one that has [data]. *)
Definition is_action (e : entry) : bool :=
  match data e with
  | Some _ => true
  | None => false
  end.

Definition credit (action : bool) (e : entry) : Z :=
  if reused e && Bool.eqb (is_action e) action then size e else 0.

Definition reused_bytes (action : bool) (h : list entry) : Z :=
  sumZ (credit action <$> h).

Definition accounted (s : state) : Prop :=
  totalReusedA s = wrap64 (reused_bytes true (heap s))
  ∧ totalReusedD s = wrap64 (reused_bytes false (heap s)).

(** What one line may do to the reuse accounting: a get or miss on a known
    action key credits each of the two entries once, when it is first
    marked, and appends one sample to each sequence; any other line
    leaves totals and samples alone. *)
Definition reuse_step (s : state) (line : string) (s' : state) : Prop :=
  match parse_line line with
  | inr (Reuse t a) =>
      match cache s !! action_key a with
      | Some p =>
          ∃ e d ed e' ed',
            heap s !! p = Some e ∧ data e = Some d ∧ heap s !! d = Some ed
            ∧ totalReusedA s'
              = (if reused e then totalReusedA s
                 else add64 (totalReusedA s) (size e))
            ∧ totalReusedD s'
              = (if reused ed then totalReusedD s
                 else add64 (totalReusedD s) (size ed))
            ∧ heap s' !! p = Some e' ∧ reused e' = true
            ∧ heap s' !! d = Some ed' ∧ reused ed' = true
            ∧ reuseA s' = reuseA s ++ [int_of_int64 (sub64 t (created e))]
            ∧ reuseD s' = reuseD s ++ [int_of_int64 (sub64 t (created ed))]
      | None =>
          totalReusedA s' = totalReusedA s ∧ totalReusedD s' = totalReusedD s
          ∧ reuseA s' = reuseA s ∧ reuseD s' = reuseD s
      end
  | _ =>
      totalReusedA s' = totalReusedA s ∧ totalReusedD s' = totalReusedD s
      ∧ reuseA s' = reuseA s ∧ reuseD s' = reuseD s
  end.

(** First write wins: a line leaves every key on its entry and every
    entry's [created], [size] and [data] as they are; a put adds to a
    total only for a key that is new, and a new action entry gets the
    entry of the put's data key. *)
Definition first_write_wins (s : state) (line : string) (s' : state) : Prop :=
  (∀ k p e, cache s !! k = Some p → heap s !! p = Some e →
     cache s' !! k = Some p
     ∧ ∃ e', heap s' !! p = Some e' ∧ created e' = created e
             ∧ size e' = size e ∧ data e' = data e)
  ∧ (∀ t a d sz, parse_line line = inr (Put t a d sz) →
       (is_Some (cache s !! action_key a) → totalA s' = totalA s)
       ∧ (is_Some (cache s !! data_key d) → totalD s' = totalD s)
       ∧ (cache s !! action_key a = None →
          ∃ p pd e, cache s' !! action_key a = Some p ∧ heap s !! p = None
                    ∧ heap s' !! p = Some e ∧ data e = Some pd
                    ∧ cache s' !! data_key d = Some pd)).

End SimpleView.

(** ** The parser of [src/unnamed/part_000] on events *)

Module ExtendedView.
Import Extended.

Definition tick (s : state) (t : Z) : state :=
  set_times s (if firstTime s =? 0 then t else firstTime s) t.

Definition put_entries (s : state) (t : Z) (a d : string) (sz : Z) : state :=
  let s1 :=
    match cache s !! data_key d with
    | Some _ => s
    | None => add_totalD (insert_new s (data_key d) (Entry t 0 sz false None)) sz
    end in
  let e1 := default (length (heap s)) (cache s !! data_key d) in
  match cache s1 !! action_key a with
  | Some _ => s1
  | None =>
      add_totalA
        (insert_new s1 (action_key a) (Entry t 0 154 false (Some e1))) 154
  end.

(** The step on an event, through [get] of the source. *)
Definition exec (s : state) (ev : event) : result state :=
  match ev with
  | Blank => Ok s
  | Put t a d sz => Ok (put_entries (tick s t) t a d sz)
  | Reuse t a => get (tick s t) [""; ""; a] t
  | Ignored t => Ok (tick s t)
  end.

(** [lastReused] as the delta samples read it: [created] at a first reuse. *)
Definition reuse_base (e : entry) : Z :=
  if lastReused e =? 0 then created e else lastReused e.

(** What a get or miss on a known action key does when the action entry
    [e] at [p] and its data entry [ed] at [d] are distinct entries. *)
Definition reuse_entries (s : state) (t : Z) (p : addr) (e : entry)
    (d : addr) (ed : entry) : state :=
  let s := if lastReused e =? 0 then add_totalReusedA s (size e) else s in
  let s := if lastReused ed =? 0 then add_totalReusedD s (size ed) else s in
  let s := append_samples s (int_of_int64 (sub64 t (created e)))
                            (int_of_int64 (sub64 t (created ed))) in
  let s := append_deltas s (int_of_int64 (sub64 t (reuse_base e)))
                           (int_of_int64 (sub64 t (reuse_base ed))) in
  store (store s p (set_lastReused e t)) d (set_lastReused ed t).

Definition reuse_known (s : state) (t : Z) (p : addr) : state :=
  match heap s !! p with
  | Some e =>
      match data e with
      | Some d =>
          match heap s !! d with
          | Some ed => reuse_entries s t p e d ed
          | None => s
          end
      | None => s
      end
  | None => s
  end.

Definition next (s : state) (ev : event) : state :=
  match ev with
  | Blank => s
  | Put t a d sz => put_entries (tick s t) t a d sz
  | Reuse t a =>
      match cache s !! action_key a with
      | Some p => reuse_known (tick s t) t p
      | None => tick s t
      end
  | Ignored t => tick s t
  end.

(** Here an entry counts as reused when its [lastReused] is not zero. *)
Definition was_reused (e : entry) : bool := negb (lastReused e =? 0).

Definition is_action (e : entry) : bool :=
  match data e with
  | Some _ => true
  | None => false
  end.

Definition credit (action : bool) (e : entry) : Z :=
  if was_reused e && Bool.eqb (is_action e) action then size e else 0.

Definition reused_bytes (action : bool) (h : list entry) : Z :=
  sumZ (credit action <$> h).

Definition accounted (s : state) : Prop :=
  totalReusedA s = wrap64 (reused_bytes true (heap s))
  ∧ totalReusedD s = wrap64 (reused_bytes false (heap s)).

Definition entry_le (e e' : entry) : Prop :=
  created e' = created e ∧ size e' = size e ∧ data e' = data e
  ∧ (was_reused e = true → was_reused e' = true).

Definition heap_le (h h' : list entry) : Prop :=
  ∀ p e, h !! p = Some e → ∃ e', h' !! p = Some e' ∧ entry_le e e'.

Definition reuse_step (s : state) (line : string) (s' : state) : Prop :=
  match parse_line line with
  | inr (Reuse t a) =>
      match cache s !! action_key a with
      | Some p =>
          ∃ e d ed e' ed',
            heap s !! p = Some e ∧ data e = Some d ∧ heap s !! d = Some ed
            ∧ totalReusedA s'
              = (if was_reused e then totalReusedA s
                 else add64 (totalReusedA s) (size e))
            ∧ totalReusedD s'
              = (if was_reused ed then totalReusedD s
                 else add64 (totalReusedD s) (size ed))
            ∧ heap s' !! p = Some e' ∧ was_reused e' = true
            ∧ heap s' !! d = Some ed' ∧ was_reused ed' = true
            ∧ reuseA s' = reuseA s ++ [int_of_int64 (sub64 t (created e))]
            ∧ reuseD s' = reuseD s ++ [int_of_int64 (sub64 t (created ed))]
      | None =>
          totalReusedA s' = totalReusedA s ∧ totalReusedD s' = totalReusedD s
          ∧ reuseA s' = reuseA s ∧ reuseD s' = reuseD s
      end
  | _ =>
      totalReusedA s' = totalReusedA s ∧ totalReusedD s' = totalReusedD s
      ∧ reuseA s' = reuseA s ∧ reuseD s' = reuseD s
  end.

Definition first_write_wins (s : state) (line : string) (s' : state) : Prop :=
  (∀ k p e, cache s !! k = Some p → heap s !! p = Some e →
     cache s' !! k = Some p
     ∧ ∃ e', heap s' !! p = Some e' ∧ created e' = created e
             ∧ size e' = size e ∧ data e' = data e)
  ∧ (∀ t a d sz, parse_line line = inr (Put t a d sz) →
       (is_Some (cache s !! action_key a) → totalA s' = totalA s)
       ∧ (is_Some (cache s !! data_key d) → totalD s' = totalD s)
       ∧ (cache s !! action_key a = None →
          ∃ p pd e, cache s' !! action_key a = Some p ∧ heap s !! p = None
                    ∧ heap s' !! p = Some e ∧ data e = Some pd
                    ∧ cache s' !! data_key d = Some pd)).

End ExtendedView.

(** ** The two parsers side by side *)

Module Sim.

(** An entry of [src/main.go] and the entry of the variant at the same
    address.  With [strict], the variant's [lastReused] is non-zero exactly
    when the entry is marked reused. *)
Definition entry_rel (strict : bool) (e : Simple.entry) (ex : Extended.entry)
    : Prop :=
  Simple.created e = Extended.created ex
  ∧ Simple.size e = Extended.size ex
  ∧ Simple.data e = Extended.data ex
  ∧ (strict = true →
     Simple.reused e = negb (Extended.lastReused ex =? 0)).

Definition state_rel (strict : bool) (s : Simple.state) (sx : Extended.state)
    : Prop :=
  Simple.totalA s = Extended.totalA sx
  ∧ Simple.totalD s = Extended.totalD sx
  ∧ Simple.reuseA s = Extended.reuseA sx
  ∧ Simple.reuseD s = Extended.reuseD sx
  ∧ Simple.firstTime s = Extended.firstTime sx
  ∧ Simple.lastTime s = Extended.lastTime sx
  ∧ Simple.cache s = Extended.cache sx
  ∧ Forall2 (entry_rel strict) (Simple.heap s) (Extended.heap sx)
  ∧ length (Extended.reuseDeltaA sx) = length (Extended.reuseA sx)
  ∧ length (Extended.reuseDeltaD sx) = length (Extended.reuseD sx)
  ∧ (strict = true →
     Simple.totalReusedA s = Extended.totalReusedA sx
     ∧ Simple.totalReusedD s = Extended.totalReusedD sx).

(** No get or miss carries the timestamp zero. *)
Definition reuse_time_nonzero (ev : event) : Prop :=
  match ev with
  | Reuse t _ => t ≠ 0
  | _ => True
  end.

Definition reuse_time_ok (line : string) : bool :=
  match parse_line line with
  | inr (Reuse t _) => negb (t =? 0)
  | _ => true
  end.

Definition reuse_times_nonzero (lines : list string) : Prop :=
  forallb reuse_time_ok lines = true.

End Sim.

(** ** What the report is to contain *)

(** The percentiles reported, each with the numerator and denominator its
    index is computed with. *)
Definition percentiles : list (Q * Z * Z) :=
  [(10%Q, 10, 100); (20%Q, 20, 100); (30%Q, 30, 100); (40%Q, 40, 100);
   (50%Q, 50, 100); (60%Q, 60, 100); (70%Q, 70, 100); (80%Q, 80, 100);
   (90%Q, 90, 100); (95%Q, 95, 100); (99%Q, 99, 100);
   ((999 # 10)%Q, 999, 1000)].

(** [floor (len * num / den)]. *)
Definition percentile_index (n : nat) (num den : Z) : nat :=
  Z.to_nat (Z.of_nat n * num / den).

(** The value at each percentile of [sample], indexed by the length [n],
    then the last value, all in days. *)
Definition percentile_values (sample : list Z) (n : nat) : list Q :=
  ((λ '(_, num, den), days (sample !!! percentile_index n num den))
     <$> percentiles)
  ++ [days (sample !!! (n - 1)%nat)].

Definition percentile_items (sample : list Z) (n : nat) : list item :=
  ((λ '(p, num, den), Percentile p (days (sample !!! percentile_index n num den)))
     <$> percentiles)
  ++ [Max (days (sample !!! (n - 1)%nat))].

(** A length whose percentile indices are computed without overflow of
    [int].  Every slice has such a length: the runtime allocates at most
    2^48 bytes, and a [[]int] of [n] elements takes [8 * n]. *)
Definition indexable (n : nat) : Prop := Z.of_nat n * 999 <= maxInt64.

(** ** Sample logs *)

Definition nl : string := String LF EmptyString.

(** The scenario of the specification: a put and two gets. *)
Definition scenario_lines : list string :=
  ["1000 put A D 500"; "1010 get A"; "1020 get A"].

Definition scenario : string :=
  "1000 put A D 500" +:+ nl +:+ "1010 get A" +:+ nl +:+ "1020 get A" +:+ nl.


(** Two puts that name the same action key. *)
Definition put_twice : list string := ["1000 put A D 500"; "1005 put A E 7"].

Definition final {A : Type} (d : A) (r : result A) : A :=
  match r with
  | Ok a => a
  | _ => d
  end.

Definition scenario_state : Simple.state :=
  Eval vm_compute in final Simple.init (Simple.run scenario_lines).

Definition scenario_state_x : Extended.state :=
  Eval vm_compute in final Extended.init (Extended.run scenario_lines).

Definition scenario_before : Simple.state :=
  Eval vm_compute in final Simple.init (Simple.run (take 2 scenario_lines)).

Definition scenario_before_x : Extended.state :=
  Eval vm_compute in final Extended.init (Extended.run (take 2 scenario_lines)).

Definition put_once_state : Simple.state :=
  Eval vm_compute in final Simple.init (Simple.run (take 1 put_twice)).

Definition put_once_state_x : Extended.state :=
  Eval vm_compute in final Extended.init (Extended.run (take 1 put_twice)).

Definition put_twice_state : Simple.state :=
  Eval vm_compute in final Simple.init (Simple.run put_twice).

Definition put_twice_state_x : Extended.state :=
  Eval vm_compute in final Extended.init (Extended.run put_twice).

(** ** Further notions used by the properties of the scan and the report *)

(** The registry keys a line adds: those of a put, none otherwise. *)
Definition line_keys (line : string) : gset string :=
  match parse_line line with
  | inr (Put _ a d _) => {[action_key a; data_key d]}
  | _ => ∅
  end.

(** The action keys, and the data keys, that the puts of a log name. *)
Definition line_action (line : string) : gset string :=
  match parse_line line with
  | inr (Put _ a _ _) => {[a]}
  | _ => ∅
  end.

Definition line_data (line : string) : gset string :=
  match parse_line line with
  | inr (Put _ _ d _) => {[d]}
  | _ => ∅
  end.

Definition named_actions (lines : list string) : gset string :=
  ⋃ (line_action <$> lines).

Definition named_datas (lines : list string) : gset string :=
  ⋃ (line_data <$> lines).

(** A log in time order, from time zero on. *)
Definition chronological (lines : list string) : Prop :=
  StronglySorted Z.le (0 :: timestamps lines).

(** What [printCache] of [src/main.go] is to print for one cache. *)
Definition cache_report (name : string) (total totalReused : Z)
    (reuse : list Z) : list item :=
  CacheLine name total totalReused ::
  match reuse with
  | [] => [NoReuse]
  | _ => PercentilesHeader
         :: percentile_items (sortInts reuse) (length reuse)
  end.

(** What [printCache] of the variant is to print for one cache. *)
Definition cache_report_x (name : string) (total totalReused : Z)
    (reuse delta : list Z) : list item :=
  CacheLine name total totalReused ::
  match reuse with
  | [] => [NoReuse]
  | _ => PercentilesHeader
         :: percentile_items (sortInts reuse) (length reuse)
         ++ DeltaPercentilesHeader
         :: percentile_items (sortInts delta) (length reuse)
  end.

(** A result that is not a fatal error. *)
Definition no_fatal {A : Type} (r : result A) : Prop := ∀ e, r ≠ Fatal e.

Definition event_keys (ev : event) : gset string :=
  match ev with
  | Put _ a d _ => {[action_key a; data_key d]}
  | _ => ∅
  end.

(** Keys and entries in one-to-one correspondence: every key holds the
    address of an entry allocated, no two keys hold the same address, and
    every entry allocated is held by a key. *)
Definition registry_bijection (c : gmap string addr) (n : nat) : Prop :=
  (∀ k p, c !! k = Some p → (p < n)%nat)
  ∧ (∀ k1 k2 p, c !! k1 = Some p → c !! k2 = Some p → k1 = k2)
  ∧ (∀ p, (p < n)%nat → ∃ k, c !! k = Some p).

(** What a log in time order keeps true of the state of [src/main.go]:
    every entry was created between time zero and the last time seen, a
    data entry not after the action entries that point to it, and the
    samples are as the last three parts say. *)
Definition chrono_inv (s : Simple.state) : Prop :=
  0 <= Simple.lastTime s <= maxInt64
  ∧ Forall (λ e, 0 <= Simple.created e <= Simple.lastTime s) (Simple.heap s)
  ∧ (∀ p e d, Simple.heap s !! p = Some e → Simple.data e = Some d →
       ∃ ed, Simple.heap s !! d = Some ed
             ∧ Simple.created ed <= Simple.created e)
  ∧ Forall (λ x, 0 <= x) (Simple.reuseA s)
  ∧ Forall2 Z.le (Simple.reuseA s) (Simple.reuseD s)
  ∧ Forall (λ x, x <= Simple.lastTime s) (Simple.reuseD s).

(** The same for the variant and its delta samples: an entry's
    [lastReused] is zero or lies between its creation and the last time
    seen. *)
Definition chrono_inv_x (s : Extended.state) : Prop :=
  0 <= Extended.lastTime s <= maxInt64
  ∧ Forall (λ e, 0 <= Extended.created e <= Extended.lastTime s
               ∧ (Extended.lastReused e = 0
                  ∨ Extended.created e <= Extended.lastReused e
                                       <= Extended.lastTime s))
      (Extended.heap s)
  ∧ Forall (λ x, 0 <= x) (Extended.reuseDeltaA s)
  ∧ Forall (λ x, 0 <= x) (Extended.reuseDeltaD s)
  ∧ Forall2 Z.le (Extended.reuseDeltaA s) (Extended.reuseA s)
  ∧ Forall2 Z.le (Extended.reuseDeltaD s) (Extended.reuseD s).

(** Two actions that share one data entry, the second written later. *)
Definition shared_data_lines : list string :=
  ["100 put A D 5"; "150 put B D 7"; "200 get B"; "260 miss B"].

Definition shared_data_state : Simple.state :=
  Eval vm_compute in final Simple.init (Simple.run shared_data_lines).

Definition shared_data_state_x : Extended.state :=
  Eval vm_compute in final Extended.init (Extended.run shared_data_lines).

(** The data key and the size of a put. *)
Definition event_put (ev : event) : option (string * Z) :=
  match ev with
  | Put _ _ d sz => Some (d, sz)
  | _ => None
  end.

Definition line_put (line : string) : option (string * Z) :=
  match parse_line line with
  | inr ev => event_put ev
  | inl _ => None
  end.

(** The puts of a log, in file order. *)
Definition puts (lines : list string) : list (string * Z) :=
  omap line_put lines.

(** The sizes that count: for each data key, the size of the first put
    that names it, the keys in [seen] having been put before. *)
Fixpoint first_sizes (seen : gset string) (ps : list (string * Z)) : list Z :=
  match ps with
  | [] => []
  | (d, sz) :: ps =>
      if decide (d ∈ seen) then first_sizes seen ps
      else sz :: first_sizes ({[d]} ∪ seen) ps
  end.

(** The bytes a heap holds in action entries, or in data entries. *)
Definition stored (action : bool) (e : Simple.entry) : Z :=
  if Bool.eqb (SimpleView.is_action e) action then Simple.size e else 0.

Definition stored_bytes (action : bool) (h : list Simple.entry) : Z :=
  sumZ (stored action <$> h).

(** The totals are those of the entries allocated, none of negative size,
    within the bounds [n] and [m]. *)
Definition totals_inv (s : Simple.state) (n m : Z) : Prop :=
  Simple.totalA s = wrap64 (stored_bytes true (Simple.heap s))
  ∧ Simple.totalD s = wrap64 (stored_bytes false (Simple.heap s))
  ∧ Forall (λ e, 0 <= Simple.size e) (Simple.heap s)
  ∧ stored_bytes true (Simple.heap s) <= n
  ∧ stored_bytes false (Simple.heap s) <= m.

(** Two report lines for the same percentile, or two maxima, the first
    with the smaller value. *)
Definition no_later (i1 i2 : item) : Prop :=
  match i1, i2 with
  | Percentile p1 v1, Percentile p2 v2 => p1 = p2 ∧ (v1 <= v2)%Q
  | Max v1, Max v2 => (v1 <= v2)%Q
  | _, _ => False
  end.

(** How many samples are at most [v]. *)
Definition count_le (v : Z) (l : list Z) : nat :=
  length (filter (λ x, x <= v) l).

(** The event of a line that passes validation. *)
Definition line_event (line : string) : event :=
  match parse_line line with
  | inr ev => ev
  | inl _ => Blank
  end.

(** The gets and misses that find their action key: those that name an
    action named by an earlier put, the actions in [seen] having been put
    before. *)
Fixpoint hits (seen : gset string) (evs : list event) : nat :=
  match evs with
  | [] => 0
  | Put _ a _ _ :: evs => hits ({[a]} ∪ seen) evs
  | Reuse _ a :: evs => (if decide (a ∈ seen) then 1 else 0) + hits seen evs
  | _ :: evs => hits seen evs
  end.

Definition log_hits (lines : list string) : nat :=
  hits ∅ (line_event <$> lines).

(** A get before the put of its action, two that find it, and a get of an
    action that is never put. *)
Definition early_get_lines : list string :=
  ["90 get A"; "100 put A D 5"; "200 get A"; "260 miss A"; "300 get B"].

Definition early_get_state : Simple.state :=
  Eval vm_compute in final Simple.init (Simple.run early_get_lines).

Definition early_get_state_x : Extended.state :=
  Eval vm_compute in final Extended.init (Extended.run early_get_lines).
(** * Properties *)

(** ** Generic facts *)

Lemma scan_app {S : Type} (step : S → string → result S) s l1 l2 :
  scan step s (l1 ++ l2) = s' ← scan step s l1; scan step s' l2.
Proof.
  revert s. induction l1 as [|l l1 IH]; intros s; simpl; [done|].
  destruct (step s l); simpl; auto.
Qed.

Lemma scan_snoc {S : Type} (step : S → string → result S) s l line :
  scan step s (l ++ [line]) = s' ← scan step s l; step s' line.
Proof.
  rewrite scan_app. destruct (scan step s l); simpl; [|done..].
  by destruct (step a line).
Qed.

Lemma wrap64_range z : in_int64 (wrap64 z).
Proof.
  unfold in_int64, wrap64, minInt64, maxInt64.
  pose proof (Z.mod_pos_bound (z + 2 ^ 63) (2 ^ 64)). lia.
Qed.

Lemma wrap64_id z : in_int64 z → wrap64 z = z.
Proof.
  unfold in_int64, wrap64, minInt64, maxInt64. intros H.
  rewrite Z.mod_small; lia.
Qed.

Lemma wrap64_add_l a b : wrap64 (wrap64 a + b) = wrap64 (a + b).
Proof.
  unfold wrap64. f_equal.
  replace (a + b + 2 ^ 63) with ((a + 2 ^ 63) + b) by lia.
  replace ((a + 2 ^ 63) mod 2 ^ 64 - 2 ^ 63 + b + 2 ^ 63)
    with ((a + 2 ^ 63) mod 2 ^ 64 + b) by lia.
  by rewrite Zplus_mod_idemp_l.
Qed.

Lemma eqb_string_eq (a b : string) : String.eqb a b = bool_decide (a = b).
Proof.
  destruct (String.eqb_spec a b).
  - by rewrite bool_decide_eq_true_2.
  - by rewrite bool_decide_eq_false_2.
Qed.

Lemma last_byte_app2 k c1 c2 :
  last_byte (k +:+ String c1 (String c2 EmptyString)) = Some c2.
Proof.
  induction k as [|c k IH]; simpl; [done|].
  rewrite IH. by destruct k.
Qed.

Lemma action_key_ne_data_key a d : action_key a ≠ data_key d.
Proof.
  unfold action_key, data_key. intros H.
  apply (f_equal last_byte) in H. rewrite !last_byte_app2 in H. done.
Qed.

Lemma index_Some {A : Type} (l : list A) i x : l !! i = Some x → index l i = Ok x.
Proof. unfold index. by intros ->. Qed.

Ltac solve_lookup :=
  repeat (rewrite list_lookup_insert_ne by done);
  first [ eassumption
        | apply list_lookup_insert_eq; rewrite ?length_insert; lia ].

Ltac load :=
  match goal with
  | |- context [index ?l ?i ≫= _] =>
      erewrite (index_Some l i) by solve_lookup; simpl
  end.


(** *** Lines and events *)

Lemma parse_line_fatal_line line e : parse_line line = inl e → fatal_line e = line.
Proof.
  unfold parse_line. intros H.
  repeat (case_match; simplify_eq/=); done.
Qed.

Lemma parse_line_time line ev :
  parse_line line = inr ev → line_time line = event_time ev.
Proof.
  unfold parse_line, line_time. intros H.
  repeat (case_match; simplify_eq/=); done.
Qed.

Lemma malformed_true line : malformed line = true → ∃ e, parse_line line = inl e.
Proof.
  unfold malformed, parse_line.
  destruct (Fields line) as [|f0 [|f1 [|f2 rest]]]; simpl; [done|eauto..|].
  rewrite eqb_string_eq.
  destruct (bool_decide (f1 = "put")) eqn:Hput.
  - apply bool_decide_eq_true in Hput as ->.
    destruct rest as [|f3 [|f4 [|f5 rest]]]; simpl; eauto.
    destruct (ParseInt f0), (ParseInt f4); simpl; try done; eauto.
  - apply bool_decide_eq_false in Hput.
    rewrite (bool_decide_eq_false_2 (Some f1 = Some "put")) by congruence.
    destruct (ParseInt f0); simpl; try done; eauto.
Qed.

Lemma malformed_false line : malformed line = false → ∃ ev, parse_line line = inr ev.
Proof.
  unfold malformed, parse_line.
  destruct (Fields line) as [|f0 [|f1 [|f2 rest]]]; simpl; [eauto|done..|].
  rewrite eqb_string_eq.
  destruct (bool_decide (f1 = "put")) eqn:Hput.
  - apply bool_decide_eq_true in Hput as ->.
    destruct rest as [|f3 [|f4 [|f5 rest]]]; simpl; try done.
    destruct (ParseInt f0), (ParseInt f4); simpl; try done; eauto.
  - destruct (ParseInt f0); simpl; rewrite ?orb_true_r; try done.
    intros _. case_match; eauto.
Qed.

Lemma parse_lines_app l1 l2 :
  parse_lines (l1 ++ l2) =
    match parse_lines l1 with
    | inl e => inl e
    | inr evs1 =>
        match parse_lines l2 with
        | inl e => inl e
        | inr evs2 => inr (evs1 ++ evs2)%list
        end
    end.
Proof.
  induction l1 as [|line l1 IH]; simpl.
  - by destruct (parse_lines l2).
  - destruct (parse_line line); [done|]. rewrite IH.
    destruct (parse_lines l1); [done|]. by destruct (parse_lines l2).
Qed.

Lemma parse_lines_wellformed lines :
  Forall (λ line, malformed line = false) lines →
  ∃ evs, parse_lines lines = inr evs.
Proof.
  induction 1 as [|line lines Hline _ [evs IH]]; simpl; [eauto|].
  destruct (malformed_false line Hline) as [ev ->]. rewrite IH. eauto.
Qed.

Lemma parse_lines_timestamps lines evs :
  parse_lines lines = inr evs → timestamps lines = omap event_time evs.
Proof.
  revert evs. induction lines as [|line lines IH]; intros evs; simpl.
  - by intros [= <-].
  - destruct (parse_line line) as [|ev] eqn:Hev; [done|].
    destruct (parse_lines lines) as [|evs']; [done|]. intros [= <-].
    unfold timestamps in *. simpl.
    rewrite (parse_line_time _ _ Hev), (IH evs') by done. done.
Qed.

(** *** Sums and timestamps *)

Lemma sumZ_app l1 l2 : sumZ (l1 ++ l2) = sumZ l1 + sumZ l2.
Proof. unfold sumZ. induction l1 as [|x l1 IH]; simpl; lia. Qed.

Lemma sumZ_fmap_snoc {A : Type} (f : A → Z) (l : list A) x :
  sumZ (f <$> (l ++ [x])%list) = sumZ (f <$> l) + f x.
Proof. rewrite fmap_app, sumZ_app. unfold sumZ. simpl. lia. Qed.

Lemma sumZ_insert {A : Type} (f : A → Z) (h : list A) p e e' :
  h !! p = Some e → sumZ (f <$> <[p := e']> h) = sumZ (f <$> h) - f e + f e'.
Proof.
  intros Hp. assert (Hlt : (p < length h)%nat) by by eapply lookup_lt_Some.
  rewrite insert_take_drop by done.
  rewrite <- (take_drop_middle h p e Hp) at 3.
  rewrite !fmap_app, !fmap_cons, !sumZ_app. simpl. lia.
Qed.

Lemma first_nonzero_cons t ts :
  first_nonzero (t :: ts) = if t =? 0 then first_nonzero ts else t.
Proof.
  unfold first_nonzero. rewrite filter_cons.
  destruct (Z.eqb_spec t 0) as [->|Hne].
  - by rewrite decide_False by (intros H; by apply H).
  - by rewrite decide_True.
Qed.

Lemma parse_lines_elem lines evs l ev :
  parse_lines lines = inr evs → l ∈ lines → parse_line l = inr ev → ev ∈ evs.
Proof.
  revert evs. induction lines as [|line lines IH]; intros evs Hevs Hl Hev.
  - by apply not_elem_of_nil in Hl.
  - simpl in Hevs. destruct (parse_line line) as [|ev'] eqn:Hline; [done|].
    destruct (parse_lines lines) as [|evs']; [done|]. injection Hevs as <-.
    apply elem_of_cons in Hl as [->|Hl].
    + assert (ev' = ev) as -> by congruence. by left.
    + right. by apply IH.
Qed.

(** ** The parser of [src/main.go] *)

Module SimpleFacts.
Import Simple SimpleView.

Lemma put_put_entries s line f0 f1 a d f4 t sz :
  ParseInt f4 = Some sz →
  put s line [f0; f1; a; d; f4] t = Ok (put_entries s t a d sz).
Proof.
  intros Hsz. unfold put, put_entries. simpl. rewrite Hsz. simpl.
  destruct (cache s !! data_key d) as [p|]; simpl.
  - by destruct (cache s !! action_key a).
  - by destruct (<[data_key d := length (heap s)]> (cache s) !! action_key a).
Qed.

Lemma process_line_exec s line :
  process_line s line =
    match parse_line line with
    | inl e => Fatal e
    | inr ev => exec s ev
    end.
Proof.
  unfold process_line, parse_line.
  destruct (Fields line) as [|f0 [|f1 [|f2 rest]]]; try done.
  cbn [length index lookup list_lookup mbind result_bind].
  rewrite (bool_decide_eq_false_2 (_ = 0%nat)) by done.
  rewrite (bool_decide_eq_false_2 (_ < 3)%nat) by (simpl; lia).
  simpl. destruct (String.eqb f1 "put") eqn:Hput; simpl.
  - destruct rest as [|f3 [|f4 [|f5 rest]]]; simpl; try done.
    destruct (ParseInt f0) as [t|]; [|done].
    destruct (ParseInt f4) as [sz|] eqn:Hsz.
    + by erewrite put_put_entries.
    + unfold put. simpl. by rewrite Hsz.
  - destruct (ParseInt f0) as [t|]; [|done].
    by destruct (String.eqb f1 "get" || String.eqb f1 "miss").
Qed.

Lemma get_unknown s f0 f1 a rest t :
  cache s !! action_key a = None → get s (f0 :: f1 :: a :: rest) t = Ok s.
Proof. unfold get. simpl. by intros ->. Qed.

Lemma get_known s f0 f1 a rest t p e d ed :
  cache s !! action_key a = Some p →
  heap s !! p = Some e → data e = Some d → heap s !! d = Some ed → d ≠ p →
  get s (f0 :: f1 :: a :: rest) t = Ok (reuse_entries s t p e d ed).
Proof.
  intros Hc Hp Hd Hed Hne. unfold get, reuse_entries. simpl. rewrite Hc.
  assert (Hlp : (p < length (heap s))%nat) by by eapply lookup_lt_Some.
  assert (Hld : (d < length (heap s))%nat) by by eapply lookup_lt_Some.
  load. destruct (reused e) eqn:Hre; simpl;
    load; rewrite Hd; simpl; load;
    destruct (reused ed) eqn:Hred; simpl;
    load; rewrite Hd; simpl; by load.
Qed.

Lemma entry_le_refl e : entry_le e e.
Proof. by repeat split. Qed.

Lemma heap_le_refl h : heap_le h h.
Proof. intros p e Hp. exists e. split; [done|apply entry_le_refl]. Qed.

Lemma heap_le_trans h1 h2 h3 : heap_le h1 h2 → heap_le h2 h3 → heap_le h1 h3.
Proof.
  intros H12 H23 p e Hp.
  destruct (H12 p e Hp) as (e2 & Hp2 & ? & ? & ? & ?).
  destruct (H23 p e2 Hp2) as (e3 & Hp3 & ? & ? & ? & ?).
  exists e3. split; [done|]. repeat split; try congruence. auto.
Qed.

Lemma heap_le_app h e : heap_le h (h ++ [e]).
Proof.
  intros p e0 Hp. exists e0. split; [|apply entry_le_refl].
  by apply lookup_app_l_Some.
Qed.

Lemma heap_le_mark h p e :
  h !! p = Some e → heap_le h (<[p := mark_reused e]> h).
Proof.
  intros Hp q e0 Hq. destruct (decide (q = p)) as [->|Hne].
  - exists (mark_reused e). split.
    + apply list_lookup_insert_eq. by eapply lookup_lt_Some.
    + assert (e0 = e) as -> by congruence. by repeat split.
  - exists e0. split; [by rewrite list_lookup_insert_ne|apply entry_le_refl].
Qed.

Lemma wf_mem_heap_le c h h' : wf_mem c h → heap_le h h' → wf_mem c h'.
Proof.
  intros Hwf Hle k p Hk.
  destruct (Hwf k p Hk) as (e & Hp & Ha & Hd).
  destruct (Hle p e Hp) as (e' & Hp' & _ & _ & Hdata & _).
  exists e'. split; [done|]. split.
  - intros a ->. destruct (Ha a eq_refl) as (d & ed & Hed & Hdl & Hnone).
    destruct (Hle d ed Hdl) as (ed' & Hdl' & _ & _ & Hdata' & _).
    exists d, ed'. repeat split; [congruence|done|congruence].
  - intros d ->. rewrite Hdata. by apply (Hd d).
Qed.

(** A new data entry under a fresh data key. *)
Lemma wf_mem_new_data c h d t sz :
  wf_mem c h →
  wf_mem (<[data_key d := length h]> c) (h ++ [Entry t sz false None]).
Proof.
  intros Hwf k p Hk. destruct (decide (k = data_key d)) as [->|Hne].
  - rewrite lookup_insert_eq in Hk. injection Hk as <-.
    exists (Entry t sz false None). split; [by apply list_lookup_middle|].
    split; [|done]. intros a Ha. symmetry in Ha.
    by apply action_key_ne_data_key in Ha.
  - rewrite lookup_insert_ne in Hk by done.
    by apply (wf_mem_heap_le c h _ Hwf (heap_le_app h _)).
Qed.

(** A new action entry under a fresh action key, pointing to a data entry
    of the registry. *)
Lemma wf_mem_new_action c h a d p t :
  wf_mem c h → c !! data_key d = Some p →
  wf_mem (<[action_key a := length h]> c) (h ++ [Entry t 154 false (Some p)]).
Proof.
  intros Hwf Hd k q Hk. destruct (decide (k = action_key a)) as [->|Hne].
  - rewrite lookup_insert_eq in Hk. injection Hk as <-.
    exists (Entry t 154 false (Some p)). split; [by apply list_lookup_middle|].
    split.
    + intros _ _. destruct (Hwf _ _ Hd) as (ed & Hp & _ & Hnone).
      exists p, ed. split; [done|]. split; [by apply lookup_app_l_Some|].
      by apply (Hnone d).
    + intros d' Ha. by apply action_key_ne_data_key in Ha.
  - rewrite lookup_insert_ne in Hk by done.
    by apply (wf_mem_heap_le c h _ Hwf (heap_le_app h _)).
Qed.

Lemma put_entries_wf s t a d sz : wf s → wf (put_entries s t a d sz).
Proof.
  unfold wf, put_entries. intros Hwf.
  destruct (cache s !! data_key d) as [p|] eqn:Hd; simpl.
  - destruct (cache s !! action_key a) eqn:Ha; simpl; [done|].
    by eapply wf_mem_new_action.
  - pose proof (wf_mem_new_data _ _ d t sz Hwf) as Hwf1.
    destruct (<[data_key d := length (heap s)]> (cache s) !! action_key a)
      eqn:Ha; simpl; [done|].
    eapply wf_mem_new_action; [done|]. apply lookup_insert_eq.
Qed.

Lemma wf_known s a p :
  wf s → cache s !! action_key a = Some p →
  ∃ e d ed, heap s !! p = Some e ∧ data e = Some d ∧ heap s !! d = Some ed
            ∧ data ed = None ∧ d ≠ p.
Proof.
  intros Hwf Hk. destruct (Hwf _ _ Hk) as (e & Hp & Ha & _).
  destruct (Ha a eq_refl) as (d & ed & Hd & Hed & Hnone).
  exists e, d, ed. repeat split; try done. intros ->. congruence.
Qed.

Lemma reuse_entries_heap_le s t p e d ed :
  heap s !! p = Some e → heap s !! d = Some ed → d ≠ p →
  heap_le (heap s) (heap (reuse_entries s t p e d ed)).
Proof.
  intros Hp Hd Hne. unfold reuse_entries.
  destruct (reused e), (reused ed); simpl.
  - apply heap_le_refl.
  - by apply heap_le_mark.
  - by apply heap_le_mark.
  - eapply heap_le_trans; [apply (heap_le_mark _ p e Hp)|].
    apply heap_le_mark. by rewrite list_lookup_insert_ne.
Qed.

Lemma reuse_entries_cache s t p e d ed :
  cache (reuse_entries s t p e d ed) = cache s.
Proof. unfold reuse_entries. by destruct (reused e), (reused ed). Qed.

Lemma put_entries_heap s t a d sz :
  ∃ new, heap (put_entries s t a d sz) = (heap s ++ new)%list.
Proof.
  unfold put_entries.
  destruct (cache s !! data_key d) as [p|]; simpl.
  - destruct (cache s !! action_key a); simpl; [exists []|eexists; done].
    by rewrite app_nil_r.
  - destruct (<[data_key d := length (heap s)]> (cache s) !! action_key a);
      simpl; eexists; [done|]. by rewrite <- app_assoc.
Qed.

Lemma put_entries_cache_le s t a d sz :
  cache_le (cache s) (cache (put_entries s t a d sz)).
Proof.
  unfold put_entries. intros k p Hk.
  destruct (cache s !! data_key d) as [q|] eqn:Hd; simpl.
  - destruct (cache s !! action_key a) eqn:Ha; simpl; [done|].
    rewrite lookup_insert_ne; [done|congruence].
  - assert (Hk1 : <[data_key d := length (heap s)]> (cache s) !! k = Some p).
    { rewrite lookup_insert_ne; [done|congruence]. }
    destruct (<[data_key d := length (heap s)]> (cache s) !! action_key a)
      eqn:Ha; simpl; [done|].
    rewrite lookup_insert_ne; [done|congruence].
Qed.

(** One line from a well-shaped registry: no panic, the registry stays
    well shaped, keys keep their entries and entries only get marked. *)
Lemma exec_spec s ev :
  wf s →
  ∃ s', exec s ev = Ok s' ∧ wf s'
        ∧ cache_le (cache s) (cache s') ∧ heap_le (heap s) (heap s').
Proof.
  intros Hwf. destruct ev as [|t a d sz|t a|t]; simpl.
  - exists s. repeat split; [done|by intros ??|apply heap_le_refl].
  - eexists. split; [done|]. split; [by apply put_entries_wf|].
    split; [apply (put_entries_cache_le (tick s t))|].
    destruct (put_entries_heap (tick s t) t a d sz) as [new ->].
    intros p e Hp. exists e. split; [|apply entry_le_refl].
    by apply lookup_app_l_Some.
  - destruct (cache s !! action_key a) as [p|] eqn:Hk.
    + destruct (wf_known s a p Hwf Hk) as (e & d & ed & Hp & Hd & Hed & _ & Hne).
      erewrite (get_known (tick s t)); [|done..].
      eexists. split; [done|].
      pose proof (reuse_entries_heap_le (tick s t) t p e d ed Hp Hed Hne) as Hle.
      split; [|split; [rewrite reuse_entries_cache; by intros ??|done]].
      unfold wf. rewrite reuse_entries_cache.
      by eapply wf_mem_heap_le.
    + rewrite get_unknown by done. exists (tick s t).
      repeat split; [done|by intros ??|apply heap_le_refl].
  - exists (tick s t). repeat split; [done|by intros ??|apply heap_le_refl].
Qed.

Lemma init_wf : wf init.
Proof. intros k p Hk. simpl in Hk. by rewrite lookup_empty in Hk. Qed.

(** A run ends with a fatal error or with a well-shaped registry. *)
Lemma run_wf lines :
  match run lines with
  | Ok s => wf s
  | Fatal _ => True
  | Panic => False
  end.
Proof.
  unfold run. induction lines as [|line lines IH] using rev_ind; simpl.
  - apply init_wf.
  - rewrite scan_snoc. destruct (scan process_line init lines) as [s| |]; simpl;
      [|done..].
    rewrite process_line_exec. destruct (parse_line line) as [e|ev]; [done|].
    by destruct (exec_spec s ev IH) as (s' & -> & Hwf' & _).
Qed.

Lemma exec_next s ev : wf s → exec s ev = Ok (next s ev).
Proof.
  intros Hwf. destruct ev as [|t a d sz|t a|t]; simpl; try done.
  destruct (cache s !! action_key a) as [p|] eqn:Hk.
  - destruct (wf_known s a p Hwf Hk) as (e & d & ed & Hp & Hd & Hed & _ & Hne).
    erewrite (get_known (tick s t)); [|done..].
    unfold reuse_known. simpl. by rewrite Hp, Hd, Hed.
  - by rewrite get_unknown.
Qed.

Lemma next_wf s ev : wf s → wf (next s ev).
Proof.
  intros Hwf. destruct (exec_spec s ev Hwf) as (s' & Hs' & Hwf' & _).
  rewrite exec_next in Hs' by done. by injection Hs' as <-.
Qed.

Lemma foldl_next_wf evs s : wf s → wf (foldl next s evs).
Proof.
  revert s. induction evs as [|ev evs IH]; intros s Hwf; simpl; [done|].
  by apply IH, next_wf.
Qed.

(** The scan from a well-shaped registry: the fatal error of the first
    invalid line, or the events applied in order.  It never panics. *)
Lemma scan_next lines s :
  wf s →
  scan process_line s lines =
    match parse_lines lines with
    | inl e => Fatal e
    | inr evs => Ok (foldl next s evs)
    end.
Proof.
  revert s. induction lines as [|line lines IH]; intros s Hwf; simpl; [done|].
  rewrite process_line_exec. destruct (parse_line line) as [e|ev]; [done|].
  rewrite exec_next by done. simpl. rewrite IH by by apply next_wf.
  by destruct (parse_lines lines).
Qed.

Lemma run_next lines :
  run lines =
    match parse_lines lines with
    | inl e => Fatal e
    | inr evs => Ok (foldl next init evs)
    end.
Proof. apply scan_next, init_wf. Qed.

Lemma run_Ok lines s :
  run lines = Ok s ↔ ∃ evs, parse_lines lines = inr evs ∧ s = foldl next init evs.
Proof.
  rewrite run_next. destruct (parse_lines lines) as [e|evs]; split.
  - done.
  - by intros (evs & ? & _).
  - intros [= <-]. by exists evs.
  - intros (evs' & [= <-] & ->). done.
Qed.

(** *** The time range *)

Ltac crush_fields :=
  unfold reuse_known, reuse_entries, put_entries;
  repeat case_match; simpl; rewrite ?length_app; simpl; try done; try lia.

Lemma put_entries_times s t a d sz :
  firstTime (put_entries s t a d sz) = firstTime s
  ∧ lastTime (put_entries s t a d sz) = lastTime s.
Proof. split; crush_fields. Qed.

Lemma reuse_known_times s t p :
  firstTime (reuse_known s t p) = firstTime s
  ∧ lastTime (reuse_known s t p) = lastTime s.
Proof. split; crush_fields. Qed.

Lemma next_firstTime s ev :
  firstTime (next s ev) =
    match event_time ev with
    | Some t => if firstTime s =? 0 then t else firstTime s
    | None => firstTime s
    end.
Proof.
  destruct ev; simpl; [done| |case_match|done].
  - by rewrite (proj1 (put_entries_times _ _ _ _ _)).
  - by rewrite (proj1 (reuse_known_times _ _ _)).
  - done.
Qed.

Lemma next_lastTime s ev :
  lastTime (next s ev) = default (lastTime s) (event_time ev).
Proof.
  destruct ev; simpl; [done| |case_match|done].
  - by rewrite (proj2 (put_entries_times _ _ _ _ _)).
  - by rewrite (proj2 (reuse_known_times _ _ _)).
  - done.
Qed.

Lemma foldl_next_firstTime evs s :
  firstTime (foldl next s evs) =
    if firstTime s =? 0 then first_nonzero (omap event_time evs)
    else firstTime s.
Proof.
  revert s. induction evs as [|ev evs IH]; intros s; simpl.
  - by destruct (Z.eqb_spec (firstTime s) 0).
  - rewrite IH, next_firstTime. destruct (event_time ev) as [t|]; [|done].
    rewrite first_nonzero_cons.
    destruct (Z.eqb_spec (firstTime s) 0) as [H0|H0].
    + by destruct (Z.eqb_spec t 0).
    + by destruct (Z.eqb_spec (firstTime s) 0).
Qed.

Lemma foldl_next_lastTime evs s :
  lastTime (foldl next s evs) =
    default (lastTime s) (last (omap event_time evs)).
Proof.
  revert s. induction evs as [|ev evs IH]; intros s; [done|].
  cbn [foldl]. rewrite IH, next_lastTime.
  change (omap event_time (ev :: evs))
    with (match event_time ev with
          | Some t => t :: omap event_time evs
          | None => omap event_time evs
          end).
  destruct (event_time ev) as [t|]; [|done].
  rewrite last_cons. by destruct (last (omap event_time evs)).
Qed.

(** *** Sample counts *)

Lemma next_samples_length s ev :
  length (reuseA s) = length (reuseD s) →
  length (reuseA (next s ev)) = length (reuseD (next s ev)).
Proof. intros H. destruct ev; simpl; crush_fields. Qed.

Lemma foldl_next_samples_length evs s :
  length (reuseA s) = length (reuseD s) →
  length (reuseA (foldl next s evs)) = length (reuseD (foldl next s evs)).
Proof.
  revert s. induction evs as [|ev evs IH]; intros s H; simpl; [done|].
  by apply IH, next_samples_length.
Qed.

(** *** First write wins *)

Lemma lookup_action_insert_data (c : gmap string addr) a d p :
  <[data_key d := p]> c !! action_key a = c !! action_key a.
Proof.
  apply lookup_insert_ne. intros H. symmetry in H.
  by apply action_key_ne_data_key in H.
Qed.

Lemma put_entries_old_entries s t a d sz p e :
  heap s !! p = Some e → heap (put_entries s t a d sz) !! p = Some e.
Proof.
  intros Hp. destruct (put_entries_heap s t a d sz) as [new ->].
  by apply lookup_app_l_Some.
Qed.

Lemma put_entries_totalA s t a d sz :
  totalA (put_entries s t a d sz) =
    match cache s !! action_key a with
    | Some _ => totalA s
    | None => add64 (totalA s) 154
    end.
Proof.
  unfold put_entries. destruct (cache s !! data_key d); simpl.
  - by destruct (cache s !! action_key a).
  - rewrite lookup_action_insert_data. by destruct (cache s !! action_key a).
Qed.

Lemma put_entries_totalD s t a d sz :
  totalD (put_entries s t a d sz) =
    match cache s !! data_key d with
    | Some _ => totalD s
    | None => add64 (totalD s) sz
    end.
Proof.
  unfold put_entries. destruct (cache s !! data_key d); simpl.
  - by destruct (cache s !! action_key a).
  - rewrite lookup_action_insert_data. by destruct (cache s !! action_key a).
Qed.

(** A put that names a new action key binds it to a new entry created at
    the time of the put, of size 154, whose [data] is the entry that the
    data key of the put names after the put. *)
Lemma put_entries_new_action s t a d sz :
  cache s !! action_key a = None →
  ∃ p pd,
    cache (put_entries s t a d sz) !! action_key a = Some p
    ∧ heap s !! p = None
    ∧ heap (put_entries s t a d sz) !! p = Some (Entry t 154 false (Some pd))
    ∧ cache (put_entries s t a d sz) !! data_key d = Some pd.
Proof.
  intros Ha. unfold put_entries.
  destruct (cache s !! data_key d) as [pd|] eqn:Hd; simpl.
  - rewrite Ha. simpl. exists (length (heap s)), pd.
    rewrite lookup_insert_eq. split; [done|].
    split; [by apply lookup_ge_None_2|].
    split; [by apply list_lookup_middle|].
    rewrite lookup_insert_ne; [done|apply action_key_ne_data_key].
  - rewrite lookup_action_insert_data, Ha. simpl.
    exists (length (heap s ++ [Entry t sz false None])), (length (heap s)).
    rewrite lookup_insert_eq. split; [done|].
    split; [apply lookup_ge_None_2; rewrite length_app; simpl; lia|].
    split; [by apply list_lookup_middle|].
    rewrite lookup_insert_ne by apply action_key_ne_data_key.
    apply lookup_insert_eq.
Qed.

Lemma next_cache_le s ev : wf s → cache_le (cache s) (cache (next s ev)).
Proof.
  intros Hwf. destruct (exec_spec s ev Hwf) as (s' & Hs' & _ & Hc & _).
  rewrite exec_next in Hs' by done. by injection Hs' as <-.
Qed.

Lemma next_heap_le s ev : wf s → heap_le (heap s) (heap (next s ev)).
Proof.
  intros Hwf. destruct (exec_spec s ev Hwf) as (s' & Hs' & _ & _ & Hh).
  rewrite exec_next in Hs' by done. by injection Hs' as <-.
Qed.

(** *** Reuse accounting *)

Lemma credit_fresh action t sz dt : credit action (Entry t sz false dt) = 0.
Proof. done. Qed.

Lemma put_entries_reused_bytes s t a d sz action :
  reused_bytes action (heap (put_entries s t a d sz))
  = reused_bytes action (heap s).
Proof.
  unfold reused_bytes, put_entries.
  destruct (cache s !! data_key d); simpl.
  - destruct (cache s !! action_key a); simpl; [done|].
    rewrite sumZ_fmap_snoc, credit_fresh. lia.
  - destruct (<[data_key d := length (heap s)]> (cache s) !! action_key a);
      simpl; rewrite !sumZ_fmap_snoc, !credit_fresh; lia.
Qed.

Lemma put_entries_totalReused s t a d sz :
  totalReusedA (put_entries s t a d sz) = totalReusedA s
  ∧ totalReusedD (put_entries s t a d sz) = totalReusedD s.
Proof. split; crush_fields. Qed.

Lemma credit_mark action e :
  reused e = false →
  credit action e = 0
  ∧ credit action (mark_reused e)
    = if Bool.eqb (is_action e) action then size e else 0.
Proof. unfold credit, is_action. simpl. by intros ->. Qed.

Lemma reuse_entries_accounted s t p e d ed :
  heap s !! p = Some e → data e = Some d → heap s !! d = Some ed →
  data ed = None → d ≠ p →
  accounted s → accounted (reuse_entries s t p e d ed).
Proof.
  intros Hp Hd Hed Hnone Hne [HA HD].
  assert (Hed' : ∀ x, <[p := x]> (heap s) !! d = Some ed)
    by (intros x; by rewrite list_lookup_insert_ne).
  assert (Hae : is_action e = true) by (unfold is_action; by rewrite Hd).
  assert (Haed : is_action ed = false) by (unfold is_action; by rewrite Hnone).
  unfold accounted, reuse_entries, reused_bytes in *.
  destruct (reused e) eqn:Hre, (reused ed) eqn:Hred; simpl;
    rewrite ?(sumZ_insert _ _ d ed) by done;
    rewrite ?(sumZ_insert _ _ p e) by done;
    try (destruct (credit_mark true e Hre) as [-> ->];
         destruct (credit_mark false e Hre) as [-> ->]; rewrite Hae);
    try (destruct (credit_mark true ed Hred) as [-> ->];
         destruct (credit_mark false ed Hred) as [-> ->]; rewrite Haed);
    simpl; rewrite ?HA, ?HD; unfold add64; rewrite ?wrap64_add_l;
    split; f_equal; lia.
Qed.

Lemma next_accounted s ev : wf s → accounted s → accounted (next s ev).
Proof.
  intros Hwf Hacc. destruct ev as [|t a d sz|t a|t]; simpl; try done.
  - destruct Hacc as [HA HD]. unfold accounted.
    rewrite !put_entries_reused_bytes.
    by destruct (put_entries_totalReused (tick s t) t a d sz) as [-> ->].
  - destruct (cache s !! action_key a) as [p|] eqn:Hk; [|done].
    destruct (wf_known s a p Hwf Hk) as (e & d & ed & Hp & Hd & Hed & Hnone & Hne).
    unfold reuse_known. simpl. rewrite Hp, Hd, Hed.
    by apply reuse_entries_accounted.
Qed.

Lemma foldl_next_accounted evs s :
  wf s → accounted s → accounted (foldl next s evs).
Proof.
  revert s. induction evs as [|ev evs IH]; intros s Hwf Hacc; simpl; [done|].
  apply IH; [by apply next_wf|by apply next_accounted].
Qed.

(** *** A get or miss, field by field *)

Lemma mark_reused_id e : reused e = true → mark_reused e = e.
Proof. destruct e; simpl. by intros ->. Qed.

Lemma reuse_entries_heap s t p e d ed :
  heap s !! p = Some e → heap s !! d = Some ed → d ≠ p →
  heap (reuse_entries s t p e d ed)
  = <[d := mark_reused ed]> (<[p := mark_reused e]> (heap s)).
Proof.
  intros Hp Hd Hne. unfold reuse_entries.
  destruct (reused e) eqn:Hre, (reused ed) eqn:Hred; simpl;
    rewrite ?(mark_reused_id e) by done; rewrite ?(mark_reused_id ed) by done;
    rewrite ?(list_insert_id _ p e) by done; try done.
  - by rewrite list_insert_id.
  - rewrite (list_insert_id _ d ed); [done|]. by rewrite list_lookup_insert_ne.
Qed.

Lemma reuse_entries_fields s t p e d ed :
  totalA (reuse_entries s t p e d ed) = totalA s
  ∧ totalD (reuse_entries s t p e d ed) = totalD s
  ∧ firstTime (reuse_entries s t p e d ed) = firstTime s
  ∧ lastTime (reuse_entries s t p e d ed) = lastTime s
  ∧ cache (reuse_entries s t p e d ed) = cache s
  ∧ reuseA (reuse_entries s t p e d ed)
    = reuseA s ++ [int_of_int64 (sub64 t (created e))]
  ∧ reuseD (reuse_entries s t p e d ed)
    = reuseD s ++ [int_of_int64 (sub64 t (created ed))]
  ∧ totalReusedA (reuse_entries s t p e d ed)
    = (if reused e then totalReusedA s else add64 (totalReusedA s) (size e))
  ∧ totalReusedD (reuse_entries s t p e d ed)
    = (if reused ed then totalReusedD s else add64 (totalReusedD s) (size ed)).
Proof.
  unfold reuse_entries. by destruct (reused e), (reused ed).
Qed.

(** *** One more line after a run *)

Lemma run_step lines line s s' :
  run lines = Ok s → process_line s line = Ok s' →
  wf s ∧ ∃ ev, parse_line line = inr ev ∧ s' = next s ev.
Proof.
  intros Hrun Hstep. pose proof (run_wf lines) as Hwf. rewrite Hrun in Hwf.
  split; [done|]. rewrite process_line_exec in Hstep.
  destruct (parse_line line) as [e|ev]; [done|]. exists ev. split; [done|].
  rewrite exec_next in Hstep by done. by injection Hstep.
Qed.

Lemma run_accounted lines s : run lines = Ok s → accounted s.
Proof.
  intros (evs & _ & ->)%run_Ok. apply foldl_next_accounted.
  - apply init_wf.
  - by split.
Qed.


Lemma first_write_wins_next s line ev :
  wf s → parse_line line = inr ev → first_write_wins s line (next s ev).
Proof.
  intros Hwf Hev. split.
  - intros k p e Hk Hp. split; [by apply next_cache_le|].
    destruct (next_heap_le s ev Hwf p e Hp) as (e' & Hp' & Hc & Hs & Hd & _).
    by exists e'.
  - intros t a d sz Hput. rewrite Hput in Hev. injection Hev as <-. simpl.
    repeat split.
    + intros [p Hp]. rewrite put_entries_totalA. simpl. by rewrite Hp.
    + intros [p Hp]. rewrite put_entries_totalD. simpl. by rewrite Hp.
    + intros Ha.
      destruct (put_entries_new_action (tick s t) t a d sz Ha)
        as (p & pd & Hc & Hnew & Hh & Hcd).
      by exists p, pd, (Entry t 154 false (Some pd)).
Qed.

(** *** A key named by a put stays in the registry *)

Lemma put_entries_present s t a d sz :
  is_Some (cache (put_entries s t a d sz) !! action_key a)
  ∧ is_Some (cache (put_entries s t a d sz) !! data_key d).
Proof.
  unfold put_entries.
  destruct (cache s !! data_key d) as [pd|] eqn:Hd; simpl.
  - destruct (cache s !! action_key a) as [pa|] eqn:Ha; simpl.
    + by rewrite Ha, Hd.
    + rewrite lookup_insert_eq.
      rewrite lookup_insert_ne by apply action_key_ne_data_key.
      by rewrite Hd.
  - rewrite lookup_action_insert_data.
    destruct (cache s !! action_key a) as [pa|] eqn:Ha; simpl.
    + by rewrite lookup_action_insert_data, Ha, lookup_insert_eq.
    + rewrite lookup_insert_eq.
      rewrite lookup_insert_ne by apply action_key_ne_data_key.
      by rewrite lookup_insert_eq.
Qed.

Lemma foldl_next_cache_le evs s :
  wf s → cache_le (cache s) (cache (foldl next s evs)).
Proof.
  revert s. induction evs as [|ev evs IH]; intros s Hwf; simpl; [by intros ??|].
  intros k p Hk. apply IH; [by apply next_wf|]. by apply next_cache_le.
Qed.

Lemma put_in_log evs s t a d sz :
  wf s → Put t a d sz ∈ evs →
  is_Some (cache (foldl next s evs) !! action_key a)
  ∧ is_Some (cache (foldl next s evs) !! data_key d).
Proof.
  revert s. induction evs as [|ev evs IH]; intros s Hwf Hin.
  - by apply not_elem_of_nil in Hin.
  - simpl. apply elem_of_cons in Hin as [<-|Hin]; [|by apply IH, Hin; apply next_wf].
    pose proof (foldl_next_cache_le evs (next s (Put t a d sz))
                  (next_wf _ _ Hwf)) as Hle.
    destruct (put_entries_present (tick s t) t a d sz) as [[pa Ha] [pd Hd]].
    split; eexists; apply Hle; simpl; eassumption.
Qed.

End SimpleFacts.

(** ** The parser of [src/unnamed/part_000] *)

Module ExtendedFacts.
Import Extended ExtendedView.

Lemma put_put_entries_x s line f0 f1 a d f4 t sz :
  ParseInt f4 = Some sz →
  put s line [f0; f1; a; d; f4] t = Ok (put_entries s t a d sz).
Proof.
  intros Hsz. unfold put, put_entries. simpl. rewrite Hsz. simpl.
  destruct (cache s !! data_key d) as [p|]; simpl.
  - by destruct (cache s !! action_key a).
  - by destruct (<[data_key d := length (heap s)]> (cache s) !! action_key a).
Qed.

Lemma process_line_exec_x s line :
  process_line s line =
    match parse_line line with
    | inl e => Fatal e
    | inr ev => exec s ev
    end.
Proof.
  unfold process_line, parse_line.
  destruct (Fields line) as [|f0 [|f1 [|f2 rest]]]; try done.
  cbn [length index lookup list_lookup mbind result_bind].
  rewrite (bool_decide_eq_false_2 (_ = 0%nat)) by done.
  rewrite (bool_decide_eq_false_2 (_ < 3)%nat) by (simpl; lia).
  simpl. destruct (String.eqb f1 "put") eqn:Hput; simpl.
  - destruct rest as [|f3 [|f4 [|f5 rest]]]; simpl; try done.
    destruct (ParseInt f0) as [t|]; [|done].
    destruct (ParseInt f4) as [sz|] eqn:Hsz.
    + by erewrite put_put_entries_x.
    + unfold put. simpl. by rewrite Hsz.
  - destruct (ParseInt f0) as [t|]; [|done].
    by destruct (String.eqb f1 "get" || String.eqb f1 "miss").
Qed.

Lemma get_unknown_x s f0 f1 a rest t :
  cache s !! action_key a = None → get s (f0 :: f1 :: a :: rest) t = Ok s.
Proof. unfold get. simpl. by intros ->. Qed.

Lemma get_known_x s f0 f1 a rest t p e d ed :
  cache s !! action_key a = Some p →
  heap s !! p = Some e → data e = Some d → heap s !! d = Some ed → d ≠ p →
  get s (f0 :: f1 :: a :: rest) t = Ok (reuse_entries s t p e d ed).
Proof.
  intros Hc Hp Hd Hed Hne. unfold get, reuse_entries, reuse_base. simpl.
  rewrite Hc.
  assert (Hlp : (p < length (heap s))%nat) by by eapply lookup_lt_Some.
  assert (Hld : (d < length (heap s))%nat) by by eapply lookup_lt_Some.
  load. destruct (lastReused e =? 0) eqn:Hre; simpl;
    load; rewrite Hd; simpl; load;
    destruct (lastReused ed =? 0) eqn:Hred; simpl;
    load; rewrite Hd; simpl; load; load; rewrite Hd; simpl; load;
    unfold store, set_lastReused; simpl; do 2 f_equal;
    rewrite ?list_insert_insert_eq;
    repeat (rewrite (list_insert_insert_ne _ p d) by done;
            rewrite ?list_insert_insert_eq);
    done.
Qed.

Lemma reuse_entries_fields_x s t p e d ed :
  totalA (reuse_entries s t p e d ed) = totalA s
  ∧ totalD (reuse_entries s t p e d ed) = totalD s
  ∧ firstTime (reuse_entries s t p e d ed) = firstTime s
  ∧ lastTime (reuse_entries s t p e d ed) = lastTime s
  ∧ cache (reuse_entries s t p e d ed) = cache s
  ∧ reuseA (reuse_entries s t p e d ed)
    = reuseA s ++ [int_of_int64 (sub64 t (created e))]
  ∧ reuseD (reuse_entries s t p e d ed)
    = reuseD s ++ [int_of_int64 (sub64 t (created ed))]
  ∧ reuseDeltaA (reuse_entries s t p e d ed)
    = reuseDeltaA s ++ [int_of_int64 (sub64 t (reuse_base e))]
  ∧ reuseDeltaD (reuse_entries s t p e d ed)
    = reuseDeltaD s ++ [int_of_int64 (sub64 t (reuse_base ed))]
  ∧ totalReusedA (reuse_entries s t p e d ed)
    = (if lastReused e =? 0 then add64 (totalReusedA s) (size e)
       else totalReusedA s)
  ∧ totalReusedD (reuse_entries s t p e d ed)
    = (if lastReused ed =? 0 then add64 (totalReusedD s) (size ed)
       else totalReusedD s)
  ∧ heap (reuse_entries s t p e d ed)
    = <[d := set_lastReused ed t]> (<[p := set_lastReused e t]> (heap s)).
Proof.
  unfold reuse_entries. by destruct (lastReused e =? 0), (lastReused ed =? 0).
Qed.

End ExtendedFacts.

(** ** The two parsers side by side *)

Module SimFacts.
Import Sim.

Lemma entry_rel_fresh b t sz dt :
  entry_rel b (Simple.Entry t sz false dt) (Extended.Entry t 0 sz false dt).
Proof. by repeat split. Qed.

Lemma state_rel_init b : state_rel b Simple.init Extended.init.
Proof. repeat split; simpl; auto. Qed.

Lemma state_rel_tick b s sx t :
  state_rel b s sx → state_rel b (SimpleView.tick s t) (ExtendedView.tick sx t).
Proof.
  intros (HtA & HtD & HrA & HrD & Hft & Hlt & Hc & Hh & HlA & HlD & Hstrict).
  unfold SimpleView.tick, ExtendedView.tick. rewrite Hft.
  repeat split; simpl; try done; by apply Hstrict.
Qed.

Lemma state_rel_insert_new b s sx k e ex :
  state_rel b s sx → entry_rel b e ex →
  state_rel b (Simple.insert_new s k e) (Extended.insert_new sx k ex).
Proof.
  intros (HtA & HtD & HrA & HrD & Hft & Hlt & Hc & Hh & HlA & HlD & Hstrict) He.
  pose proof (Forall2_length _ _ _ Hh) as Hlen.
  repeat split; simpl; try done; try by apply Hstrict.
  - by rewrite Hc, Hlen.
  - apply Forall2_app; [done|]. by constructor.
Qed.

Lemma state_rel_add_totalA b s sx n :
  state_rel b s sx →
  state_rel b (Simple.add_totalA s n) (Extended.add_totalA sx n).
Proof.
  intros (HtA & HtD & HrA & HrD & Hft & Hlt & Hc & Hh & HlA & HlD & Hstrict).
  repeat split; simpl; try done; try by apply Hstrict. by rewrite HtA.
Qed.

Lemma state_rel_add_totalD b s sx n :
  state_rel b s sx →
  state_rel b (Simple.add_totalD s n) (Extended.add_totalD sx n).
Proof.
  intros (HtA & HtD & HrA & HrD & Hft & Hlt & Hc & Hh & HlA & HlD & Hstrict).
  repeat split; simpl; try done; try by apply Hstrict. by rewrite HtD.
Qed.

Lemma state_rel_cache b s sx : state_rel b s sx → Simple.cache s = Extended.cache sx.
Proof. by intros (_ & _ & _ & _ & _ & _ & Hc & _). Qed.

Lemma state_rel_heap b s sx :
  state_rel b s sx → Forall2 (entry_rel b) (Simple.heap s) (Extended.heap sx).
Proof. by intros (_ & _ & _ & _ & _ & _ & _ & Hh & _). Qed.

Lemma state_rel_put_entries b s sx t a d sz :
  state_rel b s sx →
  state_rel b (SimpleView.put_entries s t a d sz)
              (ExtendedView.put_entries sx t a d sz).
Proof.
  intros HR. pose proof (state_rel_cache _ _ _ HR) as Hc.
  pose proof (Forall2_length _ _ _ (state_rel_heap _ _ _ HR)) as Hlen.
  unfold SimpleView.put_entries, ExtendedView.put_entries.
  rewrite <- Hc, <- Hlen.
  destruct (Simple.cache s !! data_key d) as [pd|] eqn:Hd; simpl.
  - rewrite <- Hc.
    destruct (Simple.cache s !! action_key a) as [pa|] eqn:Ha; simpl; [done|].
    apply state_rel_add_totalA, state_rel_insert_new; [done|].
    apply entry_rel_fresh.
  - rewrite <- Hc, <- Hlen.
    assert (HR1 : state_rel b
      (Simple.add_totalD (Simple.insert_new s (data_key d)
         (Simple.Entry t sz false None)) sz)
      (Extended.add_totalD (Extended.insert_new sx (data_key d)
         (Extended.Entry t 0 sz false None)) sz)).
    { apply state_rel_add_totalD, state_rel_insert_new; [done|].
      apply entry_rel_fresh. }
    destruct (<[data_key d := length (Simple.heap s)]> (Simple.cache s)
                !! action_key a) as [pa|] eqn:Ha; simpl; [done|].
    apply state_rel_add_totalA, state_rel_insert_new; [done|].
    apply entry_rel_fresh.
Qed.

Lemma entry_rel_reuse b e ex t :
  entry_rel b e ex → (b = true → t ≠ 0) →
  entry_rel b (Simple.mark_reused e) (Extended.set_lastReused ex t).
Proof.
  intros (Hc & Hs & Hd & Hr) Ht. repeat split; simpl; try done.
  intros Hb. specialize (Ht Hb). by destruct (Z.eqb_spec t 0).
Qed.

Lemma state_rel_reuse_entries b s sx t p e ex d ed edx :
  state_rel b s sx →
  Simple.heap s !! p = Some e → Simple.heap s !! d = Some ed → d ≠ p →
  entry_rel b e ex → entry_rel b ed edx → (b = true → t ≠ 0) →
  state_rel b (SimpleView.reuse_entries s t p e d ed)
              (ExtendedView.reuse_entries sx t p ex d edx).
Proof.
  intros (HtA & HtD & HrA & HrD & Hft & Hlt & Hc & Hh & HlA & HlD & Hstrict)
    Hp Hd Hne He Hed Ht.
  unfold state_rel.
  destruct (SimpleFacts.reuse_entries_fields s t p e d ed)
    as (-> & -> & -> & -> & -> & -> & -> & HsA & HsD).
  destruct (ExtendedFacts.reuse_entries_fields_x sx t p ex d edx)
    as (-> & -> & -> & -> & -> & -> & -> & HxdA & HxdD & HxA & HxD & ->).
  rewrite SimpleFacts.reuse_entries_heap by done.
  destruct He as (Hce & Hse & Hde & Hre), Hed as (Hced & Hsed & Hded & Hred).
  repeat split; try done.
  - by rewrite HrA, Hce.
  - by rewrite HrD, Hced.
  - apply Forall2_insert; [apply Forall2_insert; [done|]|];
      by apply entry_rel_reuse.
  - rewrite HxdA, !length_app. simpl. lia.
  - rewrite HxdD, !length_app. simpl. lia.
  - rewrite HsA, HxA. destruct (Hstrict H) as [-> _].
    rewrite (Hre H), Hse. by destruct (Extended.lastReused ex =? 0).
  - rewrite HsD, HxD. destruct (Hstrict H) as [_ ->].
    rewrite (Hred H), Hsed. by destruct (Extended.lastReused edx =? 0).
Qed.

(** One event on both sides: the variant does not panic either, and the
    two states stay related. *)
Lemma sim_next b s sx ev :
  SimpleView.wf s → state_rel b s sx → (b = true → reuse_time_nonzero ev) →
  ExtendedView.exec sx ev = Ok (ExtendedView.next sx ev)
  ∧ state_rel b (SimpleView.next s ev) (ExtendedView.next sx ev).
Proof.
  intros Hwf HR Ht. destruct ev as [|t a d sz|t a|t]; simpl.
  - done.
  - split; [done|]. by apply state_rel_put_entries, state_rel_tick.
  - pose proof (state_rel_cache _ _ _ HR) as Hc. rewrite <- Hc.
    destruct (Simple.cache s !! action_key a) as [p|] eqn:Hk.
    + destruct (SimpleFacts.wf_known s a p Hwf Hk)
        as (e & d & ed & Hp & Hd & Hed & _ & Hne).
      pose proof (state_rel_heap _ _ _ HR) as Hh.
      destruct (Forall2_lookup_l _ _ _ _ _ Hh Hp) as (ex & Hpx & He).
      destruct (Forall2_lookup_l _ _ _ _ _ Hh Hed) as (edx & Hdx & Hedr).
      assert (Hdatax : Extended.data ex = Some d).
      { destruct He as (_ & _ & <- & _). done. }
      rewrite (ExtendedFacts.get_known_x _ _ _ _ _ _ p ex d edx);
        [|by simpl; rewrite <- ?Hc..].
      unfold SimpleView.reuse_known, ExtendedView.reuse_known. simpl.
      rewrite Hp, Hd, Hed, Hpx, Hdatax, Hdx. split; [done|].
      apply state_rel_reuse_entries; try done. by apply state_rel_tick.
    + rewrite ExtendedFacts.get_unknown_x by by simpl; rewrite <- Hc.
      split; [done|]. by apply state_rel_tick.
  - split; [done|]. by apply state_rel_tick.
Qed.

Lemma sim_foldl b evs s sx :
  SimpleView.wf s → state_rel b s sx →
  (b = true → Forall reuse_time_nonzero evs) →
  state_rel b (foldl SimpleView.next s evs) (foldl ExtendedView.next sx evs).
Proof.
  revert s sx. induction evs as [|ev evs IH]; intros s sx Hwf HR Ht; [done|].
  simpl. apply IH.
  - by apply SimpleFacts.next_wf.
  - apply sim_next; [done..|]. intros Hb. by eapply Forall_inv, Ht.
  - intros Hb. by eapply Forall_inv_tail, Ht.
Qed.

Lemma sim_scan lines s sx :
  SimpleView.wf s → state_rel false s sx →
  scan Extended.process_line sx lines =
    match parse_lines lines with
    | inl e => Fatal e
    | inr evs => Ok (foldl ExtendedView.next sx evs)
    end.
Proof.
  revert s sx. induction lines as [|line lines IH]; intros s sx Hwf HR; [done|].
  simpl. rewrite ExtendedFacts.process_line_exec_x.
  destruct (parse_line line) as [e|ev]; [done|].
  destruct (sim_next false s sx ev Hwf HR) as [-> HR']; [done|].
  simpl. rewrite (IH (SimpleView.next s ev)); [|by apply SimpleFacts.next_wf|done].
  by destruct (parse_lines lines).
Qed.

(** The variant's run: the same fatal error, or the events applied in
    order; it never panics. *)
Lemma run_next_x lines :
  Extended.run lines =
    match parse_lines lines with
    | inl e => Fatal e
    | inr evs => Ok (foldl ExtendedView.next Extended.init evs)
    end.
Proof.
  apply (sim_scan lines Simple.init); [apply SimpleFacts.init_wf|].
  apply state_rel_init.
Qed.

Lemma run_Ok_x lines sx :
  Extended.run lines = Ok sx ↔
  ∃ evs, parse_lines lines = inr evs
         ∧ sx = foldl ExtendedView.next Extended.init evs.
Proof.
  rewrite run_next_x. destruct (parse_lines lines) as [e|evs]; split.
  - done.
  - by intros (evs & ? & _).
  - intros [= <-]. by exists evs.
  - intros (evs' & [= <-] & ->). done.
Qed.

Lemma reuse_times_nonzero_events lines evs :
  reuse_times_nonzero lines → parse_lines lines = inr evs →
  Forall reuse_time_nonzero evs.
Proof.
  unfold reuse_times_nonzero.
  revert evs. induction lines as [|line lines IH]; intros evs Hnz; simpl.
  - intros [= <-]. constructor.
  - simpl in Hnz. apply andb_true_iff in Hnz as [Hline Hnz].
    unfold reuse_time_ok in Hline.
    destruct (parse_line line) as [|ev] eqn:Hev; [done|].
    destruct (parse_lines lines) as [|evs']; [done|]. intros [= <-].
    constructor; [|by apply IH].
    destruct ev as [| |t a|]; simpl; try done.
    apply negb_true_iff in Hline. by apply Z.eqb_neq.
Qed.

Lemma runs_related lines s sx :
  Simple.run lines = Ok s → Extended.run lines = Ok sx →
  SimpleView.wf s ∧ state_rel false s sx
  ∧ (reuse_times_nonzero lines → state_rel true s sx).
Proof.
  intros (evs & Hevs & ->)%SimpleFacts.run_Ok (evs' & Hevs' & ->)%run_Ok_x.
  assert (evs' = evs) as -> by congruence.
  split; [apply SimpleFacts.foldl_next_wf, SimpleFacts.init_wf|].
  split.
  - apply sim_foldl; [apply SimpleFacts.init_wf|apply state_rel_init|done].
  - intros Hnz.
    apply sim_foldl; [apply SimpleFacts.init_wf|apply state_rel_init|].
    intros _. by eapply reuse_times_nonzero_events.
Qed.

(** A log passes validation in one variant exactly when it does in the
    other. *)
Lemma run_Ok_both lines :
  (∃ s, Simple.run lines = Ok s) ↔ (∃ sx, Extended.run lines = Ok sx).
Proof.
  rewrite SimpleFacts.run_next, run_next_x.
  destruct (parse_lines lines); split; intros [? ?]; try done; eauto.
Qed.

Lemma step_x s sx line sx' :
  SimpleView.wf s → state_rel false s sx →
  Extended.process_line sx line = Ok sx' →
  ∃ ev, parse_line line = inr ev ∧ sx' = ExtendedView.next sx ev.
Proof.
  intros Hwf HR Hstep. rewrite ExtendedFacts.process_line_exec_x in Hstep.
  destruct (parse_line line) as [e|ev]; [done|]. exists ev. split; [done|].
  destruct (sim_next false s sx ev Hwf HR) as [Hex _]; [done|].
  rewrite Hex in Hstep. by injection Hstep.
Qed.




Lemma first_write_wins_x s sx line ev :
  SimpleView.wf s → state_rel false s sx → parse_line line = inr ev →
  ExtendedView.first_write_wins sx line (ExtendedView.next sx ev).
Proof.
  intros Hwf HR Hev.
  destruct (sim_next false s sx ev Hwf HR) as [_ HR']; [done|].
  destruct (SimpleFacts.first_write_wins_next s line ev Hwf Hev) as [Hframe Hput].
  pose proof (state_rel_heap _ _ _ HR) as Hh.
  pose proof (state_rel_heap _ _ _ HR') as Hh'.
  pose proof (state_rel_cache _ _ _ HR) as Hc.
  pose proof (state_rel_cache _ _ _ HR') as Hc'.
  split.
  - intros k p ex Hk Hpx. rewrite <- Hc in Hk. rewrite <- Hc'.
    destruct (Forall2_lookup_r _ _ _ _ _ Hh Hpx) as (e & Hp & Hce & Hse & Hde & _).
    destruct (Hframe k p e Hk Hp) as (Hk' & e' & Hp' & Hce' & Hse' & Hde').
    split; [done|].
    destruct (Forall2_lookup_l _ _ _ _ _ Hh' Hp')
      as (ex' & Hpx' & Hcx & Hsx & Hdx & _).
    exists ex'. repeat split; [done|congruence..].
  - intros t a d sz Hline. rewrite <- Hc, <- Hc'.
    destruct (Hput t a d sz Hline) as (HA & HD & Hnew).
    destruct HR as (HtA & HtD & _), HR' as (HtA' & HtD' & _).
    repeat split.
    + intros Hs. rewrite <- HtA, <- HtA'. by apply HA.
    + intros Hs. rewrite <- HtD, <- HtD'. by apply HD.
    + intros Ha. destruct (Hnew Ha) as (p & pd & e & Hk & Hnone & Hp & Hd & Hkd).
      destruct (Forall2_lookup_l _ _ _ _ _ Hh' Hp)
        as (ex' & Hpx' & _ & _ & Hdx & _).
      exists p, pd, ex'. repeat split; try done; [|congruence].
      apply lookup_ge_None. rewrite <- (Forall2_length _ _ _ Hh).
      by apply lookup_ge_None.
Qed.


End SimFacts.

(** ** The report *)

Module ReportFacts.

Lemma sortInts_Sorted l : StronglySorted Z.le (sortInts l).
Proof. apply StronglySorted_merge_sort; apply _. Qed.

Lemma sortInts_Permutation l : sortInts l ≡ₚ l.
Proof. apply merge_sort_Permutation. Qed.

Lemma sortInts_length l : length (sortInts l) = length l.
Proof. by rewrite sortInts_Permutation. Qed.

Lemma StronglySorted_lookup_le (l : list Z) i j x y :
  StronglySorted Z.le l → l !! i = Some x → l !! j = Some y → (i <= j)%nat →
  x <= y.
Proof.
  intros Hs. revert i j. induction Hs as [|a l Hs IH Hall]; intros i j Hi Hj Hij.
  - done.
  - destruct i as [|i], j as [|j]; simpl in *.
    + assert (x = y) by congruence. lia.
    + injection Hi as <-. rewrite Forall_forall in Hall.
      apply Hall. by eapply list_elem_of_lookup_2.
    + lia.
    + apply (IH i j); [done..|lia].
Qed.

Lemma indexable_alloc n : Z.of_nat n * 8 <= 2 ^ 48 → indexable n.
Proof. unfold indexable, maxInt64. lia. Qed.

Lemma mul64_small a b : 0 <= a * b <= maxInt64 → mul64 a b = a * b.
Proof.
  intros H. apply wrap64_id. unfold in_int64, minInt64, maxInt64 in *. lia.
Qed.

Lemma percentile_index_lt n num den :
  (0 < n)%nat → 0 <= num < den → (percentile_index n num den < n)%nat.
Proof.
  intros Hn Hnum. unfold percentile_index.
  assert (Z.of_nat n * num / den < Z.of_nat n).
  { apply Z.div_lt_upper_bound; nia. }
  assert (0 <= Z.of_nat n * num / den) by (apply Z.div_pos; nia).
  lia.
Qed.

Lemma at_index_percentile (sample : list Z) n num den :
  (0 < n)%nat → n = length sample → 0 <= num < den → num <= 999 →
  indexable n →
  at_index sample (Z.quot (mul64 (Z.of_nat n) num) den)
  = Ok (sample !!! percentile_index n num den).
Proof.
  intros Hn Hlen Hnum H999 Hidx. unfold indexable in Hidx.
  rewrite mul64_small by nia.
  rewrite Z.quot_div_nonneg by nia.
  pose proof (percentile_index_lt n num den Hn Hnum) as Hlt.
  unfold at_index, percentile_index in *.
  assert (0 <= Z.of_nat n * num / den) by (apply Z.div_pos; nia).
  rewrite (proj2 (Z.ltb_ge _ _)) by done.
  destruct (lookup_lt_is_Some_2 sample (Z.to_nat (Z.of_nat n * num / den)))
    as [v Hv]; [lia|].
  unfold index. rewrite Hv. by rewrite (list_lookup_total_correct _ _ _ Hv).
Qed.

Lemma print_percentile_ok p (sample : list Z) n num den :
  (0 < n)%nat → n = length sample → 0 <= num < den → num <= 999 →
  indexable n →
  print_percentile p sample (Z.of_nat n) num den
  = ([Percentile p (days (sample !!! percentile_index n num den))], Ok tt).
Proof.
  intros. unfold print_percentile. by rewrite at_index_percentile.
Qed.

Lemma percentile_loop_step fuel i sample n :
  percentile_loop (S fuel) i sample n =
    if i <=? 90 then
      _ ← print_percentile (inject_Z i) sample n i 100;
      percentile_loop fuel (add64 i 10) sample n
    else mret tt.
Proof. done. Qed.

Lemma at_index_last (sample : list Z) n :
  (0 < n)%nat → n = length sample → indexable n →
  at_index sample (sub64 (Z.of_nat n) 1) = Ok (sample !!! (n - 1)%nat).
Proof.
  intros Hn Hlen Hidx. unfold sub64, indexable, maxInt64 in *.
  rewrite wrap64_id by (unfold in_int64, minInt64, maxInt64; lia).
  unfold at_index. rewrite (proj2 (Z.ltb_ge _ _)) by lia.
  replace (Z.to_nat (Z.of_nat n - 1)) with (n - 1)%nat by lia.
  destruct (lookup_lt_is_Some_2 sample (n - 1)) as [v Hv]; [lia|].
  unfold index. rewrite Hv. by rewrite (list_lookup_total_correct _ _ _ Hv).
Qed.

Lemma print_percentiles_ok (sample : list Z) n :
  (0 < n)%nat → n = length sample → indexable n →
  print_percentiles sample (Z.of_nat n) = (percentile_items sample n, Ok tt).
Proof.
  intros Hn Hlen Hidx. unfold print_percentiles, len. rewrite <- Hlen.
  do 9 (rewrite percentile_loop_step;
        match goal with
        | |- context [?i <=? 90] =>
            change (i <=? 90) with true; cbv iota;
            rewrite (print_percentile_ok _ sample n i 100) by (done || lia)
        end;
        match goal with
        | |- context [add64 ?i 10] =>
            let j := eval vm_compute in (add64 i 10) in
            change (add64 i 10) with j
        end).
  rewrite percentile_loop_step. change (100 <=? 90) with false. cbv iota.
  rewrite !(print_percentile_ok _ sample n) by (done || lia).
  rewrite at_index_last by done.
  reflexivity.
Qed.

Lemma printCache_empty name total totalReused :
  SimpleReport.printCache name total totalReused []
  = ([CacheLine name total totalReused; NoReuse], Ok tt).
Proof. done. Qed.

Lemma printCache_nonempty name total totalReused (sample : list Z) :
  sample ≠ [] → indexable (length sample) →
  SimpleReport.printCache name total totalReused sample
  = (CacheLine name total totalReused :: PercentilesHeader
       :: percentile_items sample (length sample), Ok tt).
Proof.
  intros Hne Hidx. unfold SimpleReport.printCache.
  assert (0 < length sample)%nat by (destruct sample; [done|simpl; lia]).
  replace (len sample =? 0) with false
    by (symmetry; apply Z.eqb_neq; unfold len; lia).
  unfold len. by rewrite print_percentiles_ok.
Qed.

Lemma printCache_empty_x name total totalReused delta :
  ExtendedReport.printCache name total totalReused [] delta
  = ([CacheLine name total totalReused; NoReuse], Ok tt).
Proof. done. Qed.

Lemma printCache_nonempty_x name total totalReused (sample delta : list Z) :
  sample ≠ [] → indexable (length sample) → length delta = length sample →
  ExtendedReport.printCache name total totalReused sample delta
  = (CacheLine name total totalReused :: PercentilesHeader
       :: percentile_items sample (length sample)
       ++ DeltaPercentilesHeader
       :: percentile_items delta (length sample), Ok tt).
Proof.
  intros Hne Hidx Hlen. unfold ExtendedReport.printCache.
  assert (0 < length sample)%nat by (destruct sample; [done|simpl; lia]).
  replace (len sample =? 0) with false
    by (symmetry; apply Z.eqb_neq; unfold len; lia).
  unfold len. rewrite !print_percentiles_ok by done. done.
Qed.

(** *** Percentiles are monotone *)

Lemma percentile_index_mono n num den num' den' :
  0 <= num → 0 < den → 0 < den' → num * den' <= num' * den →
  (percentile_index n num den <= percentile_index n num' den')%nat.
Proof.
  intros Hnum Hden Hden' Hle. unfold percentile_index.
  apply Z2Nat.inj_le; [apply Z.div_pos; nia|apply Z.div_pos; nia|].
  rewrite <- (Z.div_mul_cancel_r (Z.of_nat n * num) den den') by lia.
  rewrite <- (Z.div_mul_cancel_r (Z.of_nat n * num') den' den) by lia.
  replace (den' * den) with (den * den') by lia.
  apply Z.div_le_mono; nia.
Qed.

Lemma percentile_index_le_last n num den :
  (0 < n)%nat → 0 <= num < den → (percentile_index n num den <= n - 1)%nat.
Proof. intros Hn Hnum. pose proof (percentile_index_lt n num den Hn Hnum). lia. Qed.

Lemma days_mono a b : a <= b → (days a <= days b)%Q.
Proof. unfold days, Qle. simpl. lia. Qed.

Lemma sorted_total_le (sample : list Z) i j :
  StronglySorted Z.le sample → (i <= j)%nat → (j < length sample)%nat →
  sample !!! i <= sample !!! j.
Proof.
  intros Hs Hij Hj.
  destruct (lookup_lt_is_Some_2 sample i) as [x Hx]; [lia|].
  destruct (lookup_lt_is_Some_2 sample j) as [y Hy]; [lia|].
  rewrite (list_lookup_total_correct _ _ _ Hx), (list_lookup_total_correct _ _ _ Hy).
  by eapply StronglySorted_lookup_le.
Qed.

Lemma percentiles_bounds :
  Forall (λ '(_, num, den), 0 <= num < den ∧ num <= 999) percentiles.
Proof. repeat constructor; lia. Qed.

Lemma percentiles_order :
  Forall (λ '(p1, num1, den1),
    Forall (λ '(p2, num2, den2),
      (p1 <= p2)%Q → num1 * den2 <= num2 * den1) percentiles) percentiles.
Proof. repeat constructor; unfold Qle; simpl; lia. Qed.

Lemma percentile_items_Percentile (sample : list Z) n p v :
  Percentile p v ∈ percentile_items sample n →
  ∃ num den, (p, num, den) ∈ percentiles
             ∧ v = days (sample !!! percentile_index n num den).
Proof.
  unfold percentile_items. rewrite elem_of_app, list_elem_of_fmap.
  intros [([[p' num] den] & Heq & Hin)|Hmax].
  - injection Heq as -> ->. by exists num, den.
  - apply list_elem_of_singleton in Hmax. done.
Qed.

Lemma percentile_items_Max (sample : list Z) n m :
  Max m ∈ percentile_items sample n → m = days (sample !!! (n - 1)%nat).
Proof.
  unfold percentile_items. rewrite elem_of_app, list_elem_of_fmap.
  intros [([[p' num] den] & Heq & Hin)|Hmax].
  - done.
  - apply list_elem_of_singleton in Hmax. by injection Hmax.
Qed.

Lemma sortInts_nonempty l : l ≠ [] → sortInts l ≠ [].
Proof.
  intros Hne Hs. apply (f_equal length) in Hs.
  rewrite sortInts_length in Hs. by destruct l.
Qed.

Lemma printCache_sorted_ok_x name total totalReused reuse delta :
  length delta = length reuse → indexable (length reuse) →
  (ExtendedReport.printCache name total totalReused
     (sortInts reuse) (sortInts delta)).2 = Ok tt.
Proof.
  intros Hlen Hidx. destruct reuse as [|x reuse].
  - done.
  - rewrite printCache_nonempty_x; [done|by apply sortInts_nonempty|..];
      by rewrite !sortInts_length.
Qed.

End ReportFacts.

(** ** Further facts about the scan and the report *)

Module ExtraFacts.

#[local] Set Warnings "-clear-no-such-hyp".

(** *** Lines without fields *)

Lemma process_line_blank s line :
  Fields line = [] → Simple.process_line s line = Ok s.
Proof. unfold Simple.process_line. by intros ->. Qed.

Lemma process_line_blank_x s line :
  Fields line = [] → Extended.process_line s line = Ok s.
Proof. unfold Extended.process_line. by intros ->. Qed.

Lemma scan_filter_blank {S : Type} (step : S → string → result S) lines s :
  (∀ s line, Fields line = [] → step s line = Ok s) →
  scan step s (filter (λ l, Fields l ≠ []) lines) = scan step s lines.
Proof.
  intros Hblank. revert s. induction lines as [|line lines IH]; intros s; [done|].
  rewrite filter_cons. destruct (decide (Fields line ≠ [])) as [Hne|Heq]; simpl.
  - destruct (step s line); simpl; auto.
  - apply dec_stable in Heq. rewrite (Hblank s line Heq). simpl. apply IH.
Qed.

Lemma split_lines_newline data cur :
  split_lines (data +:+ String LF EmptyString) cur
  = split_lines data cur ++ [EmptyString].
Proof.
  revert cur. induction data as [|c data IH]; intros cur; simpl.
  - done.
  - destruct (Ascii.eqb c LF); simpl; by rewrite IH.
Qed.

(** *** Which lines are fatal *)

Lemma no_fatal_bind {A B : Type} (m : result A) (k : A → result B) :
  no_fatal m → (∀ a, no_fatal (k a)) → no_fatal (m ≫= k).
Proof.
  intros Hm Hk e. destruct m as [a|e0|]; simpl; [apply Hk| |done].
  exfalso. by apply (Hm e0).
Qed.

Lemma no_fatal_index {A : Type} (l : list A) i : no_fatal (index l i).
Proof. intros e. unfold index. by destruct (l !! i). Qed.

Lemma no_fatal_nonnil p : no_fatal (nonnil p).
Proof. intros e. by destruct p. Qed.

Lemma no_fatal_Ok {A : Type} (a : A) : no_fatal (Ok a).
Proof. by intros e. Qed.

Ltac no_fatal_steps :=
  repeat (cbv zeta;
          first [ apply no_fatal_Ok
                | apply no_fatal_bind;
                  [first [apply no_fatal_index | apply no_fatal_nonnil]
                  |intros ?] ]).

Lemma get_no_fatal s f t : no_fatal (Simple.get s f t).
Proof.
  unfold Simple.get. apply no_fatal_bind; [apply no_fatal_index|intros f2].
  destruct (Simple.cache s !! action_key f2); no_fatal_steps.
Qed.

Lemma get_no_fatal_x s f t : no_fatal (Extended.get s f t).
Proof.
  unfold Extended.get. apply no_fatal_bind; [apply no_fatal_index|intros f2].
  destruct (Extended.cache s !! action_key f2); no_fatal_steps.
Qed.

Lemma process_line_Fatal s line e :
  Simple.process_line s line = Fatal e ↔ parse_line line = inl e.
Proof.
  rewrite SimpleFacts.process_line_exec.
  destruct (parse_line line) as [e'|ev]; [split; congruence|].
  split; [|done]. intros H. exfalso.
  destruct ev; simpl in H; try done. by apply get_no_fatal in H.
Qed.

Lemma process_line_Fatal_x s line e :
  Extended.process_line s line = Fatal e ↔ parse_line line = inl e.
Proof.
  rewrite ExtendedFacts.process_line_exec_x.
  destruct (parse_line line) as [e'|ev]; [split; congruence|].
  split; [|done]. intros H. exfalso.
  destruct ev; simpl in H; try done. by apply get_no_fatal_x in H.
Qed.

Ltac iff_cases :=
  unfold is_Some in *;
  split; intros;
  repeat match goal with
         | H : _ ∧ _ |- _ => destruct H
         | H : _ ∨ _ |- _ => destruct H
         | H : ∃ _, _ |- _ => destruct H
         end;
  simplify_eq/=; try lia; try (by eauto 8);
  try (exfalso;
       match goal with
       | H : ¬ _ |- _ => apply H; split; first [done | lia]
       end);
  repeat split;
  first [ lia | done | by eauto
        | intros [? ?]; simplify_eq/=; first [lia | done | congruence] ].

Ltac split_fields line :=
  unfold parse_line;
  destruct (Fields line) as [|f0 [|f1 [|f2 [|f3 [|f4 [|f5 rest]]]]]];
  simpl; rewrite ?eqb_string_eq;
  try (destruct (decide (f1 = "put")) as [->|Hput];
       [rewrite ?bool_decide_eq_true_2 by done
       |rewrite ?(bool_decide_eq_false_2 (f1 = "put")) by done]);
  simpl.

Lemma parse_line_InvalidLine line l :
  parse_line line = inl (InvalidLine l) ↔
  l = line ∧ Fields line ≠ []
  ∧ ((length (Fields line) < 3)%nat
     ∨ (Fields line !! 1%nat = Some "put" ∧ length (Fields line) ≠ 5%nat)).
Proof.
  split_fields line; repeat case_match; iff_cases.
Qed.

Lemma parse_line_InvalidTime line l :
  parse_line line = inl (InvalidTime l) ↔
  l = line ∧ (3 <= length (Fields line))%nat
  ∧ ¬ (Fields line !! 1%nat = Some "put" ∧ length (Fields line) ≠ 5%nat)
  ∧ Fields line !! 0%nat ≫= ParseInt = None.
Proof.
  split_fields line; repeat case_match; iff_cases.
Qed.

Lemma parse_line_InvalidSize line l :
  parse_line line = inl (InvalidSize l) ↔
  l = line ∧ Fields line !! 1%nat = Some "put"
  ∧ length (Fields line) = 5%nat
  ∧ is_Some (Fields line !! 0%nat ≫= ParseInt)
  ∧ Fields line !! 4%nat ≫= ParseInt = None.
Proof.
  split_fields line; repeat case_match; iff_cases.
Qed.

Lemma parse_lines_Forall lines :
  (∃ evs, parse_lines lines = inr evs) ↔
  Forall (λ line, malformed line = false) lines.
Proof.
  split.
  - intros [evs Hevs]. revert evs Hevs.
    induction lines as [|line lines IH]; intros evs Hevs; [constructor|].
    simpl in Hevs. destruct (parse_line line) as [|ev] eqn:Hev; [done|].
    destruct (parse_lines lines) as [|evs'] eqn:Hevs'; [done|].
    constructor; [|by eapply IH].
    destruct (malformed line) eqn:Hm; [|done].
    destruct (malformed_true line Hm) as [e He]. congruence.
  - apply parse_lines_wellformed.
Qed.

(** *** The keys of the registry *)

Lemma key_app_inj k1 k2 sfx : k1 +:+ sfx = k2 +:+ sfx → k1 = k2.
Proof.
  intros H. apply (f_equal String.list_ascii_of_string) in H.
  assert (Happ : ∀ a b, list_ascii_of_string (a +:+ b)
                  = list_ascii_of_string a ++ list_ascii_of_string b).
  { intros a b. induction a as [|c a IH]; simpl; [done|]. by rewrite IH. }
  rewrite !Happ in H. apply app_inv_tail in H.
  rewrite <- (string_of_list_ascii_of_string k1),
          <- (string_of_list_ascii_of_string k2). by rewrite H.
Qed.

Lemma action_key_inj a1 a2 : action_key a1 = action_key a2 → a1 = a2.
Proof. apply key_app_inj. Qed.

Lemma data_key_inj d1 d2 : data_key d1 = data_key d2 → d1 = d2.
Proof. apply key_app_inj. Qed.

Lemma put_entries_dom s t a d sz :
  dom (Simple.cache (SimpleView.put_entries s t a d sz))
  = dom (Simple.cache s) ∪ {[action_key a; data_key d]}.
Proof.
  unfold SimpleView.put_entries.
  destruct (Simple.cache s !! data_key d) as [pd|] eqn:Hd; simpl.
  - apply elem_of_dom_2 in Hd.
    destruct (Simple.cache s !! action_key a) as [pa|] eqn:Ha; simpl.
    + apply elem_of_dom_2 in Ha. set_solver.
    + rewrite dom_insert_L. set_solver.
  - rewrite SimpleFacts.lookup_action_insert_data.
    destruct (Simple.cache s !! action_key a) as [pa|] eqn:Ha; simpl.
    + apply elem_of_dom_2 in Ha. rewrite dom_insert_L. set_solver.
    + rewrite !dom_insert_L. set_solver.
Qed.

Lemma reuse_known_cache s t p :
  Simple.cache (SimpleView.reuse_known s t p) = Simple.cache s.
Proof.
  unfold SimpleView.reuse_known. repeat case_match; try done.
  apply SimpleFacts.reuse_entries_cache.
Qed.

Lemma next_dom s ev :
  dom (Simple.cache (SimpleView.next s ev))
  = dom (Simple.cache s) ∪ event_keys ev.
Proof.
  destruct ev as [|t a d sz|t a|t]; simpl.
  - set_solver.
  - by rewrite put_entries_dom.
  - destruct (Simple.cache s !! action_key a); simpl;
      rewrite ?reuse_known_cache; simpl; set_solver.
  - set_solver.
Qed.

Lemma foldl_next_dom evs s :
  dom (Simple.cache (foldl SimpleView.next s evs))
  = dom (Simple.cache s) ∪ ⋃ (event_keys <$> evs).
Proof.
  revert s. induction evs as [|ev evs IH]; intros s; simpl.
  - set_solver.
  - rewrite IH, next_dom. set_solver.
Qed.

Lemma line_keys_events lines evs :
  parse_lines lines = inr evs →
  ⋃ (line_keys <$> lines) = ⋃ (event_keys <$> evs).
Proof.
  revert evs. induction lines as [|line lines IH]; intros evs Hevs.
  - by injection Hevs as <-.
  - simpl in Hevs. rewrite fmap_cons, union_list_cons. unfold line_keys at 1.
    destruct (parse_line line) as [|ev] eqn:Hev; [done|].
    destruct (parse_lines lines) as [|evs']; [done|]. injection Hevs as <-.
    rewrite fmap_cons, union_list_cons, (IH evs') by done. by destruct ev.
Qed.

Lemma run_dom lines s :
  Simple.run lines = Ok s → dom (Simple.cache s) = ⋃ (line_keys <$> lines).
Proof.
  intros (evs & Hevs & ->)%SimpleFacts.run_Ok.
  rewrite foldl_next_dom, (line_keys_events _ _ Hevs). simpl. set_solver.
Qed.

Lemma elem_of_line_keys k lines :
  k ∈ ⋃ (line_keys <$> lines) ↔
  (∃ a, k = action_key a ∧ a ∈ named_actions lines)
  ∨ (∃ d, k = data_key d ∧ d ∈ named_datas lines).
Proof.
  unfold named_actions, named_datas.
  induction lines as [|line lines IH].
  - set_solver.
  - rewrite !fmap_cons, !union_list_cons.
    setoid_rewrite elem_of_union. rewrite IH.
    unfold line_keys, line_action, line_data.
    destruct (parse_line line) as [|[|t a d sz|t a|t]]; set_solver.
Qed.

Lemma action_named lines s a :
  Simple.run lines = Ok s →
  is_Some (Simple.cache s !! action_key a) ↔ a ∈ named_actions lines.
Proof.
  intros Hs. rewrite <- elem_of_dom, (run_dom _ _ Hs), elem_of_line_keys.
  split.
  - intros [(a' & ->%action_key_inj & H)|(d & Heq & _)]; [done|].
    by apply action_key_ne_data_key in Heq.
  - intros H. left. eauto.
Qed.

Lemma data_named lines s d :
  Simple.run lines = Ok s →
  is_Some (Simple.cache s !! data_key d) ↔ d ∈ named_datas lines.
Proof.
  intros Hs. rewrite <- elem_of_dom, (run_dom _ _ Hs), elem_of_line_keys.
  split.
  - intros [(a & Heq & _)|(d' & ->%data_key_inj & H)]; [|done].
    symmetry in Heq. by apply action_key_ne_data_key in Heq.
  - intros H. right. eauto.
Qed.

(** *** Keys and entries correspond one to one *)

Lemma bijection_insert (c : gmap string addr) n k :
  registry_bijection c n → c !! k = None →
  registry_bijection (<[k := n]> c) (S n).
Proof.
  intros (Hlt & Hinj & Hsurj) Hk. split; [|split].
  - intros k' p. destruct (decide (k = k')) as [->|Hne].
    + rewrite lookup_insert_eq. intros [= <-]. lia.
    + rewrite lookup_insert_ne by done. intros H%Hlt. lia.
  - intros k1 k2 p.
    destruct (decide (k = k1)) as [<-|Hne1], (decide (k = k2)) as [<-|Hne2];
      rewrite ?lookup_insert_eq, ?lookup_insert_ne by done; try done.
    + intros [= <-] H%Hlt. lia.
    + intros H%Hlt [= <-]. lia.
    + apply Hinj.
  - intros p Hp. destruct (decide (p = n)) as [->|Hne].
    + exists k. apply lookup_insert_eq.
    + destruct (Hsurj p) as [k' Hk']; [lia|]. exists k'.
      rewrite lookup_insert_ne; [done|]. intros ->. congruence.
Qed.

Lemma put_entries_bijection s t a d sz :
  registry_bijection (Simple.cache s) (length (Simple.heap s)) →
  registry_bijection (Simple.cache (SimpleView.put_entries s t a d sz))
    (length (Simple.heap (SimpleView.put_entries s t a d sz))).
Proof.
  intros Hb. unfold SimpleView.put_entries.
  destruct (Simple.cache s !! data_key d) as [pd|] eqn:Hd; simpl.
  - destruct (Simple.cache s !! action_key a) as [pa|] eqn:Ha; simpl; [done|].
    rewrite length_app. simpl. rewrite Nat.add_1_r.
    by apply bijection_insert.
  - rewrite SimpleFacts.lookup_action_insert_data.
    pose proof (bijection_insert _ _ _ Hb Hd) as Hb1.
    destruct (Simple.cache s !! action_key a) as [pa|] eqn:Ha; simpl;
      rewrite !length_app; simpl; rewrite !Nat.add_1_r; [done|].
    apply bijection_insert; [done|].
    by rewrite SimpleFacts.lookup_action_insert_data.
Qed.

Lemma reuse_known_heap_length s t p :
  length (Simple.heap (SimpleView.reuse_known s t p)) = length (Simple.heap s).
Proof.
  unfold SimpleView.reuse_known, SimpleView.reuse_entries.
  repeat case_match; simpl; by rewrite ?length_insert.
Qed.

Lemma next_bijection s ev :
  registry_bijection (Simple.cache s) (length (Simple.heap s)) →
  registry_bijection (Simple.cache (SimpleView.next s ev))
    (length (Simple.heap (SimpleView.next s ev))).
Proof.
  intros Hb. destruct ev as [|t a d sz|t a|t]; simpl; try done.
  - by apply (put_entries_bijection (SimpleView.tick s t)).
  - destruct (Simple.cache s !! action_key a); [|done].
    by rewrite reuse_known_cache, reuse_known_heap_length.
Qed.

Lemma run_bijection lines s :
  Simple.run lines = Ok s →
  registry_bijection (Simple.cache s) (length (Simple.heap s)).
Proof.
  intros (evs & _ & ->)%SimpleFacts.run_Ok.
  assert (H : registry_bijection (Simple.cache Simple.init)
                (length (Simple.heap Simple.init))).
  { split; [|split]; simpl; intros *; rewrite ?lookup_empty; try done. lia. }
  revert H. generalize Simple.init.
  induction evs as [|ev evs IH]; intros s H; simpl; [done|].
  by apply IH, next_bijection.
Qed.

(** *** From a prefix of a log to the whole *)

Lemma run_app_inv l1 l2 s :
  Simple.run (l1 ++ l2) = Ok s →
  ∃ s1 evs, Simple.run l1 = Ok s1 ∧ SimpleView.wf s1
            ∧ parse_lines l2 = inr evs ∧ s = foldl SimpleView.next s1 evs.
Proof.
  unfold Simple.run. rewrite scan_app. intros H.
  destruct (scan Simple.process_line Simple.init l1) as [s1| |] eqn:Hs1; [|done..].
  simpl in H. pose proof (SimpleFacts.run_wf l1) as Hwf.
  unfold Simple.run in Hwf. rewrite Hs1 in Hwf.
  rewrite SimpleFacts.scan_next in H by done.
  destruct (parse_lines l2) as [|evs]; [done|]. injection H as <-.
  by exists s1, evs.
Qed.

Lemma foldl_next_heap_le evs s :
  SimpleView.wf s →
  SimpleView.heap_le (Simple.heap s) (Simple.heap (foldl SimpleView.next s evs)).
Proof.
  revert s. induction evs as [|ev evs IH]; intros s Hwf; simpl.
  - apply SimpleFacts.heap_le_refl.
  - eapply SimpleFacts.heap_le_trans; [by apply SimpleFacts.next_heap_le|].
    by apply IH, SimpleFacts.next_wf.
Qed.

Lemma put_entries_new_data s t a d sz :
  Simple.cache s !! data_key d = None →
  ∃ pd,
    Simple.cache (SimpleView.put_entries s t a d sz) !! data_key d = Some pd
    ∧ Simple.heap s !! pd = None
    ∧ Simple.heap (SimpleView.put_entries s t a d sz) !! pd
      = Some (Simple.Entry t sz false None).
Proof.
  intros Hd. unfold SimpleView.put_entries. rewrite Hd. simpl.
  rewrite SimpleFacts.lookup_action_insert_data.
  exists (length (Simple.heap s)).
  destruct (Simple.cache s !! action_key a) as [pa|] eqn:Ha; simpl.
  - rewrite lookup_insert_eq. split; [done|].
    split; [by apply lookup_ge_None_2|]. by apply list_lookup_middle.
  - rewrite lookup_insert_ne by apply action_key_ne_data_key.
    rewrite lookup_insert_eq. split; [done|].
    split; [by apply lookup_ge_None_2|].
    apply lookup_app_l_Some. by apply list_lookup_middle.
Qed.

Lemma samples_prefix_next s ev :
  Simple.reuseA s `prefix_of` Simple.reuseA (SimpleView.next s ev)
  ∧ Simple.reuseD s `prefix_of` Simple.reuseD (SimpleView.next s ev).
Proof.
  destruct ev; simpl;
    unfold SimpleView.reuse_known, SimpleView.reuse_entries,
      SimpleView.put_entries;
    repeat case_match; simpl; split; try done; by apply prefix_app_r.
Qed.

Lemma samples_prefix_foldl evs s :
  Simple.reuseA s `prefix_of` Simple.reuseA (foldl SimpleView.next s evs)
  ∧ Simple.reuseD s `prefix_of` Simple.reuseD (foldl SimpleView.next s evs).
Proof.
  revert s. induction evs as [|ev evs IH]; intros s; simpl; [done|].
  destruct (samples_prefix_next s ev) as [HA HD].
  destruct (IH (SimpleView.next s ev)) as [HA' HD'].
  split; by etrans.
Qed.

Lemma deltas_prefix_next s ev :
  Extended.reuseDeltaA s `prefix_of` Extended.reuseDeltaA (ExtendedView.next s ev)
  ∧ Extended.reuseDeltaD s
    `prefix_of` Extended.reuseDeltaD (ExtendedView.next s ev).
Proof.
  destruct ev; simpl;
    unfold ExtendedView.reuse_known, ExtendedView.reuse_entries,
      ExtendedView.put_entries;
    repeat case_match; simpl; split; try done; by apply prefix_app_r.
Qed.

Lemma deltas_prefix_foldl evs s :
  Extended.reuseDeltaA s
    `prefix_of` Extended.reuseDeltaA (foldl ExtendedView.next s evs)
  ∧ Extended.reuseDeltaD s
    `prefix_of` Extended.reuseDeltaD (foldl ExtendedView.next s evs).
Proof.
  revert s. induction evs as [|ev evs IH]; intros s; simpl; [done|].
  destruct (deltas_prefix_next s ev) as [HA HD].
  destruct (IH (ExtendedView.next s ev)) as [HA' HD'].
  split; by etrans.
Qed.

Lemma run_app_inv_x l1 l2 sx :
  Extended.run (l1 ++ l2) = Ok sx →
  ∃ sx1 evs, Extended.run l1 = Ok sx1 ∧ parse_lines l2 = inr evs
             ∧ sx = foldl ExtendedView.next sx1 evs.
Proof.
  intros (evs & Hevs & ->)%SimFacts.run_Ok_x.
  rewrite parse_lines_app in Hevs.
  destruct (parse_lines l1) as [|evs1] eqn:H1; [done|].
  destruct (parse_lines l2) as [|evs2] eqn:H2; [done|]. injection Hevs as <-.
  exists (foldl ExtendedView.next Extended.init evs1), evs2.
  split; [apply SimFacts.run_Ok_x; eauto|]. split; [done|].
  by rewrite foldl_app.
Qed.

(** *** Timestamps are in range *)

Lemma digit_val_range c d : digit_val c = Some d → 0 <= d <= 9.
Proof.
  unfold digit_val.
  destruct ((48 <=? Z.of_N (N_of_ascii c)) && (Z.of_N (N_of_ascii c) <=? 57))
    eqn:H; [|done].
  apply andb_true_iff in H as [H1%Z.leb_le H2%Z.leb_le]. intros [= <-]. lia.
Qed.

Lemma parse_digits_nonneg s acc z :
  0 <= acc → parse_digits s acc = Some z → 0 <= z.
Proof.
  revert acc. induction s as [|c s IH]; intros acc Hacc; simpl.
  - by intros [= <-].
  - destruct (digit_val c) as [d|] eqn:Hd; [|done].
    apply digit_val_range in Hd. apply IH. lia.
Qed.

Lemma parse_unsigned_nonneg s z : parse_unsigned s = Some z → 0 <= z.
Proof.
  unfold parse_unsigned. destruct s; [done|]. by apply parse_digits_nonneg.
Qed.

Lemma ParseInt_range s z : ParseInt s = Some z → in_int64 z.
Proof.
  unfold ParseInt, in_int64, minInt64, maxInt64. destruct s as [|c r]; [done|].
  destruct (Ascii.eqb c "+"); [|destruct (Ascii.eqb c "-")].
  - destruct (parse_unsigned r) as [un|] eqn:Hun; [|done].
    apply parse_unsigned_nonneg in Hun.
    destruct (Z.ltb_spec un (2 ^ 63)); [|done]. intros [= <-]. lia.
  - destruct (parse_unsigned r) as [un|] eqn:Hun; [|done].
    apply parse_unsigned_nonneg in Hun.
    destruct (Z.leb_spec un (2 ^ 63)); [|done]. intros [= <-]. lia.
  - destruct (parse_unsigned (String c r)) as [un|] eqn:Hun; [|done].
    apply parse_unsigned_nonneg in Hun.
    destruct (Z.ltb_spec un (2 ^ 63)); [|done]. intros [= <-]. lia.
Qed.

Lemma parse_line_time_range line ev t :
  parse_line line = inr ev → event_time ev = Some t → in_int64 t.
Proof.
  intros Hev Ht. rewrite <- (parse_line_time _ _ Hev) in Ht.
  unfold line_time in Ht. destruct (Fields line); [done|].
  by eapply ParseInt_range.
Qed.

Lemma parse_lines_time_range lines evs :
  parse_lines lines = inr evs →
  Forall (λ t, t <= maxInt64) (omap event_time evs).
Proof.
  revert evs. induction lines as [|line lines IH]; intros evs Hevs.
  - injection Hevs as <-. constructor.
  - simpl in Hevs. destruct (parse_line line) as [|ev] eqn:Hev; [done|].
    destruct (parse_lines lines) as [|evs']; [done|]. injection Hevs as <-.
    change (omap event_time (ev :: evs'))
      with (match event_time ev with
            | Some t => t :: omap event_time evs'
            | None => omap event_time evs'
            end).
    destruct (event_time ev) as [t|] eqn:Ht; [|by apply IH].
    constructor; [|by apply IH].
    by destruct (parse_line_time_range _ _ _ Hev Ht).
Qed.

(** *** A log in time order *)

Lemma chrono_tick s t :
  chrono_inv s → Simple.lastTime s <= t <= maxInt64 →
  chrono_inv (SimpleView.tick s t).
Proof.
  intros (HT & Hh & Hd & HA & HAD & HD) Ht. unfold chrono_inv. simpl.
  split; [lia|]. split; [|split; [done|split; [done|split; [done|]]]].
  - eapply Forall_impl; [done|]. simpl. intros e ?. lia.
  - eapply Forall_impl; [done|]. simpl. intros x ?. lia.
Qed.

Lemma chrono_insert_data s k t sz :
  chrono_inv s → Simple.lastTime s = t →
  chrono_inv (Simple.add_totalD
                (Simple.insert_new s k (Simple.Entry t sz false None)) sz).
Proof.
  intros (HT & Hh & Hd & HA & HAD & HD) Ht. unfold chrono_inv. simpl.
  split; [done|]. split; [|split; [|done]].
  - apply Forall_app. split; [done|]. constructor; [simpl; lia|constructor].
  - intros p e d [[Hlt Hp]|[_ <-]]%lookup_snoc_Some He; [|done].
    destruct (Hd p e d Hp He) as (ed & Hed & Hle). exists ed.
    split; [by apply lookup_app_l_Some|done].
Qed.

Lemma chrono_insert_action s k t pd :
  chrono_inv s → Simple.lastTime s = t → (pd < length (Simple.heap s))%nat →
  chrono_inv (Simple.add_totalA
                (Simple.insert_new s k (Simple.Entry t 154 false (Some pd))) 154).
Proof.
  intros (HT & Hh & Hd & HA & HAD & HD) Ht Hpd. unfold chrono_inv. simpl.
  split; [done|]. split; [|split; [|done]].
  - apply Forall_app. split; [done|]. constructor; [simpl; lia|constructor].
  - intros p e d [[Hlt Hp]|[_ <-]]%lookup_snoc_Some He.
    + destruct (Hd p e d Hp He) as (ed & Hed & Hle). exists ed.
      split; [by apply lookup_app_l_Some|done].
    + simpl in He. injection He as <-.
      destruct (lookup_lt_is_Some_2 _ _ Hpd) as [ed Hed]. exists ed.
      split; [by apply lookup_app_l_Some|]. simpl.
      rewrite Forall_forall in Hh.
      assert (Hin : ed ∈ Simple.heap s) by by eapply list_elem_of_lookup_2.
      specialize (Hh ed Hin). simpl in Hh. lia.
Qed.

Lemma chrono_put_entries s t a d sz :
  SimpleView.wf s → chrono_inv s → Simple.lastTime s = t →
  chrono_inv (SimpleView.put_entries s t a d sz).
Proof.
  intros Hwf Hinv Ht. unfold SimpleView.put_entries.
  destruct (Simple.cache s !! data_key d) as [pd|] eqn:Hd; simpl.
  - destruct (Simple.cache s !! action_key a) as [pa|] eqn:Ha; simpl; [done|].
    apply chrono_insert_action; [done..|].
    destruct (Hwf _ _ Hd) as (ed & Hed & _). by eapply lookup_lt_Some.
  - rewrite SimpleFacts.lookup_action_insert_data.
    pose proof (chrono_insert_data s (data_key d) t sz Hinv Ht) as Hinv1.
    destruct (Simple.cache s !! action_key a) as [pa|] eqn:Ha; simpl; [done|].
    apply chrono_insert_action; [done|done|].
    simpl. rewrite length_app. simpl. lia.
Qed.

Lemma chrono_mark (h : list Simple.entry) q x T :
  h !! q = Some x →
  (Forall (λ e, 0 <= Simple.created e <= T) h
   ∧ (∀ p e d, h !! p = Some e → Simple.data e = Some d →
        ∃ ed, h !! d = Some ed ∧ Simple.created ed <= Simple.created e)) →
  Forall (λ e, 0 <= Simple.created e <= T) (<[q := Simple.mark_reused x]> h)
  ∧ (∀ p e d, <[q := Simple.mark_reused x]> h !! p = Some e →
       Simple.data e = Some d →
       ∃ ed, <[q := Simple.mark_reused x]> h !! d = Some ed
             ∧ Simple.created ed <= Simple.created e).
Proof.
  intros Hq [Hh Hd].
  assert (Hlt : (q < length h)%nat) by by eapply lookup_lt_Some.
  assert (Hold : ∀ p e, <[q := Simple.mark_reused x]> h !! p = Some e →
            ∃ e0, h !! p = Some e0 ∧ Simple.created e = Simple.created e0
                  ∧ Simple.data e = Simple.data e0).
  { intros p e. destruct (decide (p = q)) as [->|Hne].
    - rewrite list_lookup_insert_eq by done. intros [= <-]. by exists x.
    - rewrite list_lookup_insert_ne by done. intros Hp. by exists e. }
  assert (Hnew : ∀ p e0, h !! p = Some e0 →
            ∃ e, <[q := Simple.mark_reused x]> h !! p = Some e
                 ∧ Simple.created e = Simple.created e0).
  { intros p e0 Hp. destruct (decide (p = q)) as [->|Hne].
    - exists (Simple.mark_reused x). rewrite list_lookup_insert_eq by done.
      split; [done|]. simpl. congruence.
    - exists e0. by rewrite list_lookup_insert_ne. }
  split.
  - apply Forall_insert; [done|]. simpl. rewrite Forall_forall in Hh.
    apply Hh. by eapply list_elem_of_lookup_2.
  - intros p e d Hp He. destruct (Hold p e Hp) as (e0 & Hp0 & Hc & Hdt).
    rewrite Hdt in He. destruct (Hd p e0 d Hp0 He) as (ed0 & Hed0 & Hle).
    destruct (Hnew d ed0 Hed0) as (ed & Hed & Hced). exists ed.
    split; [done|]. lia.
Qed.

Lemma chrono_reuse_known s t a p :
  SimpleView.wf s → chrono_inv s → Simple.lastTime s = t →
  Simple.cache s !! action_key a = Some p →
  chrono_inv (SimpleView.reuse_known s t p).
Proof.
  intros Hwf (HT & Hh & Hd & HA & HAD & HD) Ht Hk.
  destruct (SimpleFacts.wf_known s a p Hwf Hk)
    as (e & d & ed & Hp & Hdt & Hed & _ & Hne).
  unfold SimpleView.reuse_known. rewrite Hp, Hdt, Hed.
  destruct (Hd p e d Hp Hdt) as (ed' & Hed' & Hle).
  assert (ed' = ed) as -> by congruence.
  pose proof Hh as Hh'. rewrite Forall_forall in Hh'.
  assert (He : 0 <= Simple.created e <= t).
  { rewrite <- Ht. apply Hh'. by eapply list_elem_of_lookup_2. }
  assert (Hede : 0 <= Simple.created ed <= t).
  { rewrite <- Ht. apply Hh'. by eapply list_elem_of_lookup_2. }
  assert (HsA : int_of_int64 (sub64 t (Simple.created e)) = t - Simple.created e).
  { unfold int_of_int64, sub64.
    rewrite (wrap64_id (t - Simple.created e))
      by (unfold in_int64, minInt64, maxInt64 in *; lia).
    apply wrap64_id. unfold in_int64, minInt64, maxInt64 in *; lia. }
  assert (HsD : int_of_int64 (sub64 t (Simple.created ed))
                = t - Simple.created ed).
  { unfold int_of_int64, sub64.
    rewrite (wrap64_id (t - Simple.created ed))
      by (unfold in_int64, minInt64, maxInt64 in *; lia).
    apply wrap64_id. unfold in_int64, minInt64, maxInt64 in *; lia. }
  unfold chrono_inv.
  destruct (SimpleFacts.reuse_entries_fields s t p e d ed)
    as (_ & _ & _ & -> & _ & -> & -> & _ & _).
  rewrite SimpleFacts.reuse_entries_heap by done. rewrite HsA, HsD.
  split; [done|].
  destruct (chrono_mark (Simple.heap s) p e (Simple.lastTime s) Hp
              (conj Hh Hd)) as [Hh1 Hd1].
  destruct (chrono_mark (<[p := Simple.mark_reused e]> (Simple.heap s)) d ed
              (Simple.lastTime s)) as [Hh2 Hd2];
    [by rewrite list_lookup_insert_ne|done|].
  split; [done|]. split; [done|].
  split; [apply Forall_app; split; [done|]; constructor; [lia|constructor]|].
  split; [apply Forall2_app; [done|]; constructor; [lia|constructor]|].
  apply Forall_app; split; [done|]. constructor; [lia|constructor].
Qed.

Lemma next_chrono s ev :
  SimpleView.wf s → chrono_inv s →
  (∀ t, event_time ev = Some t → Simple.lastTime s <= t <= maxInt64) →
  chrono_inv (SimpleView.next s ev).
Proof.
  intros Hwf Hinv Ht. destruct ev as [|t a d sz|t a|t]; simpl; [done|..].
  - apply chrono_put_entries; [done| |done].
    apply chrono_tick; [done|]. by apply Ht.
  - pose proof (chrono_tick s t Hinv (Ht t eq_refl)) as Hinv1.
    destruct (Simple.cache s !! action_key a) as [p|] eqn:Hk; [|done].
    by apply (chrono_reuse_known (SimpleView.tick s t) t a p).
  - apply chrono_tick; [done|]. by apply Ht.
Qed.

Lemma foldl_next_chrono evs s :
  SimpleView.wf s → chrono_inv s →
  StronglySorted Z.le (Simple.lastTime s :: omap event_time evs) →
  Forall (λ t, t <= maxInt64) (omap event_time evs) →
  chrono_inv (foldl SimpleView.next s evs).
Proof.
  revert s. induction evs as [|ev evs IH]; intros s Hwf Hinv Hsorted Hrange;
    [done|].
  cbn [foldl].
  change (omap event_time (ev :: evs))
    with (match event_time ev with
          | Some t => t :: omap event_time evs
          | None => omap event_time evs
          end) in *.
  apply IH.
  - by apply SimpleFacts.next_wf.
  - apply next_chrono; [done..|]. intros t Ht. rewrite Ht in *.
    apply StronglySorted_inv in Hsorted as [_ Hall].
    apply Forall_inv in Hall. apply Forall_inv in Hrange. lia.
  - rewrite SimpleFacts.next_lastTime.
    destruct (event_time ev) as [t|]; simpl; [|done].
    by apply StronglySorted_inv in Hsorted as [? _].
  - destruct (event_time ev) as [t|]; [by eapply Forall_inv_tail|done].
Qed.

Lemma run_chrono lines s :
  Simple.run lines = Ok s → chronological lines → chrono_inv s.
Proof.
  intros (evs & Hevs & ->)%SimpleFacts.run_Ok Hc.
  unfold chronological in Hc. rewrite (parse_lines_timestamps _ _ Hevs) in Hc.
  apply foldl_next_chrono.
  - apply SimpleFacts.init_wf.
  - unfold chrono_inv, maxInt64. simpl.
    split; [lia|]. split; [constructor|]. split; [by intros p e d ?|].
    split; [constructor|]. split; constructor.
  - done.
  - by eapply parse_lines_time_range.
Qed.

Lemma chrono_tick_x s t :
  chrono_inv_x s → Extended.lastTime s <= t <= maxInt64 →
  chrono_inv_x (ExtendedView.tick s t).
Proof.
  intros (HT & Hh & HA & HD & HAA & HDD) Ht. unfold chrono_inv_x. simpl.
  split; [lia|]. split; [|done].
  eapply Forall_impl; [done|]. simpl. intros e ?. lia.
Qed.

Lemma chrono_insert_x s t sz dt :
  chrono_inv_x s → Extended.lastTime s = t →
  Forall (λ e, 0 <= Extended.created e <= Extended.lastTime s
               ∧ (Extended.lastReused e = 0
                  ∨ Extended.created e <= Extended.lastReused e
                                       <= Extended.lastTime s))
    (Extended.heap s ++ [Extended.Entry t 0 sz false dt]).
Proof.
  intros (HT & Hh & _) Ht. apply Forall_app. split; [done|].
  constructor; [simpl; split; [lia|by left]|constructor].
Qed.

Lemma chrono_put_entries_x s t a d sz :
  chrono_inv_x s → Extended.lastTime s = t →
  chrono_inv_x (ExtendedView.put_entries s t a d sz).
Proof.
  intros Hinv Ht. unfold ExtendedView.put_entries.
  assert (Hinv1 : chrono_inv_x
            (Extended.add_totalD
               (Extended.insert_new s (data_key d)
                  (Extended.Entry t 0 sz false None)) sz)).
  { pose proof (chrono_insert_x s t sz None Hinv Ht) as Hh.
    destruct Hinv as (HT & _ & Hrest). by split. }
  destruct (Extended.cache s !! data_key d) as [pd|] eqn:Hd; simpl.
  - destruct (Extended.cache s !! action_key a) as [pa|] eqn:Ha; simpl; [done|].
    pose proof (chrono_insert_x s t 154 (Some pd) Hinv Ht) as Hh.
    destruct Hinv as (HT & _ & Hrest). by split.
  - case_match; [done|].
    pose proof (chrono_insert_x _ t 154
                  (Some (length (Extended.heap s))) Hinv1 Ht) as Hh.
    destruct Hinv1 as (HT & _ & Hrest). by split.
Qed.

Lemma chrono_reuse_known_x s t p :
  chrono_inv_x s → Extended.lastTime s = t →
  chrono_inv_x (ExtendedView.reuse_known s t p).
Proof.
  intros Hinv Ht. unfold ExtendedView.reuse_known.
  destruct (Extended.heap s !! p) as [e|] eqn:Hp; [|done].
  destruct (Extended.data e) as [d|] eqn:Hdt; [|done].
  destruct (Extended.heap s !! d) as [ed|] eqn:Hed; [|done].
  destruct Hinv as (HT & Hh & HA & HD & HAA & HDD).
  pose proof Hh as Hh'. rewrite Forall_forall in Hh'.
  assert (He : 0 <= Extended.created e <= t
               ∧ (Extended.lastReused e = 0
                  ∨ Extended.created e <= Extended.lastReused e <= t)).
  { rewrite <- Ht. apply Hh'. by eapply list_elem_of_lookup_2. }
  assert (Hede : 0 <= Extended.created ed <= t
               ∧ (Extended.lastReused ed = 0
                  ∨ Extended.created ed <= Extended.lastReused ed <= t)).
  { rewrite <- Ht. apply Hh'. by eapply list_elem_of_lookup_2. }
  assert (Hsub : ∀ b, 0 <= b <= t → int_of_int64 (sub64 t b) = t - b).
  { intros b Hb. unfold int_of_int64, sub64.
    rewrite (wrap64_id (t - b))
      by (unfold in_int64, minInt64, maxInt64 in *; lia).
    apply wrap64_id. unfold in_int64, minInt64, maxInt64 in *; lia. }
  assert (Hbase : ∀ x : Extended.entry,
            0 <= Extended.created x <= t
            ∧ (Extended.lastReused x = 0
               ∨ Extended.created x <= Extended.lastReused x <= t) →
            Extended.created x <= ExtendedView.reuse_base x <= t).
  { intros x Hx. unfold ExtendedView.reuse_base.
    destruct (Z.eqb_spec (Extended.lastReused x) 0); lia. }
  pose proof (Hbase e He) as Hbe. pose proof (Hbase ed Hede) as Hbed.
  unfold chrono_inv_x.
  destruct (ExtendedFacts.reuse_entries_fields_x s t p e d ed)
    as (_ & _ & _ & -> & _ & -> & -> & -> & -> & _ & _ & ->).
  rewrite !Hsub by lia.
  split; [done|]. split.
  - apply Forall_insert; [apply Forall_insert; [done|]|]; simpl; lia.
  - split; [apply Forall_app; split; [done|]; constructor; [lia|constructor]|].
    split; [apply Forall_app; split; [done|]; constructor; [lia|constructor]|].
    split; (apply Forall2_app; [done|]; constructor; [lia|constructor]).
Qed.

Lemma next_lastTime_x s ev :
  Extended.lastTime (ExtendedView.next s ev)
  = default (Extended.lastTime s) (event_time ev).
Proof.
  destruct ev as [|t a d sz|t a|t]; simpl; [done| | |done].
  - unfold ExtendedView.put_entries. by repeat case_match.
  - destruct (Extended.cache s !! action_key a) as [p|]; [|done].
    unfold ExtendedView.reuse_known. simpl. repeat case_match; try done.
    by destruct (ExtendedFacts.reuse_entries_fields_x
                   (ExtendedView.tick s t) t p e n e0)
      as (_ & _ & _ & -> & _).
Qed.

Lemma next_chrono_x s ev :
  chrono_inv_x s →
  (∀ t, event_time ev = Some t → Extended.lastTime s <= t <= maxInt64) →
  chrono_inv_x (ExtendedView.next s ev).
Proof.
  intros Hinv Ht. destruct ev as [|t a d sz|t a|t]; simpl; [done|..].
  - apply chrono_put_entries_x; [|done].
    apply chrono_tick_x; [done|]. by apply Ht.
  - pose proof (chrono_tick_x s t Hinv (Ht t eq_refl)) as Hinv1.
    destruct (Extended.cache s !! action_key a) as [p|] eqn:Hk; [|done].
    by apply chrono_reuse_known_x.
  - apply chrono_tick_x; [done|]. by apply Ht.
Qed.

Lemma foldl_next_chrono_x evs s :
  chrono_inv_x s →
  StronglySorted Z.le (Extended.lastTime s :: omap event_time evs) →
  Forall (λ t, t <= maxInt64) (omap event_time evs) →
  chrono_inv_x (foldl ExtendedView.next s evs).
Proof.
  revert s. induction evs as [|ev evs IH]; intros s Hinv Hsorted Hrange;
    [done|].
  cbn [foldl].
  change (omap event_time (ev :: evs))
    with (match event_time ev with
          | Some t => t :: omap event_time evs
          | None => omap event_time evs
          end) in *.
  apply IH.
  - apply next_chrono_x; [done|]. intros t Ht. rewrite Ht in *.
    apply StronglySorted_inv in Hsorted as [_ Hall].
    apply Forall_inv in Hall. apply Forall_inv in Hrange. lia.
  - rewrite next_lastTime_x.
    destruct (event_time ev) as [t|]; simpl; [|done].
    by apply StronglySorted_inv in Hsorted as [? _].
  - destruct (event_time ev) as [t|]; [by eapply Forall_inv_tail|done].
Qed.

Lemma run_chrono_x lines sx :
  Extended.run lines = Ok sx → chronological lines → chrono_inv_x sx.
Proof.
  intros (evs & Hevs & ->)%SimFacts.run_Ok_x Hc.
  unfold chronological in Hc. rewrite (parse_lines_timestamps _ _ Hevs) in Hc.
  apply foldl_next_chrono_x.
  - unfold chrono_inv_x, maxInt64. simpl.
    split; [lia|]. split; [constructor|].
    split; [constructor|]. split; [constructor|]. split; constructor.
  - done.
  - by eapply parse_lines_time_range.
Qed.

(** *** The totals *)

Lemma parse_lines_puts lines evs :
  parse_lines lines = inr evs → puts lines = omap event_put evs.
Proof.
  revert evs. induction lines as [|line lines IH]; intros evs; simpl.
  - by intros [= <-].
  - destruct (parse_line line) as [|ev] eqn:Hev; [done|].
    destruct (parse_lines lines) as [|evs']; [done|]. intros [= <-].
    unfold puts in *. simpl. unfold line_put at 1.
    rewrite Hev, (IH evs') by done. done.
Qed.

Lemma next_action_key s ev a :
  is_Some (Simple.cache (SimpleView.next s ev) !! action_key a) ↔
  is_Some (Simple.cache s !! action_key a)
  ∨ (∃ t d sz, ev = Put t a d sz).
Proof.
  rewrite <- !elem_of_dom, next_dom, elem_of_union.
  split; (intros [H|H]; [by left|right]).
  - destruct ev as [|t a' d sz|t a'|t]; simpl in H; [set_solver| |set_solver..].
    apply elem_of_union in H as [H%elem_of_singleton|H%elem_of_singleton].
    + apply action_key_inj in H as ->. eauto.
    + by apply action_key_ne_data_key in H.
  - destruct H as (t & d & sz & ->). simpl. set_solver.
Qed.

Lemma next_data_key s ev d :
  is_Some (Simple.cache (SimpleView.next s ev) !! data_key d) ↔
  is_Some (Simple.cache s !! data_key d)
  ∨ (∃ sz, event_put ev = Some (d, sz)).
Proof.
  rewrite <- !elem_of_dom, next_dom, elem_of_union.
  split; (intros [H|H]; [by left|right]).
  - destruct ev as [|t a d' sz|t a'|t]; simpl in H; [set_solver| |set_solver..].
    apply elem_of_union in H as [H%elem_of_singleton|H%elem_of_singleton].
    + symmetry in H. by apply action_key_ne_data_key in H.
    + apply data_key_inj in H as ->. simpl. eauto.
  - destruct H as (sz & H). destruct ev; simplify_eq/=. set_solver.
Qed.

Lemma next_totalA s ev :
  Simple.totalA (SimpleView.next s ev) =
    match ev with
    | Put _ a _ _ =>
        match Simple.cache s !! action_key a with
        | Some _ => Simple.totalA s
        | None => add64 (Simple.totalA s) 154
        end
    | _ => Simple.totalA s
    end.
Proof.
  destruct ev as [|t a d sz|t a|t]; simpl; [done| | |done].
  - by rewrite SimpleFacts.put_entries_totalA.
  - destruct (Simple.cache s !! action_key a) as [p|]; [|done].
    unfold SimpleView.reuse_known. simpl. repeat case_match; try done.
    by destruct (SimpleFacts.reuse_entries_fields
                   (SimpleView.tick s t) t p e n e0) as (-> & _).
Qed.

Lemma next_totalD s ev :
  Simple.totalD (SimpleView.next s ev) =
    match ev with
    | Put _ _ d sz =>
        match Simple.cache s !! data_key d with
        | Some _ => Simple.totalD s
        | None => add64 (Simple.totalD s) sz
        end
    | _ => Simple.totalD s
    end.
Proof.
  destruct ev as [|t a d sz|t a|t]; simpl; [done| | |done].
  - by rewrite SimpleFacts.put_entries_totalD.
  - destruct (Simple.cache s !! action_key a) as [p|]; [|done].
    unfold SimpleView.reuse_known. simpl. repeat case_match; try done.
    by destruct (SimpleFacts.reuse_entries_fields
                   (SimpleView.tick s t) t p e n e0) as (_ & -> & _).
Qed.

Lemma foldl_next_totalA evs s (A : gset string) :
  (∀ a, is_Some (Simple.cache s !! action_key a) ↔ a ∈ A) →
  Simple.totalA s = wrap64 (154 * Z.of_nat (size A)) →
  ∃ A' : gset string,
    (∀ a, is_Some (Simple.cache (foldl SimpleView.next s evs) !! action_key a)
          ↔ a ∈ A')
    ∧ Simple.totalA (foldl SimpleView.next s evs)
      = wrap64 (154 * Z.of_nat (size A')).
Proof.
  revert s A. induction evs as [|ev evs IH]; intros s A HA Ht; simpl.
  - by exists A.
  - assert (Hsame : (∀ t a d sz, ev = Put t a d sz → a ∈ A) →
              ∃ A' : gset string,
                (∀ a, is_Some (Simple.cache
                        (foldl SimpleView.next (SimpleView.next s ev) evs)
                        !! action_key a) ↔ a ∈ A')
                ∧ Simple.totalA
                    (foldl SimpleView.next (SimpleView.next s ev) evs)
                  = wrap64 (154 * Z.of_nat (size A'))).
    { intros Hold. apply (IH _ A).
      - intros a'. rewrite next_action_key, HA. split; [|by left].
        intros [?|(t & d & sz & ->)]; [done|]. by eapply Hold.
      - rewrite next_totalA. destruct ev as [|t a d sz|t a|t]; try done.
        destruct (Simple.cache s !! action_key a) as [p|] eqn:Hk; [done|].
        assert (Hin : a ∈ A) by by eapply Hold.
        apply HA in Hin as [p Hp]. congruence. }
    destruct ev as [|t a d sz|t a|t]; try (by apply Hsame).
    destruct (decide (a ∈ A)) as [Hin|Hnew].
    { apply Hsame. by intros ? ? ? ? [= _ <- _ _]. }
    clear Hsame. apply (IH _ ({[a]} ∪ A)).
    + intros a'. rewrite next_action_key, HA. split.
      * intros [?|(? & ? & ? & [= <-])]; set_solver.
      * intros [->%elem_of_singleton|?]%elem_of_union; [right; eauto|by left].
    + rewrite next_totalA.
      destruct (Simple.cache s !! action_key a) as [p|] eqn:Hk.
      { exfalso. apply Hnew, HA. by exists p. }
      rewrite Ht. unfold add64. rewrite wrap64_add_l.
      rewrite size_union, size_singleton by set_solver. f_equal. lia.
Qed.

Lemma foldl_next_totalD evs s (D : gset string) x :
  (∀ d, is_Some (Simple.cache s !! data_key d) ↔ d ∈ D) →
  Simple.totalD s = wrap64 x →
  Simple.totalD (foldl SimpleView.next s evs)
  = wrap64 (x + sumZ (first_sizes D (omap event_put evs))).
Proof.
  revert s D x. induction evs as [|ev evs IH]; intros s D x HD Hx.
  - simpl. unfold sumZ. simpl. by rewrite Z.add_0_r.
  - cbn [foldl].
    change (omap event_put (ev :: evs))
      with (match event_put ev with
            | Some p => p :: omap event_put evs
            | None => omap event_put evs
            end).
    destruct (event_put ev) as [[d sz]|] eqn:Hput.
    + destruct ev as [|t a d' sz'|t a|t]; simpl in Hput; simplify_eq.
      cbn [first_sizes]. destruct (decide (d ∈ D)) as [Hin|Hnew].
      * apply (IH _ D x).
        -- intros d'. rewrite next_data_key, HD. split; [|by left].
           intros [?|(sz' & [= <- _])]; done.
        -- rewrite next_totalD. apply HD in Hin as [p Hp]. by rewrite Hp.
      * rewrite (IH _ ({[d]} ∪ D) (x + sz)).
        -- unfold sumZ. simpl. f_equal. lia.
        -- intros d'. rewrite next_data_key, HD. simpl. split.
           ++ intros [?|(sz' & [= <- _])]; set_solver.
           ++ intros [->%elem_of_singleton|?]%elem_of_union; [right; eauto|by left].
        -- rewrite next_totalD.
           destruct (Simple.cache s !! data_key d) as [p|] eqn:Hk.
           { exfalso. apply Hnew, HD. by exists p. }
           rewrite Hx. unfold add64. by rewrite wrap64_add_l.
    + apply (IH _ D x).
      * intros d'. rewrite next_data_key, HD, Hput. split; [|by left].
        intros [?|(sz' & ?)]; done.
      * rewrite next_totalD. by destruct ev.
Qed.

Lemma stored_new_action act t p :
  stored act (Simple.Entry t 154 false (Some p)) = if act then 154 else 0.
Proof. by destruct act. Qed.

Lemma stored_new_data act t sz :
  stored act (Simple.Entry t sz false None) = if act then 0 else sz.
Proof. by destruct act. Qed.

Lemma put_entries_totals s t a d sz n m :
  0 <= sz → totals_inv s n m →
  totals_inv (SimpleView.put_entries s t a d sz) (n + 154) (m + sz).
Proof.
  intros Hsz (HA & HD & Hpos & Hn & Hm).
  unfold totals_inv, stored_bytes in *.
  rewrite SimpleFacts.put_entries_totalA, SimpleFacts.put_entries_totalD.
  unfold SimpleView.put_entries.
  destruct (Simple.cache s !! data_key d) as [pd|] eqn:Hd; simpl;
    rewrite ?SimpleFacts.lookup_action_insert_data;
    destruct (Simple.cache s !! action_key a) as [pa|] eqn:Ha; simpl;
    rewrite ?sumZ_fmap_snoc, ?stored_new_action, ?stored_new_data;
    rewrite ?HA, ?HD; unfold add64; rewrite ?wrap64_add_l, ?Z.add_0_r;
    (split; [done|]); (split; [done|]);
    (split; [rewrite ?Forall_app; repeat split; try done;
             repeat constructor; simpl; lia|lia]).
Qed.

Lemma stored_mark act e :
  stored act (Simple.mark_reused e) = stored act e.
Proof. done. Qed.

Lemma reuse_known_totals s t a p n m :
  SimpleView.wf s → Simple.cache s !! action_key a = Some p →
  totals_inv s n m → totals_inv (SimpleView.reuse_known s t p) n m.
Proof.
  intros Hwf Hk (HA & HD & Hpos & Hn & Hm).
  destruct (SimpleFacts.wf_known s a p Hwf Hk)
    as (e & d & ed & Hp & Hdt & Hed & _ & Hne).
  unfold SimpleView.reuse_known. rewrite Hp, Hdt, Hed.
  unfold totals_inv, stored_bytes in *.
  destruct (SimpleFacts.reuse_entries_fields s t p e d ed)
    as (-> & -> & _).
  rewrite SimpleFacts.reuse_entries_heap by done.
  assert (Hed' : <[p := Simple.mark_reused e]> (Simple.heap s) !! d = Some ed)
    by by rewrite list_lookup_insert_ne.
  rewrite !(sumZ_insert _ _ d ed) by done.
  rewrite !(sumZ_insert _ _ p e) by done.
  rewrite !stored_mark.
  replace (sumZ (stored true <$> Simple.heap s) - stored true e + stored true e
           - stored true ed + stored true ed)
    with (sumZ (stored true <$> Simple.heap s)) by lia.
  replace (sumZ (stored false <$> Simple.heap s) - stored false e
           + stored false e - stored false ed + stored false ed)
    with (sumZ (stored false <$> Simple.heap s)) by lia.
  do 2 (split; [done|]). split; [|done].
  rewrite Forall_forall in Hpos.
  apply Forall_insert; [apply Forall_insert|]; simpl.
  - by apply Forall_forall.
  - apply Hpos. by eapply list_elem_of_lookup_2.
  - apply Hpos. by eapply list_elem_of_lookup_2.
Qed.

Lemma foldl_next_totals evs s n m :
  SimpleView.wf s → totals_inv s n m →
  Forall (λ p, 0 <= p.2) (omap event_put evs) →
  totals_inv (foldl SimpleView.next s evs)
    (n + 154 * Z.of_nat (length (omap event_put evs)))
    (m + sumZ ((omap event_put evs).*2)).
Proof.
  revert s n m. induction evs as [|ev evs IH]; intros s n m Hwf Hinv Hpos.
  - simpl. unfold sumZ. simpl. by rewrite Z.mul_0_r, !Z.add_0_r.
  - cbn [foldl].
    change (omap event_put (ev :: evs))
      with (match event_put ev with
            | Some p => p :: omap event_put evs
            | None => omap event_put evs
            end) in *.
    pose proof (SimpleFacts.next_wf s ev Hwf) as Hwf'.
    destruct ev as [|t a d sz|t a|t]; cbn [event_put] in *.
    + by apply IH.
    + apply Forall_cons in Hpos as [Hsz Hpos]. simpl in Hsz.
      specialize (IH _ (n + 154) (m + sz) Hwf'
                    (put_entries_totals (SimpleView.tick s t) t a d sz n m Hsz Hinv)
                    Hpos).
      cbn [length fmap list_fmap snd]. unfold sumZ in *. cbn [foldr].
      replace (n + 154 * Z.of_nat (S (length (omap event_put evs))))
        with (n + 154 + 154 * Z.of_nat (length (omap event_put evs))) by lia.
      by rewrite Z.add_assoc.
    + apply IH; [done| |done]. simpl.
      destruct (Simple.cache s !! action_key a) as [p|] eqn:Hk; [|done].
      by apply (reuse_known_totals (SimpleView.tick s t) t a p).
    + by apply IH.
Qed.

Lemma credit_le_stored act e :
  0 <= Simple.size e →
  0 <= SimpleView.credit act e <= stored act e.
Proof.
  unfold SimpleView.credit, stored.
  destruct (Simple.reused e), (Bool.eqb _ _); simpl; lia.
Qed.

Lemma reused_le_stored act h :
  Forall (λ e, 0 <= Simple.size e) h →
  0 <= SimpleView.reused_bytes act h <= stored_bytes act h.
Proof.
  unfold SimpleView.reused_bytes, stored_bytes, sumZ.
  induction 1 as [|e h He _ IH]; [simpl; lia|].
  rewrite !fmap_cons. cbn [foldr].
  pose proof (credit_le_stored act e He). lia.
Qed.

(** *** Sorting two sample sequences of which one is below the other *)

Lemma count_le_Permutation v l1 l2 : l1 ≡ₚ l2 → count_le v l1 = count_le v l2.
Proof. unfold count_le. by intros ->. Qed.

Lemma count_le_mono v l1 l2 :
  Forall2 Z.le l1 l2 → (count_le v l2 <= count_le v l1)%nat.
Proof.
  unfold count_le. induction 1 as [|x y l1 l2 Hxy _ IH]; [done|].
  rewrite !filter_cons.
  destruct (decide (y <= v)), (decide (x <= v)); simpl; lia.
Qed.

Lemma count_le_sorted v (l : list Z) k x :
  StronglySorted Z.le l → l !! k = Some x →
  x <= v ↔ (k < count_le v l)%nat.
Proof.
  unfold count_le. intros Hs. revert k.
  induction Hs as [|a l Hs IH Hall]; intros k Hk; [done|].
  rewrite filter_cons. destruct (decide (a <= v)) as [Ha|Ha].
  - destruct k as [|k]; simpl in *.
    + injection Hk as <-. split; [lia|done].
    + rewrite (IH k Hk). lia.
  - assert (Hnone : filter (λ x, x <= v) l = []).
    { clear -Ha Hall. induction Hall as [|y l Hy _ IH]; [done|].
      rewrite filter_cons, decide_False by lia. done. }
    rewrite Hnone. simpl. split; [|lia]. intros Hx. exfalso.
    destruct k as [|k]; simpl in Hk.
    + injection Hk as <-. lia.
    + rewrite Forall_forall in Hall.
      assert (a <= x) by (apply Hall; by eapply list_elem_of_lookup_2). lia.
Qed.

Lemma sortInts_dominate l1 l2 :
  Forall2 Z.le l1 l2 → Forall2 Z.le (sortInts l1) (sortInts l2).
Proof.
  intros Hle. apply Forall2_same_length_lookup_2.
  - rewrite !ReportFacts.sortInts_length. by eapply Forall2_length.
  - intros k x y Hx Hy.
    apply (count_le_sorted y _ k x (ReportFacts.sortInts_Sorted l1) Hx).
    rewrite (count_le_Permutation y _ _ (ReportFacts.sortInts_Permutation l1)).
    eapply Nat.lt_le_trans; [|by apply count_le_mono].
    rewrite <- (count_le_Permutation y _ _ (ReportFacts.sortInts_Permutation l2)).
    by apply (count_le_sorted y _ k y (ReportFacts.sortInts_Sorted l2) Hy).
Qed.

Lemma lookup_total_le (s1 s2 : list Z) i :
  Forall2 Z.le s1 s2 → s1 !!! i <= s2 !!! i.
Proof.
  intros Hle. rewrite !list_lookup_total_alt.
  destruct (s1 !! i) as [x|] eqn:Hx.
  - destruct (Forall2_lookup_l _ _ _ _ _ Hle Hx) as (y & -> & Hxy). done.
  - apply lookup_ge_None in Hx. rewrite (Forall2_length _ _ _ Hle) in Hx.
    apply lookup_ge_None in Hx. rewrite Hx. done.
Qed.

Lemma percentile_items_le (s1 s2 : list Z) n :
  Forall2 Z.le s1 s2 →
  Forall2 no_later (percentile_items s1 n) (percentile_items s2 n).
Proof.
  intros Hle. unfold percentile_items. apply Forall2_app.
  - apply Forall2_fmap, Forall_Forall2_diag, Forall_forall.
    intros [[p num] den] _. simpl. split; [done|].
    by apply ReportFacts.days_mono, lookup_total_le.
  - constructor; [|constructor]. simpl.
    by apply ReportFacts.days_mono, lookup_total_le.
Qed.

(** *** Where printing can panic *)

Lemma bind_status {A B : Type} (m : printer A) (k : A → printer B) :
  (m ≫= k).2 =
    match m.2 with
    | Ok a => (k a).2
    | Fatal e => Fatal e
    | Panic => Panic
    end.
Proof.
  destruct m as [o [a|e|]]; simpl; [|done..]. by destruct (k a).
Qed.

Lemma at_index_in (sample : list Z) j :
  0 <= j < Z.of_nat (length sample) →
  at_index sample j = Ok (sample !!! Z.to_nat j).
Proof.
  intros Hj. unfold at_index. rewrite (proj2 (Z.ltb_ge _ _)) by lia.
  destruct (lookup_lt_is_Some_2 sample (Z.to_nat j)) as [v Hv]; [lia|].
  unfold index. rewrite Hv. by rewrite (list_lookup_total_correct _ _ _ Hv).
Qed.

Lemma at_index_out (sample : list Z) j :
  ¬ (0 <= j < Z.of_nat (length sample)) → at_index sample j = Panic.
Proof.
  intros Hj. unfold at_index. destruct (Z.ltb_spec j 0) as [|Hpos]; [done|].
  unfold index. rewrite (proj2 (lookup_ge_None _ _)); [done|lia].
Qed.

Lemma print_percentile_status p (sample : list Z) n num den :
  (print_percentile p sample n num den).2 =
    if decide (0 <= Z.quot (mul64 n num) den < Z.of_nat (length sample))
    then Ok tt else Panic.
Proof.
  unfold print_percentile. rewrite bind_status. simpl.
  destruct (decide _) as [Hj|Hj].
  - by rewrite at_index_in.
  - by rewrite at_index_out.
Qed.

Lemma quot_index_bound n num den :
  0 <= n → n * 999 <= maxInt64 → 0 <= num < den → num <= 999 →
  Z.quot (mul64 n num) den = n * num / den
  ∧ 0 <= n * num / den ∧ (0 < n → n * num / den < n).
Proof.
  intros Hn Hidx Hnum H999.
  rewrite ReportFacts.mul64_small by nia.
  rewrite Z.quot_div_nonneg by nia.
  split; [done|]. split; [apply Z.div_pos; nia|].
  intros Hpos. apply Z.div_lt_upper_bound; nia.
Qed.

Lemma percentile_loop_status fuel i (sample : list Z) :
  sample ≠ [] → indexable (length sample) → 0 <= i →
  i + 10 * Z.of_nat fuel <= 110 →
  (percentile_loop fuel i sample (len sample)).2 = Ok tt.
Proof.
  intros Hne Hidx. unfold indexable, len in *.
  assert (0 < Z.of_nat (length sample)) by (destruct sample; [done|simpl; lia]).
  revert i. induction fuel as [|fuel IH]; intros i Hi Hfuel; [done|].
  rewrite ReportFacts.percentile_loop_step.
  destruct (Z.leb_spec i 90) as [Hle|Hgt]; [|done].
  rewrite bind_status, print_percentile_status.
  destruct (quot_index_bound (Z.of_nat (length sample)) i 100)
    as (-> & ? & Hlt); [lia..|].
  rewrite decide_True by (split; [done|by apply Hlt]).
  assert (Hadd : add64 i 10 = i + 10).
  { apply wrap64_id. unfold in_int64, minInt64, maxInt64. lia. }
  rewrite Hadd. apply IH; lia.
Qed.

Lemma percentile_loop_empty n :
  (percentile_loop 10 10 [] n).2 = Panic.
Proof.
  rewrite ReportFacts.percentile_loop_step. simpl.
  rewrite bind_status, print_percentile_status. simpl.
  rewrite decide_False; [done|].
  generalize (Z.quot (mul64 n 10) 100). intros z [H1 H2]. simpl in H2. lia.
Qed.

(** The four lines after the loop are indexed by [n]: they all print when
    the slice has [n] values, and the last one cannot when it has fewer. *)
Lemma print_percentiles_status (sample : list Z) n :
  (0 < n)%nat → indexable n → indexable (length sample) →
  (print_percentiles sample (Z.of_nat n)).2 =
    if decide (n <= length sample)%nat then Ok tt else Panic.
Proof.
  intros Hn Hidx Hidxs. unfold print_percentiles.
  destruct (decide (sample = [])) as [->|Hne].
  { rewrite bind_status, percentile_loop_empty.
    rewrite decide_False; [done|simpl; lia]. }
  rewrite bind_status, percentile_loop_status by (done || lia).
  unfold indexable in *.
  destruct (quot_index_bound (Z.of_nat n) 95 100) as (H95 & ? & L95); [lia..|].
  destruct (quot_index_bound (Z.of_nat n) 99 100) as (H99 & ? & L99); [lia..|].
  destruct (quot_index_bound (Z.of_nat n) 999 1000) as (H999 & ? & L999);
    [lia..|].
  assert (Hlast : sub64 (Z.of_nat n) 1 = Z.of_nat n - 1).
  { apply wrap64_id. unfold in_int64, minInt64, maxInt64 in *. lia. }
  rewrite !bind_status, !print_percentile_status, H95, H99, H999, Hlast.
  destruct (decide (n <= length sample)%nat) as [Hle|Hgt].
  - rewrite !decide_True by lia. simpl.
    rewrite at_index_in by lia. done.
  - repeat (destruct (decide _); [|done]).
    simpl. rewrite at_index_out by lia. done.
Qed.

(** *** What the lines of a report show *)

Lemma sortInts_lookup_total_elem (reuse : list Z) i :
  (i < length reuse)%nat → sortInts reuse !!! i ∈ reuse.
Proof.
  intros Hi.
  destruct (lookup_lt_is_Some_2 (sortInts reuse) i) as [x Hx];
    [by rewrite ReportFacts.sortInts_length|].
  rewrite (list_lookup_total_correct _ _ _ Hx).
  rewrite <- (ReportFacts.sortInts_Permutation reuse).
  by eapply list_elem_of_lookup_2.
Qed.

Lemma sortInts_last_max (reuse : list Z) y :
  y ∈ reuse → y <= sortInts reuse !!! (length reuse - 1)%nat.
Proof.
  intros Hy. rewrite <- (ReportFacts.sortInts_Permutation reuse) in Hy.
  apply list_elem_of_lookup_1 in Hy as [j Hj].
  pose proof (lookup_lt_Some _ _ _ Hj) as Hlt.
  rewrite ReportFacts.sortInts_length in Hlt.
  rewrite <- (list_lookup_total_correct _ _ _ Hj).
  apply ReportFacts.sorted_total_le;
    [apply ReportFacts.sortInts_Sorted|lia|].
  rewrite ReportFacts.sortInts_length. lia.
Qed.

Lemma sortInts_first_min (reuse : list Z) y :
  y ∈ reuse → sortInts reuse !!! 0%nat <= y.
Proof.
  intros Hy. rewrite <- (ReportFacts.sortInts_Permutation reuse) in Hy.
  apply list_elem_of_lookup_1 in Hy as [j Hj].
  pose proof (lookup_lt_Some _ _ _ Hj) as Hlt.
  rewrite <- (list_lookup_total_correct _ _ _ Hj).
  apply ReportFacts.sorted_total_le;
    [apply ReportFacts.sortInts_Sorted|lia|done].
Qed.

Lemma percentile_index_last n num den :
  (0 < n)%nat → 0 <= num < den →
  Z.of_nat n * (den - num) <= den →
  percentile_index n num den = (n - 1)%nat.
Proof.
  intros Hn Hnum Hsmall. unfold percentile_index.
  assert (Z.of_nat n * num / den = Z.of_nat n - 1); [|lia].
  symmetry. apply (Z.div_unique _ _ _ (Z.of_nat n * num - (Z.of_nat n - 1) * den));
    [left; nia|lia].
Qed.

Lemma percentile_index_first n num den :
  0 <= num → 0 < den → Z.of_nat n * num < den →
  percentile_index n num den = 0%nat.
Proof.
  intros Hnum Hden Hsmall. unfold percentile_index.
  rewrite Z.div_small; [done|lia].
Qed.

Lemma percentile_items_elem (sample : list Z) n p num den :
  (p, num, den) ∈ percentiles →
  Percentile p (days (sample !!! percentile_index n num den))
  ∈ percentile_items sample n.
Proof.
  intros Hin. unfold percentile_items. apply elem_of_app. left.
  apply list_elem_of_fmap. by exists (p, num, den).
Qed.

Lemma percentile_items_Max_elem (sample : list Z) n :
  Max (days (sample !!! (n - 1)%nat)) ∈ percentile_items sample n.
Proof.
  unfold percentile_items. apply elem_of_app. right. by left.
Qed.

(** *** One sample for each get or miss that finds its key *)

Lemma parse_lines_events lines evs :
  parse_lines lines = inr evs → line_event <$> lines = evs.
Proof.
  revert evs. induction lines as [|line lines IH]; intros evs; simpl.
  - by intros [= <-].
  - destruct (parse_line line) as [|ev] eqn:Hev; [done|].
    destruct (parse_lines lines) as [|evs']; [done|]. intros [= <-].
    unfold line_event at 1. rewrite Hev. f_equal. by apply IH.
Qed.

Lemma hits_le (A : gset string) evs : (hits A evs <= length evs)%nat.
Proof.
  revert A. induction evs as [|ev evs IH]; intros A; simpl; [done|].
  destruct ev as [|t a d sz|t a|t]; try (specialize (IH A); lia).
  - specialize (IH ({[a]} ∪ A)). lia.
  - specialize (IH A). destruct (decide (a ∈ A)); lia.
Qed.

Lemma reuse_known_samples s t a p :
  SimpleView.wf s → Simple.cache s !! action_key a = Some p →
  length (Simple.reuseA (SimpleView.reuse_known s t p))
  = S (length (Simple.reuseA s)).
Proof.
  intros Hwf Hk.
  destruct (SimpleFacts.wf_known s a p Hwf Hk)
    as (e & d & ed & Hp & Hdt & Hed & _).
  unfold SimpleView.reuse_known. rewrite Hp, Hdt, Hed.
  destruct (SimpleFacts.reuse_entries_fields s t p e d ed)
    as (_ & _ & _ & _ & _ & -> & _).
  rewrite length_app. simpl. lia.
Qed.

Lemma foldl_next_hits evs s (A : gset string) :
  SimpleView.wf s →
  (∀ a, is_Some (Simple.cache s !! action_key a) ↔ a ∈ A) →
  length (Simple.reuseA (foldl SimpleView.next s evs))
  = (length (Simple.reuseA s) + hits A evs)%nat.
Proof.
  revert s A. induction evs as [|ev evs IH]; intros s A Hwf HA.
  - simpl. lia.
  - cbn [foldl hits].
    pose proof (SimpleFacts.next_wf s ev Hwf) as Hwf'.
    pose proof (next_action_key s ev) as Hkey.
    destruct ev as [|t a d sz|t a|t].
    + by apply IH.
    + rewrite (IH _ ({[a]} ∪ A)); [|done|].
      * f_equal. simpl. unfold SimpleView.put_entries.
        repeat case_match; done.
      * intros a'. rewrite Hkey, HA. split.
        -- intros [?|(? & ? & ? & [= <-])]; set_solver.
        -- intros [->%elem_of_singleton|?]%elem_of_union;
             [right; eauto|by left].
    + rewrite (IH _ A); [|done|].
      * simpl. destruct (decide (a ∈ A)) as [Hin|Hnew].
        -- apply HA in Hin as [p Hp]. rewrite Hp.
           rewrite (reuse_known_samples (SimpleView.tick s t) t a p)
             by done.
           simpl. lia.
        -- destruct (Simple.cache s !! action_key a) as [p|] eqn:Hp.
           { exfalso. apply Hnew, HA. by exists p. }
           simpl. lia.
      * intros a'. rewrite Hkey, HA. split; [|by left].
        by intros [?|(? & ? & ? & ?)].
    + rewrite (IH _ A); [done|done|].
      intros a'. rewrite Hkey, HA. split; [|by left].
      by intros [?|(? & ? & ? & ?)].
Qed.

Lemma run_hits lines s :
  Simple.run lines = Ok s → length (Simple.reuseA s) = log_hits lines.
Proof.
  intros (evs & Hevs & ->)%SimpleFacts.run_Ok. unfold log_hits.
  rewrite (parse_lines_events _ _ Hevs).
  rewrite (foldl_next_hits evs Simple.init ∅); [done|apply SimpleFacts.init_wf|].
  intros a. simpl. rewrite lookup_empty, elem_of_empty.
  split; [by intros [? ?]|done].
Qed.

Lemma log_hits_le lines : (log_hits lines <= length lines)%nat.
Proof.
  unfold log_hits. etrans; [apply hits_le|]. by rewrite length_fmap.
Qed.

Lemma indexable_le n m : (n <= m)%nat → indexable m → indexable n.
Proof. unfold indexable. lia. Qed.

(** *** The whole report *)

Lemma printCache_report name total totalReused reuse :
  indexable (length reuse) →
  SimpleReport.printCache name total totalReused (sortInts reuse)
  = (cache_report name total totalReused reuse, Ok tt).
Proof.
  intros Hidx. destruct reuse as [|x reuse]; [done|].
  rewrite ReportFacts.printCache_nonempty;
    rewrite ?ReportFacts.sortInts_length;
    [done|by apply ReportFacts.sortInts_nonempty|done].
Qed.

Lemma printCache_report_x name total totalReused reuse delta :
  indexable (length reuse) → length delta = length reuse →
  ExtendedReport.printCache name total totalReused
    (sortInts reuse) (sortInts delta)
  = (cache_report_x name total totalReused reuse delta, Ok tt).
Proof.
  intros Hidx Hlen. destruct reuse as [|x reuse]; [done|].
  rewrite ReportFacts.printCache_nonempty_x;
    rewrite ?ReportFacts.sortInts_length;
    [done|by apply ReportFacts.sortInts_nonempty|done..].
Qed.

(** *** The cache age *)

Lemma foldl_next_age evs s :
  0 <= Simple.firstTime s <= Simple.lastTime s →
  Simple.lastTime s <= maxInt64 →
  StronglySorted Z.le (Simple.lastTime s :: omap event_time evs) →
  Forall (λ t, t <= maxInt64) (omap event_time evs) →
  0 <= Simple.firstTime (foldl SimpleView.next s evs)
    <= Simple.lastTime (foldl SimpleView.next s evs)
  ∧ Simple.lastTime (foldl SimpleView.next s evs) <= maxInt64.
Proof.
  revert s. induction evs as [|ev evs IH]; intros s Hage Hmax Hsorted Hrange;
    [done|].
  cbn [foldl].
  change (omap event_time (ev :: evs))
    with (match event_time ev with
          | Some t => t :: omap event_time evs
          | None => omap event_time evs
          end) in *.
  apply IH; rewrite ?SimpleFacts.next_firstTime, ?SimpleFacts.next_lastTime;
    destruct (event_time ev) as [t|]; simpl; try done.
  - apply StronglySorted_inv in Hsorted as [_ Hall].
    apply Forall_inv in Hall.
    destruct (Z.eqb_spec (Simple.firstTime s) 0); lia.
  - by apply Forall_inv in Hrange.
  - by apply StronglySorted_inv in Hsorted as [? _].
  - by eapply Forall_inv_tail.
Qed.

Lemma run_age lines s :
  Simple.run lines = Ok s → chronological lines →
  0 <= Simple.firstTime s <= Simple.lastTime s
  ∧ Simple.lastTime s <= maxInt64.
Proof.
  intros (evs & Hevs & ->)%SimpleFacts.run_Ok Hc.
  unfold chronological in Hc. rewrite (parse_lines_timestamps _ _ Hevs) in Hc.
  apply foldl_next_age; simpl; [lia|unfold maxInt64; lia|done|].
  by eapply parse_lines_time_range.
Qed.

End ExtraFacts.

(** * The claims *)

(** ** C1: the time range *)

(** C1 as stated fails.  The first line that has fields carries the
    timestamp 0, and [firstTime] ends as the timestamp of the second. *)
Lemma C1_first_time_zero_counterexample :
  head (timestamps ["0 put A D 500"; "10 get A"]) = Some 0
  ∧ Simple.firstTime <$> Simple.run ["0 put A D 500"; "10 get A"] = Ok 10
  ∧ Extended.firstTime <$> Extended.run ["0 put A D 500"; "10 get A"] = Ok 10.
Proof. repeat split; vm_compute; reflexivity. Qed.

(** C1, amended: for every log that passes validation and has a line with
    fields, [lastTime] is the timestamp of the last such line whatever its
    kind, and [firstTime] is the timestamp of the first such line when
    that timestamp is not zero; in both variants. *)
Theorem C1_time_range lines s sx t0 :
  Simple.run lines = Ok s → Extended.run lines = Ok sx →
  head (timestamps lines) = Some t0 →
  last (timestamps lines) = Some (Simple.lastTime s)
  ∧ last (timestamps lines) = Some (Extended.lastTime sx)
  ∧ (t0 ≠ 0 → Simple.firstTime s = t0 ∧ Extended.firstTime sx = t0).
Proof.
  intros Hs Hsx Hhead.
  destruct (SimFacts.runs_related lines s sx Hs Hsx)
    as (_ & (_ & _ & _ & _ & Hft & Hlt & _) & _).
  rewrite <- Hft, <- Hlt.
  apply SimpleFacts.run_Ok in Hs as (evs & Hevs & ->).
  rewrite (parse_lines_timestamps _ _ Hevs) in *.
  rewrite SimpleFacts.foldl_next_lastTime, SimpleFacts.foldl_next_firstTime.
  simpl. destruct (omap event_time evs) as [|t ts]; [done|].
  injection Hhead as ->.
  assert (Hlast : is_Some (last (t0 :: ts))).
  { rewrite last_is_Some. done. }
  destruct Hlast as [tl Htl]. rewrite Htl. simpl.
  repeat split; try done;
    rewrite first_nonzero_cons; by destruct (Z.eqb_spec t0 0).
Qed.

Lemma C1_time_range_witness :
  last (timestamps scenario_lines) = Some (Simple.lastTime scenario_state)
  ∧ last (timestamps scenario_lines) = Some (Extended.lastTime scenario_state_x)
  ∧ (1000 ≠ 0 → Simple.firstTime scenario_state = 1000
                ∧ Extended.firstTime scenario_state_x = 1000).
Proof.
  apply (C1_time_range scenario_lines scenario_state scenario_state_x 1000);
    vm_compute; reflexivity.
Defined.

(** ** C2: reuse accounting *)




(** ** C3: the two variants *)




(** ** C4: malformed lines *)

(** C4: when a log has a malformed line, the run ends with the fatal error
    of the first such line and nothing has been printed; in both
    variants. *)
Theorem C4_malformed_aborts data pre line post :
  Split data = pre ++ line :: post →
  Forall (λ l, malformed l = false) pre →
  malformed line = true →
  ∃ e, fatal_line e = line
       ∧ Simple.run (Split data) = Fatal e
       ∧ SimpleReport.main data = ([], Fatal e)
       ∧ Extended.run (Split data) = Fatal e
       ∧ ExtendedReport.main data = ([], Fatal e).
Proof.
  intros Hsplit Hpre Hline.
  destruct (parse_lines_wellformed pre Hpre) as [evs Hevs].
  destruct (malformed_true line Hline) as [e He].
  assert (Hparse : parse_lines (Split data) = inl e).
  { rewrite Hsplit, parse_lines_app, Hevs. simpl. by rewrite He. }
  exists e. split; [by eapply parse_line_fatal_line|].
  unfold SimpleReport.main, ExtendedReport.main.
  rewrite SimpleFacts.run_next, SimFacts.run_next_x, Hparse. done.
Qed.

Lemma C4_malformed_aborts_witness :
  ∃ e, fatal_line e = "100 put A D"
       ∧ Simple.run (Split "100 put A D") = Fatal e
       ∧ SimpleReport.main "100 put A D" = ([], Fatal e)
       ∧ Extended.run (Split "100 put A D") = Fatal e
       ∧ ExtendedReport.main "100 put A D" = ([], Fatal e).
Proof.
  apply (C4_malformed_aborts "100 put A D" [] "100 put A D" []).
  - reflexivity.
  - constructor.
  - reflexivity.
Defined.

(** ** C5: first write wins *)

(** C5: in a log that passes validation, a key named by a put is in the
    registry from then on; every later line leaves the key on its entry
    and the entry's [created], [size] and [data] as they are; a put whose
    action key, or data key, is already there adds nothing to [totalA],
    or [totalD]; and only an action entry made by the put itself gets the
    entry of the put's data key as its [data].  In both variants. *)
Theorem C5_first_write_wins lines line s s' sx sx' :
  Simple.run lines = Ok s → Simple.process_line s line = Ok s' →
  Extended.run lines = Ok sx → Extended.process_line sx line = Ok sx' →
  SimpleView.first_write_wins s line s'
  ∧ ExtendedView.first_write_wins sx line sx'
  ∧ (∀ l t a d sz, l ∈ lines → parse_line l = inr (Put t a d sz) →
       is_Some (Simple.cache s !! action_key a)
       ∧ is_Some (Simple.cache s !! data_key d)
       ∧ is_Some (Extended.cache sx !! action_key a)
       ∧ is_Some (Extended.cache sx !! data_key d)).
Proof.
  intros Hs Hstep Hsx Hstepx.
  destruct (SimpleFacts.run_step lines line s s' Hs Hstep)
    as (Hwf & ev & Hev & ->).
  destruct (SimFacts.runs_related lines s sx Hs Hsx) as (_ & HR & _).
  destruct (SimFacts.step_x s sx line sx' Hwf HR Hstepx) as (ev' & Hev' & ->).
  assert (ev' = ev) as -> by congruence.
  split; [by apply SimpleFacts.first_write_wins_next|].
  split; [by eapply SimFacts.first_write_wins_x|].
  intros l t a d sz Hl Hput.
  rewrite <- (SimFacts.state_rel_cache _ _ _ HR).
  apply SimpleFacts.run_Ok in Hs as (evs & Hevs & ->).
  pose proof (parse_lines_elem _ _ _ _ Hevs Hl Hput) as Hin.
  destruct (SimpleFacts.put_in_log evs Simple.init t a d sz
              SimpleFacts.init_wf Hin) as [HA HD].
  done.
Qed.

Lemma C5_first_write_wins_witness :
  SimpleView.first_write_wins put_once_state "1005 put A E 7" put_twice_state
  ∧ ExtendedView.first_write_wins put_once_state_x "1005 put A E 7"
      put_twice_state_x
  ∧ (∀ l t a d sz, l ∈ take 1 put_twice → parse_line l = inr (Put t a d sz) →
       is_Some (Simple.cache put_once_state !! action_key a)
       ∧ is_Some (Simple.cache put_once_state !! data_key d)
       ∧ is_Some (Extended.cache put_once_state_x !! action_key a)
       ∧ is_Some (Extended.cache put_once_state_x !! data_key d)).
Proof.
  apply (C5_first_write_wins (take 1 put_twice) "1005 put A E 7");
    vm_compute; reflexivity.
Defined.

(** ** C6: the scenario of the specification *)

(** C6: on the three lines of the scenario the parser of [src/main.go]
    ends with the stated totals, samples and time range; the action entry
    is credited by the line at time 1010, not before. *)
Theorem C6_scenario :
  (λ s, (Simple.totalA s, Simple.totalD s, Simple.totalReusedA s,
         Simple.totalReusedD s, Simple.reuseA s, Simple.reuseD s,
         Simple.firstTime s, Simple.lastTime s))
    <$> Simple.run (Split scenario)
  = Ok (154, 500, 154, 500, [10; 20], [10; 20], 1000, 1020)
  ∧ Split scenario = scenario_lines ++ [""]
  ∧ Simple.totalReusedA <$> Simple.run (take 1 scenario_lines) = Ok 0
  ∧ Simple.totalReusedA <$> Simple.run (take 2 scenario_lines) = Ok 154
  ∧ Simple.totalReusedA <$> Simple.run (take 3 scenario_lines) = Ok 154.
Proof. repeat split; vm_compute; reflexivity. Qed.

(** ** C7: the percentile report *)



(** ** C8: percentiles are monotone *)

(** C8: for a sample sequence that is not empty (and of a length a slice
    can have), the values the reporter prints do not decrease as the
    percentile grows, and none exceeds the maximum it prints. *)
Theorem C8_percentiles_monotone name total totalReused reuse :
  reuse ≠ [] → indexable (length reuse) →
  ∃ out,
    SimpleReport.printCache name total totalReused (sortInts reuse)
    = (out, Ok tt)
    ∧ (∀ p1 v1 p2 v2, Percentile p1 v1 ∈ out → Percentile p2 v2 ∈ out →
         (p1 <= p2)%Q → (v1 <= v2)%Q)
    ∧ (∀ p v m, Percentile p v ∈ out → Max m ∈ out → (v <= m)%Q).
Proof.
  intros Hne Hidx.
  assert (Hn : (0 < length reuse)%nat) by (destruct reuse; [done|simpl; lia]).
  eexists. split.
  { rewrite ReportFacts.printCache_nonempty;
      rewrite ?ReportFacts.sortInts_length;
      [done|by apply ReportFacts.sortInts_nonempty|done]. }
  pose proof (ReportFacts.sortInts_Sorted reuse) as Hsorted.
  pose proof ReportFacts.percentiles_bounds as Hb.
  pose proof ReportFacts.percentiles_order as Ho.
  rewrite Forall_forall in Hb. rewrite Forall_forall in Ho.
  split.
  - intros p1 v1 p2 v2 H1 H2 Hp.
    rewrite !elem_of_cons in H1, H2.
    destruct H1 as [?|[?|H1]]; [done..|]. destruct H2 as [?|[?|H2]]; [done..|].
    apply ReportFacts.percentile_items_Percentile in H1 as (n1 & d1 & Hin1 & ->).
    apply ReportFacts.percentile_items_Percentile in H2 as (n2 & d2 & Hin2 & ->).
    pose proof (Hb _ Hin1) as [Hb1 _]. pose proof (Hb _ Hin2) as [Hb2 _].
    pose proof (Ho _ Hin1) as Ho1. simpl in Ho1. rewrite Forall_forall in Ho1.
    pose proof (Ho1 _ Hin2 Hp) as Hle. simpl in Hle.
    apply ReportFacts.days_mono, ReportFacts.sorted_total_le; [done| |].
    + apply ReportFacts.percentile_index_mono; lia.
    + rewrite ReportFacts.sortInts_length.
      by apply ReportFacts.percentile_index_lt.
  - intros p v m H1 H2.
    rewrite !elem_of_cons in H1, H2.
    destruct H1 as [?|[?|H1]]; [done..|]. destruct H2 as [?|[?|H2]]; [done..|].
    apply ReportFacts.percentile_items_Percentile in H1 as (n1 & d1 & Hin1 & ->).
    apply ReportFacts.percentile_items_Max in H2 as ->.
    pose proof (Hb _ Hin1) as [Hb1 _].
    apply ReportFacts.days_mono, ReportFacts.sorted_total_le; [done| |].
    + by apply ReportFacts.percentile_index_le_last.
    + rewrite ReportFacts.sortInts_length. lia.
Qed.

Lemma C8_percentiles_monotone_witness :
  ∃ out,
    SimpleReport.printCache "action" 154 154 (sortInts [20; 10]) = (out, Ok tt)
    ∧ (∀ p1 v1 p2 v2, Percentile p1 v1 ∈ out → Percentile p2 v2 ∈ out →
         (p1 <= p2)%Q → (v1 <= v2)%Q)
    ∧ (∀ p v m, Percentile p v ∈ out → Max m ∈ out → (v <= m)%Q).
Proof.
  apply (C8_percentiles_monotone "action" 154 154 [20; 10]).
  - done.
  - by vm_compute.
Defined.

(** ** C9: the data entry of an action entry *)

(** C9: no run panics, and after every run that passes validation every
    action key of the registry holds an entry whose [data] is the address
    of an entry; in both variants. *)
Theorem C9_data_never_nil lines :
  Simple.run lines ≠ Panic
  ∧ Extended.run lines ≠ Panic
  ∧ (∀ s a p, Simple.run lines = Ok s →
       Simple.cache s !! action_key a = Some p →
       ∃ e d ed, Simple.heap s !! p = Some e ∧ Simple.data e = Some d
                 ∧ Simple.heap s !! d = Some ed)
  ∧ (∀ sx a p, Extended.run lines = Ok sx →
       Extended.cache sx !! action_key a = Some p →
       ∃ e d ed, Extended.heap sx !! p = Some e ∧ Extended.data e = Some d
                 ∧ Extended.heap sx !! d = Some ed).
Proof.
  split; [|split; [|split]].
  - rewrite SimpleFacts.run_next. by destruct (parse_lines lines).
  - rewrite SimFacts.run_next_x. by destruct (parse_lines lines).
  - intros s a p Hs Hk. pose proof (SimpleFacts.run_wf lines) as Hwf.
    rewrite Hs in Hwf.
    destruct (SimpleFacts.wf_known s a p Hwf Hk) as (e & d & ed & ? & ? & ? & _).
    by exists e, d, ed.
  - intros sx a p Hsx Hk.
    destruct (proj2 (SimFacts.run_Ok_both lines)) as [s Hs]; [by exists sx|].
    destruct (SimFacts.runs_related lines s sx Hs Hsx) as (Hwf & HR & _).
    rewrite <- (SimFacts.state_rel_cache _ _ _ HR) in Hk.
    destruct (SimpleFacts.wf_known s a p Hwf Hk) as (e & d & ed & Hp & Hd & Hed & _).
    pose proof (SimFacts.state_rel_heap _ _ _ HR) as Hh.
    destruct (Forall2_lookup_l _ _ _ _ _ Hh Hp) as (ex & Hpx & _ & _ & Hdx & _).
    destruct (Forall2_lookup_l _ _ _ _ _ Hh Hed) as (edx & Hedx & _).
    exists ex, d, edx. repeat split; [done|congruence|done].
Qed.

Lemma C9_data_never_nil_witness :
  ∃ e d ed, Simple.heap scenario_state !! 1%nat = Some e
            ∧ Simple.data e = Some d
            ∧ Simple.heap scenario_state !! d = Some ed.
Proof.
  apply (proj1 (proj2 (proj2 (C9_data_never_nil scenario_lines)))
           scenario_state "A" 1%nat); vm_compute; reflexivity.
Defined.

(** ** C10: the sample sequences have one length *)

(** C10: after every log that passes validation, and so after every
    prefix of one, [reuseA] and [reuseD] have the same length, and in the
    variant the two delta sequences have that length too; so the variant's
    reporter, which indexes the delta sequence by the length of the reuse
    sequence, does not panic. *)
Theorem C10_sample_lengths lines s sx :
  Simple.run lines = Ok s → Extended.run lines = Ok sx →
  length (Simple.reuseA s) = length (Simple.reuseD s)
  ∧ length (Extended.reuseA sx) = length (Extended.reuseD sx)
  ∧ length (Extended.reuseDeltaA sx) = length (Extended.reuseA sx)
  ∧ length (Extended.reuseDeltaD sx) = length (Extended.reuseD sx)
  ∧ (indexable (length (Extended.reuseA sx)) →
     ∀ name total totalReused,
       (ExtendedReport.printCache name total totalReused
          (sortInts (Extended.reuseA sx))
          (sortInts (Extended.reuseDeltaA sx))).2 = Ok tt
       ∧ (ExtendedReport.printCache name total totalReused
            (sortInts (Extended.reuseD sx))
            (sortInts (Extended.reuseDeltaD sx))).2 = Ok tt).
Proof.
  intros Hs Hsx.
  destruct (SimFacts.runs_related lines s sx Hs Hsx) as (_ & HR & _).
  destruct HR as (_ & _ & HrA & HrD & _ & _ & _ & _ & HlA & HlD & _).
  assert (Hlen : length (Simple.reuseA s) = length (Simple.reuseD s)).
  { apply SimpleFacts.run_Ok in Hs as (evs & _ & ->).
    by apply SimpleFacts.foldl_next_samples_length. }
  split; [done|]. rewrite <- HrA, <- HrD in *.
  split; [done|]. split; [done|]. split; [done|].
  intros Hidx name total totalReused.
  split; apply ReportFacts.printCache_sorted_ok_x; try done.
  by rewrite <- Hlen.
Qed.

Lemma C10_sample_lengths_witness :
  length (Simple.reuseA scenario_state) = length (Simple.reuseD scenario_state)
  ∧ length (Extended.reuseA scenario_state_x)
    = length (Extended.reuseD scenario_state_x)
  ∧ length (Extended.reuseDeltaA scenario_state_x)
    = length (Extended.reuseA scenario_state_x)
  ∧ length (Extended.reuseDeltaD scenario_state_x)
    = length (Extended.reuseD scenario_state_x)
  ∧ (indexable (length (Extended.reuseA scenario_state_x)) →
     ∀ name total totalReused,
       (ExtendedReport.printCache name total totalReused
          (sortInts (Extended.reuseA scenario_state_x))
          (sortInts (Extended.reuseDeltaA scenario_state_x))).2 = Ok tt
       ∧ (ExtendedReport.printCache name total totalReused
            (sortInts (Extended.reuseD scenario_state_x))
            (sortInts (Extended.reuseDeltaD scenario_state_x))).2 = Ok tt).
Proof.
  apply (C10_sample_lengths scenario_lines); vm_compute; reflexivity.
Defined.

(** * Further properties of the code *)

(** ** The scan: lines and validation *)

(** X1: lines without fields (empty or all spaces) are skipped: leaving
    them out of a log changes nothing of the run, be it a state, a fatal
    error or its line; in both variants. *)
Theorem X1_blank_lines_skipped lines :
  Simple.run (filter (λ l, Fields l ≠ []) lines) = Simple.run lines
  ∧ Extended.run (filter (λ l, Fields l ≠ []) lines) = Extended.run lines.
Proof.
  split.
  - apply ExtraFacts.scan_filter_blank, ExtraFacts.process_line_blank.
  - apply ExtraFacts.scan_filter_blank, ExtraFacts.process_line_blank_x.
Qed.

(** X2: a line feed added at the end of log.txt changes nothing of what
    [main] prints or how it ends; in both variants. *)
Theorem X2_trailing_newline data :
  SimpleReport.main (data +:+ String LF EmptyString) = SimpleReport.main data
  ∧ ExtendedReport.main (data +:+ String LF EmptyString)
    = ExtendedReport.main data.
Proof.
  unfold SimpleReport.main, ExtendedReport.main, Simple.run, Extended.run, Split.
  rewrite !ExtraFacts.split_lines_newline, !scan_snoc.
  split.
  - by destruct (scan Simple.process_line Simple.init (split_lines data "")).
  - by destruct (scan Extended.process_line Extended.init (split_lines data "")).
Qed.

(** X3: which line is fatal, and with which message, does not depend on
    the state.  The line is reported invalid when it has fields but fewer
    than three, or is a put without exactly five; failing that, its time
    is reported invalid when field 0 does not parse; failing that, its
    size is reported invalid when it is a put whose field 4 does not
    parse.  The message quotes the line itself.  In both variants. *)
Theorem X3_fatal_kinds s sx line l :
  let f := Fields line in
  let bad_count :=
    (length f < 3)%nat ∨ (f !! 1%nat = Some "put" ∧ length f ≠ 5%nat) in
  let bad_time := f !! 0%nat ≫= ParseInt = None in
  let bad_size := f !! 1%nat = Some "put" ∧ f !! 4%nat ≫= ParseInt = None in
  (Simple.process_line s line = Fatal (InvalidLine l) ↔
     l = line ∧ f ≠ [] ∧ bad_count)
  ∧ (Simple.process_line s line = Fatal (InvalidTime l) ↔
       l = line ∧ f ≠ [] ∧ ¬ bad_count ∧ bad_time)
  ∧ (Simple.process_line s line = Fatal (InvalidSize l) ↔
       l = line ∧ f ≠ [] ∧ ¬ bad_count ∧ ¬ bad_time ∧ bad_size)
  ∧ (∀ e, Extended.process_line sx line = Fatal e ↔
          Simple.process_line s line = Fatal e).
Proof.
  intros f bad_count bad_time bad_size. subst f bad_count bad_time bad_size.
  rewrite !ExtraFacts.process_line_Fatal.
  rewrite ExtraFacts.parse_line_InvalidLine, ExtraFacts.parse_line_InvalidTime,
    ExtraFacts.parse_line_InvalidSize.
  generalize (Fields line). intros f.
  split; [done|]. split; [|split].
  - split.
    + intros (-> & Hlen & Hnp & Ht). split; [done|].
      split; [intros ->; simpl in *; lia|]. split; [|done].
      intros [?|?]; [lia|by apply Hnp].
    + intros (-> & Hne & Hnb & Ht). split; [done|].
      split; [|split; [|done]].
      * destruct (decide (length f < 3)%nat); [|lia].
        exfalso. apply Hnb. by left.
      * intros H. apply Hnb. by right.
  - split.
    + intros (-> & Hput & Hlen & Htime & Hsize). split; [done|].
      split; [intros ->; simpl in *; lia|]. split; [intros [?|[_ ?]]; [lia|done]|].
      split; [|done]. intros Hbad. rewrite Hbad in Htime. by destruct Htime.
    + intros (-> & Hne & Hnb & Hnt & Hput & Hsize). split; [done|].
      split; [done|]. split; [|split; [|done]].
      * destruct (decide (length f = 5%nat)); [done|].
        exfalso. apply Hnb. by right.
      * destruct (f !! 0%nat ≫= ParseInt); [by eexists|done].
  - intros e. by rewrite ExtraFacts.process_line_Fatal_x,
      ExtraFacts.process_line_Fatal.
Qed.

(** X4: validation looks at each line on its own: a log is processed to
    the end exactly when none of its lines is malformed, whatever their
    order and whatever keys they name; in both variants. *)
Theorem X4_valid_iff_wellformed lines :
  ((∃ s, Simple.run lines = Ok s) ↔
     Forall (λ line, malformed line = false) lines)
  ∧ ((∃ sx, Extended.run lines = Ok sx) ↔
       Forall (λ line, malformed line = false) lines).
Proof.
  rewrite <- SimFacts.run_Ok_both.
  assert (H : (∃ s, Simple.run lines = Ok s) ↔ ∃ evs, parse_lines lines = inr evs).
  { split.
    - intros [s (evs & Hevs & _)%SimpleFacts.run_Ok]. eauto.
    - intros [evs Hevs]. eexists. apply SimpleFacts.run_Ok. eauto. }
  rewrite H, ExtraFacts.parse_lines_Forall. done.
Qed.

(** ** The registry *)

(** X5: after a log that passes validation the registry holds exactly the
    keys that the puts of the log name: the action key of [a] is there
    exactly when some put names [a] as its action, the data key of [d]
    exactly when some put names [d] as its data, and there is no other
    key.  In both variants. *)
Theorem X5_registry_keys lines s sx k :
  Simple.run lines = Ok s → Extended.run lines = Ok sx →
  (is_Some (Simple.cache s !! k) ↔
     (∃ a, k = action_key a ∧ a ∈ named_actions lines)
     ∨ (∃ d, k = data_key d ∧ d ∈ named_datas lines))
  ∧ Extended.cache sx = Simple.cache s.
Proof.
  intros Hs Hsx. split.
  - by rewrite <- elem_of_dom, (ExtraFacts.run_dom _ _ Hs),
      ExtraFacts.elem_of_line_keys.
  - destruct (SimFacts.runs_related lines s sx Hs Hsx) as (_ & HR & _).
    symmetry. by eapply SimFacts.state_rel_cache.
Qed.

Lemma X5_registry_keys_witness :
  (is_Some (Simple.cache scenario_state !! "A-a") ↔
     (∃ a, "A-a" = action_key a ∧ a ∈ named_actions scenario_lines)
     ∨ (∃ d, "A-a" = data_key d ∧ d ∈ named_datas scenario_lines))
  ∧ Extended.cache scenario_state_x = Simple.cache scenario_state.
Proof.
  apply (X5_registry_keys scenario_lines); vm_compute; reflexivity.
Defined.

(** X6: after a log that passes validation, keys and entries correspond
    one to one: every key holds an entry that was allocated, no two keys
    hold the same entry, and every entry allocated is held by a key.  In
    both variants. *)
Theorem X6_registry_bijection lines s sx :
  Simple.run lines = Ok s → Extended.run lines = Ok sx →
  registry_bijection (Simple.cache s) (length (Simple.heap s))
  ∧ registry_bijection (Extended.cache sx) (length (Extended.heap sx)).
Proof.
  intros Hs Hsx. pose proof (ExtraFacts.run_bijection lines s Hs) as Hb.
  split; [done|].
  destruct (SimFacts.runs_related lines s sx Hs Hsx) as (_ & HR & _).
  rewrite <- (SimFacts.state_rel_cache _ _ _ HR).
  by rewrite <- (Forall2_length _ _ _ (SimFacts.state_rel_heap _ _ _ HR)).
Qed.

Lemma X6_registry_bijection_witness :
  registry_bijection (Simple.cache scenario_state)
    (length (Simple.heap scenario_state))
  ∧ registry_bijection (Extended.cache scenario_state_x)
      (length (Extended.heap scenario_state_x)).
Proof.
  apply (X6_registry_bijection scenario_lines); vm_compute; reflexivity.
Defined.

(** X7: the first put that names a key decides its entry for the rest of
    the log.  If no earlier put names the action [a], the entry of [a]
    has, at the end, the time of this put as [created], the size 154, and
    as [data] the entry that the data key of this put holds; if no
    earlier put names the data [d], the entry of [d] has the time and the
    size of this put.  Later puts and gets change none of it.  In both
    variants. *)
Theorem X7_first_put_decides l1 line l2 t a d sz s sx :
  parse_line line = inr (Put t a d sz) →
  Simple.run (l1 ++ line :: l2) = Ok s →
  Extended.run (l1 ++ line :: l2) = Ok sx →
  (a ∉ named_actions l1 →
   ∃ p pd e ex,
     Simple.cache s !! action_key a = Some p
     ∧ Simple.cache s !! data_key d = Some pd
     ∧ Simple.heap s !! p = Some e ∧ Extended.heap sx !! p = Some ex
     ∧ Simple.created e = t ∧ Simple.size e = 154 ∧ Simple.data e = Some pd
     ∧ Extended.created ex = t ∧ Extended.size ex = 154
     ∧ Extended.data ex = Some pd)
  ∧ (d ∉ named_datas l1 →
     ∃ pd ed edx,
       Simple.cache s !! data_key d = Some pd
       ∧ Simple.heap s !! pd = Some ed ∧ Extended.heap sx !! pd = Some edx
       ∧ Simple.created ed = t ∧ Simple.size ed = sz ∧ Simple.data ed = None
       ∧ Extended.created edx = t ∧ Extended.size edx = sz
       ∧ Extended.data edx = None).
Proof.
  intros Hput Hs Hsx.
  destruct (SimFacts.runs_related _ s sx Hs Hsx) as (_ & HR & _).
  pose proof (SimFacts.state_rel_heap _ _ _ HR) as Hh.
  destruct (ExtraFacts.run_app_inv l1 (line :: l2) s Hs)
    as (s1 & evs & Hs1 & Hwf1 & Hevs & ->).
  simpl in Hevs. rewrite Hput in Hevs.
  destruct (parse_lines l2) as [|evs2]; [done|]. injection Hevs as <-.
  simpl in *. set (s2 := SimpleView.put_entries (SimpleView.tick s1 t) t a d sz) in *.
  assert (Hwf2 : SimpleView.wf s2) by by apply (SimpleFacts.next_wf s1 (Put t a d sz)).
  pose proof (SimpleFacts.foldl_next_cache_le evs2 s2 Hwf2) as Hcle.
  pose proof (ExtraFacts.foldl_next_heap_le evs2 s2 Hwf2) as Hhle.
  split.
  - intros Hnew. rewrite <- (ExtraFacts.action_named l1 s1 a Hs1) in Hnew.
    apply eq_None_not_Some in Hnew.
    destruct (SimpleFacts.put_entries_new_action (SimpleView.tick s1 t) t a d sz Hnew)
      as (p & pd & Hc & _ & Hp & Hcd).
    destruct (Hhle p _ Hp) as (e & He & Hcr & Hsz & Hdt & _).
    destruct (Forall2_lookup_l _ _ _ _ _ Hh He) as (ex & Hex & Hxc & Hxs & Hxd & _).
    exists p, pd, e, ex. simpl in *.
    repeat split; try done; try congruence; by apply Hcle.
  - intros Hnew. rewrite <- (ExtraFacts.data_named l1 s1 d Hs1) in Hnew.
    apply eq_None_not_Some in Hnew.
    destruct (ExtraFacts.put_entries_new_data (SimpleView.tick s1 t) t a d sz Hnew)
      as (pd & Hc & _ & Hp).
    destruct (Hhle pd _ Hp) as (ed & He & Hcr & Hsz & Hdt & _).
    destruct (Forall2_lookup_l _ _ _ _ _ Hh He) as (edx & Hex & Hxc & Hxs & Hxd & _).
    exists pd, ed, edx. simpl in *.
    repeat split; try done; try congruence; by apply Hcle.
Qed.

Lemma X7_first_put_decides_witness :
  ("A" ∉ named_actions [] →
   ∃ p pd e ex,
     Simple.cache scenario_state !! action_key "A" = Some p
     ∧ Simple.cache scenario_state !! data_key "D" = Some pd
     ∧ Simple.heap scenario_state !! p = Some e
     ∧ Extended.heap scenario_state_x !! p = Some ex
     ∧ Simple.created e = 1000 ∧ Simple.size e = 154 ∧ Simple.data e = Some pd
     ∧ Extended.created ex = 1000 ∧ Extended.size ex = 154
     ∧ Extended.data ex = Some pd)
  ∧ ("D" ∉ named_datas [] →
     ∃ pd ed edx,
       Simple.cache scenario_state !! data_key "D" = Some pd
       ∧ Simple.heap scenario_state !! pd = Some ed
       ∧ Extended.heap scenario_state_x !! pd = Some edx
       ∧ Simple.created ed = 1000 ∧ Simple.size ed = 500
       ∧ Simple.data ed = None
       ∧ Extended.created edx = 1000 ∧ Extended.size edx = 500
       ∧ Extended.data edx = None).
Proof.
  apply (X7_first_put_decides [] "1000 put A D 500"
           ["1010 get A"; "1020 get A"]); vm_compute; reflexivity.
Defined.

(** X8: three kinds of line change nothing but the time range: a line of
    a kind other than put, get and miss; a get or miss for an action that
    no put of the log so far names; and a put whose action and data are
    both named by puts of the log so far.  In both variants. *)
Theorem X8_lines_without_effect lines line s s' sx sx' t :
  Simple.run lines = Ok s → Simple.process_line s line = Ok s' →
  Extended.run lines = Ok sx → Extended.process_line sx line = Ok sx' →
  (parse_line line = inr (Ignored t)
   ∨ (∃ a, parse_line line = inr (Reuse t a) ∧ a ∉ named_actions lines)
   ∨ (∃ a d sz, parse_line line = inr (Put t a d sz)
                ∧ a ∈ named_actions lines ∧ d ∈ named_datas lines)) →
  s' = Simple.set_times s
         (if Simple.firstTime s =? 0 then t else Simple.firstTime s) t
  ∧ sx' = Extended.set_times sx
            (if Extended.firstTime sx =? 0 then t else Extended.firstTime sx) t.
Proof.
  intros Hs Hstep Hsx Hstepx Hkind.
  destruct (SimpleFacts.run_step lines line s s' Hs Hstep)
    as (Hwf & ev & Hev & ->).
  destruct (SimFacts.runs_related lines s sx Hs Hsx) as (_ & HR & _).
  destruct (SimFacts.step_x s sx line sx' Hwf HR Hstepx) as (ev' & Hev' & ->).
  assert (ev' = ev) as -> by congruence.
  pose proof (SimFacts.state_rel_cache _ _ _ HR) as Hc.
  destruct Hkind as [Hk|[(a & Hk & Hnew)|(a & d & sz & Hk & Ha & Hd)]];
    rewrite Hk in Hev; injection Hev as <-; simpl.
  - done.
  - rewrite <- (ExtraFacts.action_named lines s a Hs) in Hnew.
    apply eq_None_not_Some in Hnew. rewrite <- Hc, Hnew. done.
  - apply (ExtraFacts.action_named lines s a Hs) in Ha as [pa Ha].
    apply (ExtraFacts.data_named lines s d Hs) in Hd as [pd Hd].
    unfold SimpleView.put_entries, ExtendedView.put_entries. simpl.
    rewrite <- Hc, Hd. simpl. rewrite <- Hc, Ha. done.
Qed.

Lemma X8_lines_without_effect_witness :
  Simple.set_times scenario_state
    (if Simple.firstTime scenario_state =? 0 then 1030
     else Simple.firstTime scenario_state) 1030
  = Simple.set_times scenario_state
      (if Simple.firstTime scenario_state =? 0 then 1030
       else Simple.firstTime scenario_state) 1030
  ∧ Extended.set_times scenario_state_x
      (if Extended.firstTime scenario_state_x =? 0 then 1030
       else Extended.firstTime scenario_state_x) 1030
    = Extended.set_times scenario_state_x
        (if Extended.firstTime scenario_state_x =? 0 then 1030
         else Extended.firstTime scenario_state_x) 1030.
Proof.
  apply (X8_lines_without_effect scenario_lines "1030 get Z").
  - vm_compute. reflexivity.
  - vm_compute. reflexivity.
  - vm_compute. reflexivity.
  - vm_compute. reflexivity.
  - right. left. exists "Z". split; [reflexivity|]. by vm_compute.
Defined.

(** X9: the scan only ever adds.  When a log is continued, the sample
    sequences of the shorter log are prefixes of those of the longer one,
    nothing being removed or reordered, and every key of the registry
    stays on its entry.  In both variants, there for the delta sequences
    too. *)
Theorem X9_append_only l1 l2 s1 s2 sx1 sx2 :
  Simple.run l1 = Ok s1 → Simple.run (l1 ++ l2) = Ok s2 →
  Extended.run l1 = Ok sx1 → Extended.run (l1 ++ l2) = Ok sx2 →
  Simple.reuseA s1 `prefix_of` Simple.reuseA s2
  ∧ Simple.reuseD s1 `prefix_of` Simple.reuseD s2
  ∧ Extended.reuseA sx1 `prefix_of` Extended.reuseA sx2
  ∧ Extended.reuseD sx1 `prefix_of` Extended.reuseD sx2
  ∧ Extended.reuseDeltaA sx1 `prefix_of` Extended.reuseDeltaA sx2
  ∧ Extended.reuseDeltaD sx1 `prefix_of` Extended.reuseDeltaD sx2
  ∧ (∀ k p, Simple.cache s1 !! k = Some p → Simple.cache s2 !! k = Some p)
  ∧ (∀ k p, Extended.cache sx1 !! k = Some p →
            Extended.cache sx2 !! k = Some p).
Proof.
  intros Hs1 Hs2 Hsx1 Hsx2.
  destruct (SimFacts.runs_related _ _ _ Hs1 Hsx1)
    as (_ & (_ & _ & HrA1 & HrD1 & _ & _ & Hc1 & _) & _).
  destruct (SimFacts.runs_related _ _ _ Hs2 Hsx2)
    as (_ & (_ & _ & HrA2 & HrD2 & _ & _ & Hc2 & _) & _).
  rewrite <- HrA1, <- HrD1, <- HrA2, <- HrD2, <- Hc1, <- Hc2.
  destruct (ExtraFacts.run_app_inv l1 l2 s2 Hs2)
    as (s1' & evs & Hs1' & Hwf & Hevs & ->).
  assert (s1' = s1) as -> by congruence.
  destruct (ExtraFacts.run_app_inv_x l1 l2 sx2 Hsx2)
    as (sx1' & evs' & Hsx1' & Hevs' & ->).
  assert (sx1' = sx1) as -> by congruence.
  destruct (ExtraFacts.samples_prefix_foldl evs s1) as [HA HD].
  destruct (ExtraFacts.deltas_prefix_foldl evs' sx1) as [HdA HdD].
  pose proof (SimpleFacts.foldl_next_cache_le evs s1 Hwf) as Hcle.
  repeat split; done.
Qed.

Lemma X9_append_only_witness :
  Simple.reuseA scenario_before `prefix_of` Simple.reuseA scenario_state
  ∧ Simple.reuseD scenario_before `prefix_of` Simple.reuseD scenario_state
  ∧ Extended.reuseA scenario_before_x `prefix_of` Extended.reuseA scenario_state_x
  ∧ Extended.reuseD scenario_before_x `prefix_of` Extended.reuseD scenario_state_x
  ∧ Extended.reuseDeltaA scenario_before_x
      `prefix_of` Extended.reuseDeltaA scenario_state_x
  ∧ Extended.reuseDeltaD scenario_before_x
      `prefix_of` Extended.reuseDeltaD scenario_state_x
  ∧ (∀ k p, Simple.cache scenario_before !! k = Some p →
            Simple.cache scenario_state !! k = Some p)
  ∧ (∀ k p, Extended.cache scenario_before_x !! k = Some p →
            Extended.cache scenario_state_x !! k = Some p).
Proof.
  apply (X9_append_only (take 2 scenario_lines) ["1020 get A"]);
    vm_compute; reflexivity.
Defined.

(** X10: on a log whose timestamps are non-negative and never decrease,
    every age sample is non-negative, the age of an action entry is at most
    the age sampled for its data entry at the same reuse (the data entry is
    never younger than an action entry that points to it), and no age
    exceeds the last timestamp.  In both variants. *)
Theorem X10_chronological_ages lines s sx :
  Simple.run lines = Ok s → Extended.run lines = Ok sx →
  chronological lines →
  (Forall (λ x, 0 <= x) (Simple.reuseA s)
   ∧ Forall2 Z.le (Simple.reuseA s) (Simple.reuseD s)
   ∧ Forall (λ x, x <= Simple.lastTime s) (Simple.reuseD s))
  ∧ (Forall (λ x, 0 <= x) (Extended.reuseA sx)
     ∧ Forall2 Z.le (Extended.reuseA sx) (Extended.reuseD sx)
     ∧ Forall (λ x, x <= Extended.lastTime sx) (Extended.reuseD sx)).
Proof.
  intros Hs Hsx Hc.
  destruct (SimFacts.runs_related _ _ _ Hs Hsx)
    as (_ & (_ & _ & HrA & HrD & _ & Hlt & _) & _).
  rewrite <- HrA, <- HrD, <- Hlt.
  destruct (ExtraFacts.run_chrono lines s Hs Hc)
    as (_ & _ & _ & HA & HAD & HD).
  done.
Qed.

Lemma X10_chronological_ages_witness :
  (Forall (λ x, 0 <= x) (Simple.reuseA shared_data_state)
   ∧ Forall2 Z.le (Simple.reuseA shared_data_state)
       (Simple.reuseD shared_data_state)
   ∧ Forall (λ x, x <= Simple.lastTime shared_data_state)
       (Simple.reuseD shared_data_state))
  ∧ (Forall (λ x, 0 <= x) (Extended.reuseA shared_data_state_x)
     ∧ Forall2 Z.le (Extended.reuseA shared_data_state_x)
         (Extended.reuseD shared_data_state_x)
     ∧ Forall (λ x, x <= Extended.lastTime shared_data_state_x)
         (Extended.reuseD shared_data_state_x)).
Proof.
  apply (X10_chronological_ages shared_data_lines).
  - vm_compute. reflexivity.
  - vm_compute. reflexivity.
  - unfold chronological.
    replace (timestamps shared_data_lines) with [100; 150; 200; 260]
      by (vm_compute; reflexivity).
    repeat constructor; lia.
Defined.

(** X11: in the variant that tracks the time since the previous reuse, on
    a log whose timestamps are non-negative and never decrease, every
    delta sample is non-negative and at most the age sampled at the same
    reuse, for action and for data entries. *)
Theorem X11_chronological_deltas lines sx :
  Extended.run lines = Ok sx → chronological lines →
  Forall (λ x, 0 <= x) (Extended.reuseDeltaA sx)
  ∧ Forall (λ x, 0 <= x) (Extended.reuseDeltaD sx)
  ∧ Forall2 Z.le (Extended.reuseDeltaA sx) (Extended.reuseA sx)
  ∧ Forall2 Z.le (Extended.reuseDeltaD sx) (Extended.reuseD sx).
Proof.
  intros Hsx Hc.
  destruct (ExtraFacts.run_chrono_x lines sx Hsx Hc)
    as (_ & _ & HA & HD & HAA & HDD).
  done.
Qed.

Lemma X11_chronological_deltas_witness :
  Forall (λ x, 0 <= x) (Extended.reuseDeltaA shared_data_state_x)
  ∧ Forall (λ x, 0 <= x) (Extended.reuseDeltaD shared_data_state_x)
  ∧ Forall2 Z.le (Extended.reuseDeltaA shared_data_state_x)
      (Extended.reuseA shared_data_state_x)
  ∧ Forall2 Z.le (Extended.reuseDeltaD shared_data_state_x)
      (Extended.reuseD shared_data_state_x).
Proof.
  apply (X11_chronological_deltas shared_data_lines).
  - vm_compute. reflexivity.
  - unfold chronological.
    replace (timestamps shared_data_lines) with [100; 150; 200; 260]
      by (vm_compute; reflexivity).
    repeat constructor; lia.
Defined.

(** X12: what the two totals count.  [totalA] is 154 bytes for each
    distinct action key that a put of the log names, and [totalD] is the
    sum, over the distinct data keys, of the size that the first put
    naming the key gives; sizes given by later puts of a key do not count.
    Both as 64-bit sums, in both variants. *)
Theorem X12_totals lines s sx :
  Simple.run lines = Ok s → Extended.run lines = Ok sx →
  Simple.totalA s = wrap64 (154 * Z.of_nat (size (named_actions lines)))
  ∧ Simple.totalD s = wrap64 (sumZ (first_sizes ∅ (puts lines)))
  ∧ Extended.totalA sx = wrap64 (154 * Z.of_nat (size (named_actions lines)))
  ∧ Extended.totalD sx = wrap64 (sumZ (first_sizes ∅ (puts lines))).
Proof.
  intros Hs Hsx.
  destruct (SimFacts.runs_related _ _ _ Hs Hsx) as (_ & (HtA & HtD & _) & _).
  rewrite <- HtA, <- HtD.
  assert (HA : Simple.totalA s
               = wrap64 (154 * Z.of_nat (size (named_actions lines)))).
  { pose proof (λ a, ExtraFacts.action_named lines s a Hs) as Hnamed.
    apply SimpleFacts.run_Ok in Hs as (evs & Hevs & ->).
    destruct (ExtraFacts.foldl_next_totalA evs Simple.init ∅)
      as (A & HA & ->).
    - intros a. simpl. rewrite lookup_empty, elem_of_empty.
      split; [by intros [? ?]|done].
    - done.
    - assert (A = named_actions lines) as ->; [|done].
      apply set_eq. intros a. by rewrite <- HA, Hnamed. }
  assert (HD : Simple.totalD s = wrap64 (sumZ (first_sizes ∅ (puts lines)))).
  { apply SimpleFacts.run_Ok in Hs as (evs & Hevs & ->).
    rewrite (ExtraFacts.parse_lines_puts _ _ Hevs).
    rewrite (ExtraFacts.foldl_next_totalD evs Simple.init ∅ 0); [done| |done].
    intros d. simpl. rewrite lookup_empty, elem_of_empty.
    split; [by intros [? ?]|done]. }
  done.
Qed.

Lemma X12_totals_witness :
  Simple.totalA shared_data_state
  = wrap64 (154 * Z.of_nat (size (named_actions shared_data_lines)))
  ∧ Simple.totalD shared_data_state
    = wrap64 (sumZ (first_sizes ∅ (puts shared_data_lines)))
  ∧ Extended.totalA shared_data_state_x
    = wrap64 (154 * Z.of_nat (size (named_actions shared_data_lines)))
  ∧ Extended.totalD shared_data_state_x
    = wrap64 (sumZ (first_sizes ∅ (puts shared_data_lines))).
Proof.
  apply (X12_totals shared_data_lines); vm_compute; reflexivity.
Defined.

(** X13: the reused bytes stay within the total.  When no put of the log
    gives a negative size and neither 154 bytes per put nor the sum of the
    sizes given exceeds the largest int64, then in [src/main.go] zero is at
    most [totalReusedA], which is at most [totalA], which is at most 154
    bytes per put, and zero is at most [totalReusedD], which is at most
    [totalD], which is at most the sum of the sizes given.  The variant
    that tracks deltas keeps the same bounds when no get or miss carries
    the timestamp zero. *)
Theorem X13_reused_within_total lines s sx :
  Simple.run lines = Ok s → Extended.run lines = Ok sx →
  Forall (λ p, 0 <= p.2) (puts lines) →
  154 * Z.of_nat (length (puts lines)) <= maxInt64 →
  sumZ ((puts lines).*2) <= maxInt64 →
  (0 <= Simple.totalReusedA s <= Simple.totalA s
   ∧ Simple.totalA s <= 154 * Z.of_nat (length (puts lines))
   ∧ 0 <= Simple.totalReusedD s <= Simple.totalD s
   ∧ Simple.totalD s <= sumZ ((puts lines).*2))
  ∧ (Sim.reuse_times_nonzero lines →
     0 <= Extended.totalReusedA sx <= Extended.totalA sx
     ∧ Extended.totalA sx <= 154 * Z.of_nat (length (puts lines))
     ∧ 0 <= Extended.totalReusedD sx <= Extended.totalD sx
     ∧ Extended.totalD sx <= sumZ ((puts lines).*2)).
Proof.
  intros Hs Hsx Hpos HnA HnD.
  destruct (SimFacts.runs_related _ _ _ Hs Hsx) as (_ & Hrel & Hstrict).
  assert (Hsimple :
    0 <= Simple.totalReusedA s <= Simple.totalA s
    ∧ Simple.totalA s <= 154 * Z.of_nat (length (puts lines))
    ∧ 0 <= Simple.totalReusedD s <= Simple.totalD s
    ∧ Simple.totalD s <= sumZ ((puts lines).*2)).
  { destruct (SimpleFacts.run_accounted lines s Hs) as [HrA HrD].
    apply SimpleFacts.run_Ok in Hs as (evs & Hevs & ->).
    rewrite (ExtraFacts.parse_lines_puts _ _ Hevs) in *.
    destruct (ExtraFacts.foldl_next_totals evs Simple.init 0 0)
      as (HtA & HtD & Hsz & HbA & HbD);
      [apply SimpleFacts.init_wf| |done|].
    { unfold totals_inv. simpl. repeat split; done. }
    rewrite Z.add_0_l in HbA, HbD.
    pose proof (ExtraFacts.reused_le_stored true _ Hsz) as HA.
    pose proof (ExtraFacts.reused_le_stored false _ Hsz) as HD.
    rewrite HrA, HrD, HtA, HtD.
    rewrite !wrap64_id by (unfold in_int64, minInt64, maxInt64 in *; lia).
    lia. }
  split; [done|]. intros Hnz.
  destruct (Hstrict Hnz) as (HtA & HtD & _ & _ & _ & _ & _ & _ & _ & _ & Hre).
  destruct (Hre eq_refl) as [HrA HrD].
  by rewrite <- HtA, <- HtD, <- HrA, <- HrD.
Qed.

Lemma X13_reused_within_total_witness :
  (0 <= Simple.totalReusedA shared_data_state <= Simple.totalA shared_data_state
   ∧ Simple.totalA shared_data_state
     <= 154 * Z.of_nat (length (puts shared_data_lines))
   ∧ 0 <= Simple.totalReusedD shared_data_state
       <= Simple.totalD shared_data_state
   ∧ Simple.totalD shared_data_state <= sumZ ((puts shared_data_lines).*2))
  ∧ (Sim.reuse_times_nonzero shared_data_lines →
     0 <= Extended.totalReusedA shared_data_state_x
       <= Extended.totalA shared_data_state_x
     ∧ Extended.totalA shared_data_state_x
       <= 154 * Z.of_nat (length (puts shared_data_lines))
     ∧ 0 <= Extended.totalReusedD shared_data_state_x
         <= Extended.totalD shared_data_state_x
     ∧ Extended.totalD shared_data_state_x
       <= sumZ ((puts shared_data_lines).*2)).
Proof.
  apply (X13_reused_within_total shared_data_lines).
  - vm_compute. reflexivity.
  - vm_compute. reflexivity.
  - replace (puts shared_data_lines) with [("D", 5); ("D", 7)]
      by (vm_compute; reflexivity).
    repeat constructor; simpl; lia.
  - vm_compute. discriminate.
  - vm_compute. discriminate.
Defined.

(** X14: on a log whose timestamps are non-negative and never decrease,
    the report of [src/main.go] never shows an action cache older than the
    data cache: line by line, each percentile of the action cache, and its
    maximum, is at most the value on the same line of the data cache. *)
Theorem X14_action_within_data lines s :
  Simple.run lines = Ok s → chronological lines →
  Simple.reuseA s ≠ [] → indexable (length (Simple.reuseA s)) →
  ∃ oa od,
    SimpleReport.printCache "action" (Simple.totalA s) (Simple.totalReusedA s)
      (sortInts (Simple.reuseA s))
    = (CacheLine "action" (Simple.totalA s) (Simple.totalReusedA s)
         :: PercentilesHeader :: oa, Ok tt)
    ∧ SimpleReport.printCache "data" (Simple.totalD s) (Simple.totalReusedD s)
        (sortInts (Simple.reuseD s))
      = (CacheLine "data" (Simple.totalD s) (Simple.totalReusedD s)
           :: PercentilesHeader :: od, Ok tt)
    ∧ Forall2 no_later oa od.
Proof.
  intros Hs Hc Hne Hidx.
  destruct (ExtraFacts.run_chrono lines s Hs Hc) as (_ & _ & _ & _ & HAD & _).
  pose proof (Forall2_length _ _ _ HAD) as Hlen.
  assert (HneD : Simple.reuseD s ≠ []).
  { intros H0. rewrite H0 in Hlen. by destruct (Simple.reuseA s). }
  do 2 eexists.
  rewrite !ReportFacts.printCache_nonempty;
    rewrite ?ReportFacts.sortInts_length;
    [|by apply ReportFacts.sortInts_nonempty|by rewrite <- Hlen
     |by apply ReportFacts.sortInts_nonempty|done].
  split; [done|]. split; [done|].
  rewrite <- Hlen. by apply ExtraFacts.percentile_items_le,
                           ExtraFacts.sortInts_dominate.
Qed.

Lemma X14_action_within_data_witness :
  ∃ oa od,
    SimpleReport.printCache "action" (Simple.totalA shared_data_state)
      (Simple.totalReusedA shared_data_state)
      (sortInts (Simple.reuseA shared_data_state))
    = (CacheLine "action" (Simple.totalA shared_data_state)
         (Simple.totalReusedA shared_data_state)
         :: PercentilesHeader :: oa, Ok tt)
    ∧ SimpleReport.printCache "data" (Simple.totalD shared_data_state)
        (Simple.totalReusedD shared_data_state)
        (sortInts (Simple.reuseD shared_data_state))
      = (CacheLine "data" (Simple.totalD shared_data_state)
           (Simple.totalReusedD shared_data_state)
           :: PercentilesHeader :: od, Ok tt)
    ∧ Forall2 no_later oa od.
Proof.
  apply (X14_action_within_data shared_data_lines).
  - vm_compute. reflexivity.
  - unfold chronological.
    replace (timestamps shared_data_lines) with [100; 150; 200; 260]
      by (vm_compute; reflexivity).
    repeat constructor; lia.
  - discriminate.
  - vm_compute. discriminate.
Defined.

(** X15: in the variant that tracks the time since the previous reuse, on
    a log whose timestamps are non-negative and never decrease, the delta
    section of each cache report is, line by line, at most the age section
    above it: no percentile of the deltas, nor their maximum, exceeds the
    same line of the ages. *)
Theorem X15_delta_within_age lines sx :
  Extended.run lines = Ok sx → chronological lines →
  Extended.reuseA sx ≠ [] → indexable (length (Extended.reuseA sx)) →
  ∃ agesA deltasA agesD deltasD,
    ExtendedReport.printCache "action" (Extended.totalA sx)
      (Extended.totalReusedA sx)
      (sortInts (Extended.reuseA sx)) (sortInts (Extended.reuseDeltaA sx))
    = (CacheLine "action" (Extended.totalA sx) (Extended.totalReusedA sx)
         :: PercentilesHeader :: agesA ++ DeltaPercentilesHeader :: deltasA,
       Ok tt)
    ∧ ExtendedReport.printCache "data" (Extended.totalD sx)
        (Extended.totalReusedD sx)
        (sortInts (Extended.reuseD sx)) (sortInts (Extended.reuseDeltaD sx))
      = (CacheLine "data" (Extended.totalD sx) (Extended.totalReusedD sx)
           :: PercentilesHeader :: agesD ++ DeltaPercentilesHeader :: deltasD,
         Ok tt)
    ∧ Forall2 no_later deltasA agesA
    ∧ Forall2 no_later deltasD agesD.
Proof.
  intros Hsx Hc Hne Hidx.
  destruct (ExtraFacts.run_chrono_x lines sx Hsx Hc)
    as (_ & _ & _ & _ & HAA & HDD).
  destruct (proj2 (SimFacts.run_Ok_both lines)) as [s Hs]; [by exists sx|].
  destruct (SimFacts.runs_related lines s sx Hs Hsx)
    as (_ & (_ & _ & HrA & HrD & _) & _).
  assert (Hlen : length (Extended.reuseD sx) = length (Extended.reuseA sx)).
  { rewrite <- HrA, <- HrD.
    apply SimpleFacts.run_Ok in Hs as (evs & _ & ->).
    symmetry. by apply SimpleFacts.foldl_next_samples_length. }
  pose proof (Forall2_length _ _ _ HAA) as HlA.
  pose proof (Forall2_length _ _ _ HDD) as HlD.
  assert (HneD : Extended.reuseD sx ≠ []).
  { intros H0. rewrite H0 in Hlen. by destruct (Extended.reuseA sx). }
  do 4 eexists.
  rewrite !ReportFacts.printCache_nonempty_x;
    rewrite ?ReportFacts.sortInts_length;
    [|by apply ReportFacts.sortInts_nonempty|by rewrite Hlen|done
     |by apply ReportFacts.sortInts_nonempty|done|done].
  split; [done|]. split; [done|].
  split; by apply ExtraFacts.percentile_items_le, ExtraFacts.sortInts_dominate.
Qed.

Lemma X15_delta_within_age_witness :
  ∃ agesA deltasA agesD deltasD,
    ExtendedReport.printCache "action" (Extended.totalA shared_data_state_x)
      (Extended.totalReusedA shared_data_state_x)
      (sortInts (Extended.reuseA shared_data_state_x))
      (sortInts (Extended.reuseDeltaA shared_data_state_x))
    = (CacheLine "action" (Extended.totalA shared_data_state_x)
         (Extended.totalReusedA shared_data_state_x)
         :: PercentilesHeader :: agesA ++ DeltaPercentilesHeader :: deltasA,
       Ok tt)
    ∧ ExtendedReport.printCache "data" (Extended.totalD shared_data_state_x)
        (Extended.totalReusedD shared_data_state_x)
        (sortInts (Extended.reuseD shared_data_state_x))
        (sortInts (Extended.reuseDeltaD shared_data_state_x))
      = (CacheLine "data" (Extended.totalD shared_data_state_x)
           (Extended.totalReusedD shared_data_state_x)
           :: PercentilesHeader :: agesD ++ DeltaPercentilesHeader :: deltasD,
         Ok tt)
    ∧ Forall2 no_later deltasA agesA
    ∧ Forall2 no_later deltasD agesD.
Proof.
  apply (X15_delta_within_age shared_data_lines).
  - vm_compute. reflexivity.
  - unfold chronological.
    replace (timestamps shared_data_lines) with [100; 150; 200; 260]
      by (vm_compute; reflexivity).
    repeat constructor; lia.
  - discriminate.
  - vm_compute. discriminate.
Defined.

(** X16: where [printCache] can go out of range.  [printCache] of
    [src/main.go] returns normally on every slice.  [printCache] of the
    variant reads [reuseDelta] at indices computed from [len(reuse)]: it
    returns normally exactly when [reuse] is empty or [reuseDelta] is at
    least as long, and panics exactly when [reuseDelta] is shorter than a
    [reuse] that is not empty. *)
Theorem X16_printCache_bounds name total totalReused reuse delta :
  indexable (length reuse) → indexable (length delta) →
  (SimpleReport.printCache name total totalReused reuse).2 = Ok tt
  ∧ ((ExtendedReport.printCache name total totalReused reuse delta).2 = Ok tt
     ↔ reuse = [] ∨ (length reuse <= length delta)%nat)
  ∧ ((ExtendedReport.printCache name total totalReused reuse delta).2 = Panic
     ↔ reuse ≠ [] ∧ (length delta < length reuse)%nat).
Proof.
  intros Hidx Hidxd. destruct (decide (reuse = [])) as [->|Hne].
  { split; [done|]. split; split; try done; [by left|by intros [? _]]. }
  assert (Hn : (0 < length reuse)%nat) by (destruct reuse; [done|simpl; lia]).
  split; [by rewrite ReportFacts.printCache_nonempty|].
  assert (Hst : (ExtendedReport.printCache name total totalReused reuse delta).2
                = if decide (length reuse <= length delta)%nat
                  then Ok tt else Panic).
  { unfold ExtendedReport.printCache.
    replace (len reuse =? 0) with false
      by (symmetry; apply Z.eqb_neq; unfold len; lia).
    unfold len. rewrite !ExtraFacts.bind_status. simpl.
    rewrite !ExtraFacts.print_percentiles_status by done.
    rewrite decide_True by done. done. }
  rewrite Hst. destruct (decide (length reuse <= length delta)%nat).
  - split; split; try done; [by right|intros [_ ?]; lia].
  - split; split; try done; [intros [?|?]; [done|lia]|].
    intros _. split; [done|lia].
Qed.

Lemma X16_printCache_bounds_witness :
  (SimpleReport.printCache "action" 308 154 [50; 110]).2 = Ok tt
  ∧ ((ExtendedReport.printCache "action" 308 154 [50; 110] [50]).2 = Ok tt
     ↔ [50; 110] = [] ∨ (length [50; 110] <= length [50])%nat)
  ∧ ((ExtendedReport.printCache "action" 308 154 [50; 110] [50]).2 = Panic
     ↔ [50; 110] ≠ [] ∧ (length [50] < length [50; 110])%nat).
Proof.
  apply (X16_printCache_bounds "action" 308 154 [50; 110] [50]);
    vm_compute; discriminate.
Defined.

(** X17: the report shows samples.  For a slice of samples that is not
    empty, every percentile line of [printCache] shows, in days, one of the
    samples, and the max line shows the largest of them. *)
Theorem X17_lines_show_samples name total totalReused reuse :
  reuse ≠ [] → indexable (length reuse) →
  ∃ out,
    SimpleReport.printCache name total totalReused (sortInts reuse)
    = (out, Ok tt)
    ∧ (∀ p v, Percentile p v ∈ out → ∃ x, x ∈ reuse ∧ v = days x)
    ∧ (∃ x, x ∈ reuse ∧ Max (days x) ∈ out ∧ ∀ y, y ∈ reuse → y <= x)
    ∧ (∀ m, Max m ∈ out →
         ∃ x, x ∈ reuse ∧ m = days x ∧ ∀ y, y ∈ reuse → y <= x).
Proof.
  intros Hne Hidx.
  assert (Hn : (0 < length reuse)%nat) by (destruct reuse; [done|simpl; lia]).
  eexists. split.
  { rewrite ReportFacts.printCache_nonempty;
      rewrite ?ReportFacts.sortInts_length;
      [done|by apply ReportFacts.sortInts_nonempty|done]. }
  pose proof ReportFacts.percentiles_bounds as Hb.
  rewrite Forall_forall in Hb.
  split; [|split].
  - intros p v Hin. rewrite !elem_of_cons in Hin.
    destruct Hin as [?|[?|Hin]]; [done..|].
    apply ReportFacts.percentile_items_Percentile in Hin
      as (num & den & Hin & ->).
    pose proof (Hb _ Hin) as [Hnum _]. simpl in Hnum.
    eexists. split; [|done].
    apply ExtraFacts.sortInts_lookup_total_elem.
    by apply ReportFacts.percentile_index_lt.
  - exists (sortInts reuse !!! (length reuse - 1)%nat).
    split; [apply ExtraFacts.sortInts_lookup_total_elem; lia|].
    split; [|intros y; apply ExtraFacts.sortInts_last_max].
    do 2 apply list_elem_of_further.
    apply ExtraFacts.percentile_items_Max_elem.
  - intros m Hin. rewrite !elem_of_cons in Hin.
    destruct Hin as [?|[?|Hin]]; [done..|].
    apply ReportFacts.percentile_items_Max in Hin as ->.
    eexists. split; [|split; [done|]].
    + apply ExtraFacts.sortInts_lookup_total_elem. lia.
    + intros y. apply ExtraFacts.sortInts_last_max.
Qed.

Lemma X17_lines_show_samples_witness :
  ∃ out,
    SimpleReport.printCache "action" 308 154 (sortInts [110; 50])
    = (out, Ok tt)
    ∧ (∀ p v, Percentile p v ∈ out → ∃ x, x ∈ [110; 50] ∧ v = days x)
    ∧ (∃ x, x ∈ [110; 50] ∧ Max (days x) ∈ out
            ∧ ∀ y, y ∈ [110; 50] → y <= x)
    ∧ (∀ m, Max m ∈ out →
         ∃ x, x ∈ [110; 50] ∧ m = days x ∧ ∀ y, y ∈ [110; 50] → y <= x).
Proof.
  apply (X17_lines_show_samples "action" 308 154 [110; 50]).
  - discriminate.
  - vm_compute. discriminate.
Defined.

(** X18: few samples.  With fewer than ten samples the 10% line shows the
    smallest sample; with at most twenty the 95% line shows the largest,
    with at most a hundred the 99% line does, and with at most a thousand
    the 99.9% line does. *)
Theorem X18_few_samples name total totalReused reuse :
  reuse ≠ [] → indexable (length reuse) →
  ∃ out lo hi,
    SimpleReport.printCache name total totalReused (sortInts reuse)
    = (out, Ok tt)
    ∧ lo ∈ reuse ∧ (∀ y, y ∈ reuse → lo <= y)
    ∧ hi ∈ reuse ∧ (∀ y, y ∈ reuse → y <= hi)
    ∧ Max (days hi) ∈ out
    ∧ ((length reuse < 10)%nat → Percentile 10 (days lo) ∈ out)
    ∧ ((length reuse <= 20)%nat → Percentile 95 (days hi) ∈ out)
    ∧ ((length reuse <= 100)%nat → Percentile 99 (days hi) ∈ out)
    ∧ ((length reuse <= 1000)%nat → Percentile (999 # 10) (days hi) ∈ out).
Proof.
  intros Hne Hidx.
  assert (Hn : (0 < length reuse)%nat) by (destruct reuse; [done|simpl; lia]).
  exists (CacheLine name total totalReused :: PercentilesHeader
            :: percentile_items (sortInts reuse) (length reuse)),
    (sortInts reuse !!! 0%nat),
    (sortInts reuse !!! (length reuse - 1)%nat).
  split.
  { rewrite ReportFacts.printCache_nonempty;
      rewrite ?ReportFacts.sortInts_length;
      [done|by apply ReportFacts.sortInts_nonempty|done]. }
  split; [by apply ExtraFacts.sortInts_lookup_total_elem|].
  split; [intros y; apply ExtraFacts.sortInts_first_min|].
  split; [apply ExtraFacts.sortInts_lookup_total_elem; lia|].
  split; [intros y; apply ExtraFacts.sortInts_last_max|].
  split.
  { do 2 apply list_elem_of_further.
    apply ExtraFacts.percentile_items_Max_elem. }
  split; [|split; [|split]]; intros Hlen; do 2 apply list_elem_of_further.
  - rewrite <- (ExtraFacts.percentile_index_first (length reuse) 10 100)
      by lia.
    apply ExtraFacts.percentile_items_elem. set_solver.
  - rewrite <- (ExtraFacts.percentile_index_last (length reuse) 95 100)
      by lia.
    apply ExtraFacts.percentile_items_elem. set_solver.
  - rewrite <- (ExtraFacts.percentile_index_last (length reuse) 99 100)
      by lia.
    apply ExtraFacts.percentile_items_elem. set_solver.
  - rewrite <- (ExtraFacts.percentile_index_last (length reuse) 999 1000)
      by lia.
    apply ExtraFacts.percentile_items_elem. set_solver.
Qed.

Lemma X18_few_samples_witness :
  ∃ out lo hi,
    SimpleReport.printCache "action" 308 154 (sortInts [110; 50])
    = (out, Ok tt)
    ∧ lo ∈ [110; 50] ∧ (∀ y, y ∈ [110; 50] → lo <= y)
    ∧ hi ∈ [110; 50] ∧ (∀ y, y ∈ [110; 50] → y <= hi)
    ∧ Max (days hi) ∈ out
    ∧ ((length [110; 50] < 10)%nat → Percentile 10 (days lo) ∈ out)
    ∧ ((length [110; 50] <= 20)%nat → Percentile 95 (days hi) ∈ out)
    ∧ ((length [110; 50] <= 100)%nat → Percentile 99 (days hi) ∈ out)
    ∧ ((length [110; 50] <= 1000)%nat
       → Percentile (999 # 10) (days hi) ∈ out).
Proof.
  apply (X18_few_samples "action" 308 154 [110; 50]).
  - discriminate.
  - vm_compute. discriminate.
Defined.

(** X19: one sample for each get or miss that finds its key.  After a log
    that passes validation, each sample sequence has as many values as the
    log has get and miss lines whose action is named by a put earlier in
    the log; a get or miss before the first put of its action leaves no
    sample.  In both variants, there for the delta sequences too. *)
Theorem X19_one_sample_per_hit lines s sx :
  Simple.run lines = Ok s → Extended.run lines = Ok sx →
  length (Simple.reuseA s) = log_hits lines
  ∧ length (Simple.reuseD s) = log_hits lines
  ∧ length (Extended.reuseA sx) = log_hits lines
  ∧ length (Extended.reuseD sx) = log_hits lines
  ∧ length (Extended.reuseDeltaA sx) = log_hits lines
  ∧ length (Extended.reuseDeltaD sx) = log_hits lines.
Proof.
  intros Hs Hsx.
  destruct (SimFacts.runs_related lines s sx Hs Hsx)
    as (_ & (_ & _ & HrA & HrD & _ & _ & _ & _ & HlA & HlD & _) & _).
  rewrite HlA, HlD, <- HrA, <- HrD.
  pose proof (ExtraFacts.run_hits lines s Hs) as HA.
  assert (HD : length (Simple.reuseD s) = log_hits lines).
  { rewrite <- HA. apply SimpleFacts.run_Ok in Hs as (evs & _ & ->).
    symmetry. by apply SimpleFacts.foldl_next_samples_length. }
  done.
Qed.

Lemma X19_one_sample_per_hit_witness :
  length (Simple.reuseA early_get_state) = log_hits early_get_lines
  ∧ length (Simple.reuseD early_get_state) = log_hits early_get_lines
  ∧ length (Extended.reuseA early_get_state_x) = log_hits early_get_lines
  ∧ length (Extended.reuseD early_get_state_x) = log_hits early_get_lines
  ∧ length (Extended.reuseDeltaA early_get_state_x) = log_hits early_get_lines
  ∧ length (Extended.reuseDeltaD early_get_state_x) = log_hits early_get_lines.
Proof.
  apply (X19_one_sample_per_hit early_get_lines); vm_compute; reflexivity.
Defined.

(** X20: all or nothing.  [main], from the bytes of log.txt on, ends in one
    of two ways and never panics: on a log with a malformed line it ends
    with the fatal error and has printed nothing; on any other log it
    prints the banner, the opening fence, the cache age, the report of the
    action cache, the report of the data cache and the closing fence, in
    this order, and returns.  In both variants. *)
Theorem X20_all_or_nothing data :
  indexable (length (Split data)) →
  match Simple.run (Split data) with
  | Ok s =>
      SimpleReport.main data
      = (Banner :: Fence
           :: CacheAge (days (sub64 (Simple.lastTime s) (Simple.firstTime s)))
           :: cache_report "action" (Simple.totalA s) (Simple.totalReusedA s)
                (Simple.reuseA s)
           ++ cache_report "data" (Simple.totalD s) (Simple.totalReusedD s)
                (Simple.reuseD s)
           ++ [Fence], Ok tt)
  | Fatal e => SimpleReport.main data = ([], Fatal e)
  | Panic => False
  end
  ∧ match Extended.run (Split data) with
    | Ok sx =>
        ExtendedReport.main data
        = (Banner :: Fence
             :: CacheAge
                  (days (sub64 (Extended.lastTime sx) (Extended.firstTime sx)))
             :: cache_report_x "action" (Extended.totalA sx)
                  (Extended.totalReusedA sx)
                  (Extended.reuseA sx) (Extended.reuseDeltaA sx)
             ++ cache_report_x "data" (Extended.totalD sx)
                  (Extended.totalReusedD sx)
                  (Extended.reuseD sx) (Extended.reuseDeltaD sx)
             ++ [Fence], Ok tt)
    | Fatal e => ExtendedReport.main data = ([], Fatal e)
    | Panic => False
    end.
Proof.
  intros Hidx.
  assert (Hsimple : ∀ s, Simple.run (Split data) = Ok s →
            indexable (length (Simple.reuseA s))
            ∧ indexable (length (Simple.reuseD s))).
  { intros s Hs. pose proof (ExtraFacts.run_hits _ s Hs) as HA.
    assert (HD : length (Simple.reuseD s) = length (Simple.reuseA s)).
    { apply SimpleFacts.run_Ok in Hs as (evs & _ & ->).
      symmetry. by apply SimpleFacts.foldl_next_samples_length. }
    rewrite HD, HA.
    split; apply (ExtraFacts.indexable_le _ _ (ExtraFacts.log_hits_le _) Hidx). }
  split.
  - destruct (Simple.run (Split data)) as [s|e|] eqn:Hs.
    + destruct (Hsimple s eq_refl) as [HiA HiD].
      unfold SimpleReport.main. rewrite Hs.
      rewrite !ExtraFacts.printCache_report by done.
      simpl. by rewrite <- !app_assoc.
    + unfold SimpleReport.main. by rewrite Hs.
    + rewrite SimpleFacts.run_next in Hs. by destruct (parse_lines _).
  - destruct (Extended.run (Split data)) as [sx|e|] eqn:Hsx.
    + destruct (proj2 (SimFacts.run_Ok_both (Split data))) as [s Hs];
        [by exists sx|].
      destruct (Hsimple s Hs) as [HiA HiD].
      destruct (SimFacts.runs_related _ s sx Hs Hsx)
        as (_ & (_ & _ & HrA & HrD & _ & _ & _ & _ & HlA & HlD & _) & _).
      rewrite HrA in HiA. rewrite HrD in HiD.
      unfold ExtendedReport.main. rewrite Hsx.
      rewrite !ExtraFacts.printCache_report_x by done.
      simpl. by rewrite <- !app_assoc.
    + unfold ExtendedReport.main. by rewrite Hsx.
    + rewrite SimFacts.run_next_x in Hsx. by destruct (parse_lines _).
Qed.

Lemma X20_all_or_nothing_witness :
  match Simple.run (Split scenario) with
  | Ok s =>
      SimpleReport.main scenario
      = (Banner :: Fence
           :: CacheAge (days (sub64 (Simple.lastTime s) (Simple.firstTime s)))
           :: cache_report "action" (Simple.totalA s) (Simple.totalReusedA s)
                (Simple.reuseA s)
           ++ cache_report "data" (Simple.totalD s) (Simple.totalReusedD s)
                (Simple.reuseD s)
           ++ [Fence], Ok tt)
  | Fatal e => SimpleReport.main scenario = ([], Fatal e)
  | Panic => False
  end
  ∧ match Extended.run (Split scenario) with
    | Ok sx =>
        ExtendedReport.main scenario
        = (Banner :: Fence
             :: CacheAge
                  (days (sub64 (Extended.lastTime sx) (Extended.firstTime sx)))
             :: cache_report_x "action" (Extended.totalA sx)
                  (Extended.totalReusedA sx)
                  (Extended.reuseA sx) (Extended.reuseDeltaA sx)
             ++ cache_report_x "data" (Extended.totalD sx)
                  (Extended.totalReusedD sx)
                  (Extended.reuseD sx) (Extended.reuseDeltaD sx)
             ++ [Fence], Ok tt)
    | Fatal e => ExtendedReport.main scenario = ([], Fatal e)
    | Panic => False
    end.
Proof.
  apply (X20_all_or_nothing scenario). vm_compute. discriminate.
Defined.

(** X21: the cache age.  On a log whose timestamps are non-negative and
    never decrease, [firstTime] is at most [lastTime], their difference is
    computed without wrap-around, and the cache age printed is not
    negative.  In both variants. *)
Theorem X21_cache_age lines s sx :
  Simple.run lines = Ok s → Extended.run lines = Ok sx →
  chronological lines →
  (0 <= Simple.firstTime s <= Simple.lastTime s
   ∧ sub64 (Simple.lastTime s) (Simple.firstTime s)
     = Simple.lastTime s - Simple.firstTime s
   ∧ (0 <= days (sub64 (Simple.lastTime s) (Simple.firstTime s)))%Q)
  ∧ (0 <= Extended.firstTime sx <= Extended.lastTime sx
     ∧ sub64 (Extended.lastTime sx) (Extended.firstTime sx)
       = Extended.lastTime sx - Extended.firstTime sx
     ∧ (0 <= days (sub64 (Extended.lastTime sx) (Extended.firstTime sx)))%Q).
Proof.
  intros Hs Hsx Hc.
  destruct (SimFacts.runs_related _ _ _ Hs Hsx)
    as (_ & (_ & _ & _ & _ & Hft & Hlt & _) & _).
  rewrite <- Hft, <- Hlt.
  destruct (ExtraFacts.run_age lines s Hs Hc) as [Hage Hmax].
  assert (Hsub : sub64 (Simple.lastTime s) (Simple.firstTime s)
                 = Simple.lastTime s - Simple.firstTime s).
  { apply wrap64_id. unfold in_int64, minInt64, maxInt64 in *. lia. }
  assert (Hdays : (0 <= days (sub64 (Simple.lastTime s) (Simple.firstTime s)))%Q).
  { rewrite Hsub. unfold days, Qle. simpl. lia. }
  done.
Qed.

Lemma X21_cache_age_witness :
  (0 <= Simple.firstTime shared_data_state <= Simple.lastTime shared_data_state
   ∧ sub64 (Simple.lastTime shared_data_state)
       (Simple.firstTime shared_data_state)
     = Simple.lastTime shared_data_state - Simple.firstTime shared_data_state
   ∧ (0 <= days (sub64 (Simple.lastTime shared_data_state)
                   (Simple.firstTime shared_data_state)))%Q)
  ∧ (0 <= Extended.firstTime shared_data_state_x
       <= Extended.lastTime shared_data_state_x
     ∧ sub64 (Extended.lastTime shared_data_state_x)
         (Extended.firstTime shared_data_state_x)
       = Extended.lastTime shared_data_state_x
         - Extended.firstTime shared_data_state_x
     ∧ (0 <= days (sub64 (Extended.lastTime shared_data_state_x)
                     (Extended.firstTime shared_data_state_x)))%Q).
Proof.
  apply (X21_cache_age shared_data_lines).
  - vm_compute. reflexivity.
  - vm_compute. reflexivity.
  - unfold chronological.
    replace (timestamps shared_data_lines) with [100; 150; 200; 260]
      by (vm_compute; reflexivity).
    repeat constructor; lia.
Defined.
